(** * Zelda64 Seqvol Editor: a shallow embedding of the sequence decoder and patcher

    The repository holds two implementations of one tool.  The earlier one
    (version 2025.02.05, [Zelda64_Seqvol_Editor.py]) spells its functions in
    capitals ([PARSE_SEQ], [READ_U8], [WRITE_BIN], ...); the later one
    (version 2025.04.24) is table driven and spells them in lower case
    ([parse_seq], [read_u8], [write_bin], ...).  Rocq is case sensitive, so
    both sets of names are kept as they are in the sources and live side by
    side in this file.

    Layout: the Python run time the code relies on (binary file objects,
    [struct.unpack], [hex], string formatting, floats), then the earlier
    implementation, then the later one, then the theorems. *)

From Stdlib Require Import ZArith NArith List Bool Ascii String Lia.
From Stdlib Require Import Strings.Byte Strings.HexString.
From Stdlib Require Import Floats.
From Stdlib Require Import Reals Lra.
From stdpp Require Import base list.
Import ListNotations.

Local Open Scope string_scope.
Local Open Scope Z_scope.

(* ===================================================================== *)
(** ** Python run time *)
(* ===================================================================== *)

(** Exceptions the modelled code can raise. *)
Inductive exn : Type :=
| struct_error      (* struct.unpack on a buffer of the wrong size *)
| TypeError         (* ord() of an empty bytes object *)
| AttributeError    (* attribute access on a tuple *)
| ValueError        (* math.ceil of NaN *)
| OverflowError     (* int.to_bytes out of range, math.ceil of infinity *)
| EOFError.         (* input() with nothing left to read *)

Inductive result (A : Type) : Type :=
| Ok (a : A)
| Raise (e : exn).
Arguments Ok {A} a.
Arguments Raise {A} e.

(** *** Binary file objects ([open(path, 'r+b')]) *)

Record file : Type := mkfile { data : list byte; cursor : nat }.

Definition open (bs : list byte) : file := mkfile bs 0.

Definition seek (seq : file) (addr : nat) : file := mkfile (data seq) addr.

Definition tell (seq : file) : nat := cursor seq.

(** [seq.read(n)]: at most [n] bytes from the cursor, which moves past what
    was read; at the end of the file the result is shorter, possibly empty. *)
Definition read (seq : file) (n : nat) : list byte * file :=
  let bs := take n (drop (cursor seq) (data seq)) in
  (bs, mkfile (data seq) (cursor seq + length bs)).

(** One byte written at the cursor: in range it replaces the byte there;
    at or past the end the file grows (the gap, if any, reads as zeros). *)
Definition write_byte (seq : file) (b : byte) : file :=
  let c := cursor seq in
  let d := data seq in
  if (c <? length d)%nat
  then mkfile (<[c := b]> d) (S c)
  else mkfile (d ++ replicate (c - length d) x00 ++ [b])%list (S c).

(** [seq.write(bs)] *)
Definition write (seq : file) (bs : list byte) : file :=
  fold_left write_byte bs seq.

(** *** Integers and bytes *)

Definition byte_val (b : byte) : Z := Z.of_N (Byte.to_N b).

(** [n.to_bytes(1, byteorder='big', signed=False)] *)
Definition to_bytes1 (n : Z) : result (list byte) :=
  if n <? 0 then Raise OverflowError
  else match Byte.of_N (Z.to_N n) with
       | Some b => Ok [b]
       | None => Raise OverflowError
       end.

(** [int.from_bytes(bs, byteorder='big', signed=False)] *)
Definition from_bytes (bs : list byte) : Z :=
  fold_left (fun acc b => acc * 256 + byte_val b) bs 0.

(** [ord(bs)] for a bytes object: defined on exactly one byte. *)
Definition ord (bs : list byte) : result Z :=
  match bs with
  | [b] => Ok (byte_val b)
  | _ => Raise TypeError
  end.

(** *** [struct.unpack] with big-endian formats made of [B] and [H] *)

Inductive field : Type := B | H.

Fixpoint unpack (fmt : list field) (bs : list byte) : result (list Z) :=
  match fmt, bs with
  | [], [] => Ok []
  | B :: fmt', b :: bs' =>
      match unpack fmt' bs' with
      | Ok vs => Ok (byte_val b :: vs)
      | Raise e => Raise e
      end
  | H :: fmt', hi :: lo :: bs' =>
      match unpack fmt' bs' with
      | Ok vs => Ok (byte_val hi * 256 + byte_val lo :: vs)
      | Raise e => Raise e
      end
  | _, _ => Raise struct_error
  end.

(** *** Strings *)

Definition upper_ascii (c : ascii) : ascii :=
  let n := nat_of_ascii c in
  if ((97 <=? n) && (n <=? 122))%nat then ascii_of_nat (n - 32) else c.

(** [s.upper()] (the strings at hand are ASCII) *)
Fixpoint upper (s : string) : string :=
  match s with
  | EmptyString => EmptyString
  | String c s' => String (upper_ascii c) (upper s')
  end.

(** [hex(n)[2:]] for [n >= 0]: lower-case digits, no padding. *)
Definition hex2 (n : Z) : string :=
  String.substring 2 (String.length (HexString.of_Z n) - 2) (HexString.of_Z n).

Fixpoint repeat_char (c : ascii) (n : nat) : string :=
  match n with
  | O => EmptyString
  | S n' => String c (repeat_char c n')
  end.

(** [f'{n:0wX}']: upper-case digits, zero padded to [w] characters. *)
Definition fmt_X (w : nat) (n : Z) : string :=
  let s := upper (hex2 n) in
  repeat_char "0"%char (w - String.length s) ++ s.

(** [s[-k:]] *)
Definition last_chars (k : nat) (s : string) : string :=
  String.substring (String.length s - k) k s.

(** [s.ljust(w)] *)
Definition ljust (w : nat) (s : string) : string :=
  s ++ repeat_char " "%char (w - String.length s).

(** [' '.join(l)] *)
Fixpoint join_sp (l : list string) : string :=
  match l with
  | [] => EmptyString
  | [s] => s
  | s :: l' => s ++ " " ++ join_sp l'
  end.

(** ANSI colour codes used in the records. *)
Definition ESC : string := String (ascii_of_nat 27) EmptyString.
Definition YELLOW : string := ESC ++ "[33m".
Definition PINK_218 : string := ESC ++ "[38;5;218m".
Definition RESET : string := ESC ++ "[0m".

(** *** Floats: [math.ceil] *)

(** [math.ceil(x)] for a float: the least integer not below [x]; NaN raises
    [ValueError], an infinity raises [OverflowError]. *)
Definition math_ceil (x : float) : result Z :=
  match Prim2SF x with
  | S754_zero _ => Ok 0
  | S754_finite s m e =>
      let v := if s then Z.neg m else Z.pos m in
      Ok (if 0 <=? e then v * 2 ^ e else - ((- v) / 2 ^ (- e)))
  | S754_infinity _ => Raise OverflowError
  | S754_nan => Raise ValueError
  end.

(** *** File operations that can raise *)

(** Code that threads the open file through its calls and may raise: the
    file survives an exception (the cursor stays where the failing call
    left it). *)
Definition M (A : Type) : Type := file -> result A * file.

Definition ret {A} (a : A) : M A := fun f => (Ok a, f).

Definition throw {A} (e : exn) : M A := fun f => (Raise e, f).

Definition bind {A C} (m : M A) (k : A -> M C) : M C :=
  fun f => match m f with
           | (Ok a, f') => k a f'
           | (Raise e, f') => (Raise e, f')
           end.

Definition lift {A} (r : result A) : M A := fun f => (r, f).

Notation "x <- m ;; k" := (bind m (fun x => k))
  (at level 100, m at next level, right associativity).
Notation "m ;;; k" := (bind m (fun _ => k))
  (at level 100, right associativity).

Definition seekM (addr : nat) : M unit := fun f => (Ok tt, seek f addr).
Definition tellM : M nat := fun f => (Ok (tell f), f).
Definition readM (n : nat) : M (list byte) :=
  fun f => let '(bs, f') := read f n in (Ok bs, f').
Definition writeM (bs : list byte) : M unit := fun f => (Ok tt, write f bs).

(* ===================================================================== *)
(** ** State shared by both implementations *)
(* ===================================================================== *)

Inductive SeqVersion : Type := OOT | MM.

Definition SeqVersion_eqb (a b : SeqVersion) : bool :=
  match a, b with
  | OOT, OOT | MM, MM => true
  | _, _ => false
  end.

(** The module-level lists.  They are created empty when the module is
    loaded and only ever appended to. *)
Record globals : Type := mkglobals {
  SEQ_HEADER_OUTPUT : list string;
  MSTR_VOL_ADDR : list nat;
  JUMP_ADDR : list nat;
  EQJUMP_ADDR : list nat;
  LTJUMP_ADDR : list nat;
  GTEQJUMP_ADDR : list nat;
  RJUMP_ADDR : list nat;
  REQJUMP_ADDR : list nat;
  RLTJUMP_ADDR : list nat
}.

Definition module_load : globals := mkglobals [] [] [] [] [] [] [] [] [].

(** A reference to one of the address lists. *)
Inductive addr_list : Type :=
| MSTR_VOL | JUMP | EQJUMP | LTJUMP | GTEQJUMP | RJUMP | REQJUMP | RLTJUMP.

(** [SEQ_HEADER_OUTPUT.append(s)] *)
Definition output_append (s : string) (g : globals) : globals :=
  mkglobals (SEQ_HEADER_OUTPUT g ++ [s]) (MSTR_VOL_ADDR g) (JUMP_ADDR g)
    (EQJUMP_ADDR g) (LTJUMP_ADDR g) (GTEQJUMP_ADDR g) (RJUMP_ADDR g)
    (REQJUMP_ADDR g) (RLTJUMP_ADDR g).

(** [l.append(a)] for the list that [l] refers to. *)
Definition addr_append (l : addr_list) (a : nat) (g : globals) : globals :=
  match l with
  | MSTR_VOL => mkglobals (SEQ_HEADER_OUTPUT g) (MSTR_VOL_ADDR g ++ [a]) (JUMP_ADDR g)
      (EQJUMP_ADDR g) (LTJUMP_ADDR g) (GTEQJUMP_ADDR g) (RJUMP_ADDR g)
      (REQJUMP_ADDR g) (RLTJUMP_ADDR g)
  | JUMP => mkglobals (SEQ_HEADER_OUTPUT g) (MSTR_VOL_ADDR g) (JUMP_ADDR g ++ [a])
      (EQJUMP_ADDR g) (LTJUMP_ADDR g) (GTEQJUMP_ADDR g) (RJUMP_ADDR g)
      (REQJUMP_ADDR g) (RLTJUMP_ADDR g)
  | EQJUMP => mkglobals (SEQ_HEADER_OUTPUT g) (MSTR_VOL_ADDR g) (JUMP_ADDR g)
      (EQJUMP_ADDR g ++ [a]) (LTJUMP_ADDR g) (GTEQJUMP_ADDR g) (RJUMP_ADDR g)
      (REQJUMP_ADDR g) (RLTJUMP_ADDR g)
  | LTJUMP => mkglobals (SEQ_HEADER_OUTPUT g) (MSTR_VOL_ADDR g) (JUMP_ADDR g)
      (EQJUMP_ADDR g) (LTJUMP_ADDR g ++ [a]) (GTEQJUMP_ADDR g) (RJUMP_ADDR g)
      (REQJUMP_ADDR g) (RLTJUMP_ADDR g)
  | GTEQJUMP => mkglobals (SEQ_HEADER_OUTPUT g) (MSTR_VOL_ADDR g) (JUMP_ADDR g)
      (EQJUMP_ADDR g) (LTJUMP_ADDR g) (GTEQJUMP_ADDR g ++ [a]) (RJUMP_ADDR g)
      (REQJUMP_ADDR g) (RLTJUMP_ADDR g)
  | RJUMP => mkglobals (SEQ_HEADER_OUTPUT g) (MSTR_VOL_ADDR g) (JUMP_ADDR g)
      (EQJUMP_ADDR g) (LTJUMP_ADDR g) (GTEQJUMP_ADDR g) (RJUMP_ADDR g ++ [a])
      (REQJUMP_ADDR g) (RLTJUMP_ADDR g)
  | REQJUMP => mkglobals (SEQ_HEADER_OUTPUT g) (MSTR_VOL_ADDR g) (JUMP_ADDR g)
      (EQJUMP_ADDR g) (LTJUMP_ADDR g) (GTEQJUMP_ADDR g) (RJUMP_ADDR g)
      (REQJUMP_ADDR g ++ [a]) (RLTJUMP_ADDR g)
  | RLTJUMP => mkglobals (SEQ_HEADER_OUTPUT g) (MSTR_VOL_ADDR g) (JUMP_ADDR g)
      (EQJUMP_ADDR g) (LTJUMP_ADDR g) (GTEQJUMP_ADDR g) (RJUMP_ADDR g)
      (REQJUMP_ADDR g) (RLTJUMP_ADDR g ++ [a])
  end.

(** What a decoding loop is doing while it runs: the open file, the local
    [pos], and the module-level lists. *)
Record pstate : Type := mkpstate { st_seq : file; st_pos : nat; st_G : globals }.

(** How one pass of the loop body leaves the loop. *)
Inductive flow : Type :=
| Next (st : pstate)               (* falls through to the loop condition *)
| Break (st : pstate)              (* [break] *)
| Throw (e : exn) (st : pstate).   (* an exception leaves the function *)

(** How a whole decoding pass ends. *)
Inductive outcome : Type :=
| Ended            (* [break] on the end message *)
| Exhausted        (* the loop condition read nothing *)
| Raised (e : exn)
| OutOfFuel.

(** Volume argument as the command line hands it over: the text before a
    trailing percent sign converted by [float], or the whole text converted
    by [int(value, 0)]. *)
Inductive vol_literal : Type :=
| Percent (f : float)
| Plain (z : Z).

(** What [check_vol] returns and [ARG_PARSER.value] holds. *)
Inductive volume : Type :=
| VFloat (f : float)
| VInt (z : Z).

(** A line typed at a prompt. *)
Inductive line : Type :=
| L_auto                       (* auto, Auto, AUTO *)
| L_manual                     (* manual, Manual, MANUAL *)
| L_exit                       (* exit *)
| L_Exit                       (* Exit *)
| L_value (v : vol_literal)    (* a number or a percentage *)
| L_other.                     (* anything else *)

(** How the mutation phase ends. *)
Inductive finish : Type :=
| Done                 (* [main] returns *)
| Exit                 (* [sys.exit] from a prompt *)
| Failed (e : exn).    (* an exception leaves [main] *)

(** The parsed command line ([ARG_PARSER]). *)
Record ArgParser : Type := mkArgParser {
  value : volume;
  fix_jumps : bool;
  game_version : SeqVersion
}.

(** [ArgParser.check_vol(value)], the same text in both implementations.
    [None] stands for [parser.error], which ends the process. *)
Definition check_vol (value : vol_literal) : option volume :=
  match value with
  | Percent vol =>
      if (PrimFloat.ltb 200 vol || PrimFloat.ltb vol 0)%bool then None
      else Some (VFloat vol)
  | Plain vol =>
      if ((0xFF <? vol) || (vol <? 0x00))%bool then None
      else Some (VInt vol)
  end.

(** [t[i]] on the tuple [struct.unpack] returned. *)
Definition item (t : list Z) (i : nat) : Z := nth i t 0.

(** [for addr in addrs: fix_func(seq, addr)] *)
Definition fix_each (fix_func : nat -> M unit) (addrs : list nat) (seq : file)
  : file :=
  fold_left (fun seq addr => snd (fix_func addr seq)) addrs seq.

(* ===================================================================== *)
(** ** The earlier implementation (version 2025.02.05) *)
(* ===================================================================== *)

Module V02.

(** The address part of [GET_MSG_STRING], before the final [.upper()]. *)
Definition GET_MSG_STRING_hex_addr (addr : Z) : string :=
  if 0x1000 <=? addr then "@" ++ hex2 addr
  else if (0x100 <=? addr) && (addr <=? 0xFFF) then "@0" ++ hex2 addr
  else if (0x10 <=? addr) && (addr <=? 0xFF) then "@00" ++ hex2 addr
  else "@000" ++ hex2 addr.

(** [GET_MSG_STRING(addr, msg, *args)].  With more than two arguments the
    function falls off its end and returns [None], which the f-string of
    the caller would print as such. *)
Definition GET_MSG_STRING (addr : Z) (msg : Z) (args : list Z) : string :=
  let hex_addr := GET_MSG_STRING_hex_addr addr in
  let hex_msg := if msg <? 0x10 then "0" ++ hex2 msg else hex2 msg in
  let hex_args := map hex2 args in
  match hex_args with
  | [] => upper (hex_addr ++ ": " ++ hex_msg)
  | [a0] => upper (hex_addr ++ ": " ++ hex_msg ++ " " ++ a0)
  | [a0; a1] => upper (hex_addr ++ ": " ++ hex_msg ++ " " ++ a0 ++ " " ++ a1)
  | _ => "None"
  end.

Definition SEEK_ADDR (addr : nat) : M unit := seekM addr.

Definition READ_MSG (offset : nat) : M (list Z) :=
  SEEK_ADDR offset ;;;
  bs <- readM 1 ;;
  data <- lift (unpack [B] bs) ;;
  ret [item data 0].

(** Returns the message, the number of positions to move, and the address
    of the argument. *)
Definition READ_ARGVAR (offset : nat) (arglen : Z) : M (list Z * nat * nat) :=
  SEEK_ADDR offset ;;;
  c <- tellM ;;
  let arg_addr := (c + 1)%nat in
  if negb (Z.land arglen 0x80 =? 0) then
    bs <- readM 3 ;;
    data <- lift (unpack [B; H] bs) ;;
    ret ([item data 0; item data 1], 3%nat, arg_addr)
  else
    bs <- readM 2 ;;
    data <- lift (unpack [B; B] bs) ;;
    ret ([item data 0; item data 1], 2%nat, arg_addr).

Definition READ_U8 (offset : nat) : M (list Z * nat) :=
  SEEK_ADDR offset ;;;
  c <- tellM ;;
  let arg_addr := (c + 1)%nat in
  bs <- readM 2 ;;
  data <- lift (unpack [B; B] bs) ;;
  ret ([item data 0; item data 1], arg_addr).

Definition READ_U8x2 (offset : nat) : M (list Z * nat * nat) :=
  SEEK_ADDR offset ;;;
  c <- tellM ;;
  let arg_addr1 := (c + 1)%nat in
  let arg_addr2 := (c + 2)%nat in
  bs <- readM 3 ;;
  data <- lift (unpack [B; B; B] bs) ;;
  ret ([item data 0; item data 1; item data 2], arg_addr1, arg_addr2).

Definition READ_U8_U16 (offset : nat) : M (list Z * nat * nat) :=
  SEEK_ADDR offset ;;;
  c <- tellM ;;
  let arg_addr1 := (c + 1)%nat in
  let arg_addr2 := (c + 2)%nat in
  bs <- readM 4 ;;
  data <- lift (unpack [B; B; H] bs) ;;
  ret ([item data 0; item data 1; item data 2], arg_addr1, arg_addr2).

Definition READ_U16 (offset : nat) : M (list Z * nat) :=
  SEEK_ADDR offset ;;;
  c <- tellM ;;
  let arg_addr := (c + 1)%nat in
  bs <- readM 3 ;;
  data <- lift (unpack [B; H] bs) ;;
  ret ([item data 0; item data 1], arg_addr).

Definition READ_S16_U8 (offset : nat) : M (list Z * nat * nat) :=
  SEEK_ADDR offset ;;;
  c <- tellM ;;
  let arg_addr1 := (c + 1)%nat in
  let arg_addr2 := (c + 3)%nat in
  bs <- readM 4 ;;
  data <- lift (unpack [B; H; B] bs) ;;
  ret ([item data 0; item data 1; item data 2], arg_addr1, arg_addr2).

Definition WRITE_BIN (addr : nat) (value : list byte) : M unit :=
  seekM addr ;;; writeM value.

Definition FIX_JUMP (addr : nat) : M unit :=
  seekM addr ;;;
  let b := [xfb] in
  writeM b.

Definition FIX_RJUMP (addr : nat) : M unit :=
  seekM addr ;;;
  let b := [xf4] in
  writeM b.

(** *** [SeqParser.PARSE_SEQ]

    The body of the loop is one long [if]/[elif] chain on the byte read at
    [pos].  Every arm but two has the same shape: note the address, call a
    reader, format the record, append it (and perhaps an address), move
    [pos].  [PARSE_SEQ_arm] is the chain itself, one test per arm in the
    order of the source; a [branch] holds what differs between arms. *)

Inductive OLD_READER : Type :=
| BY_READ_MSG | BY_READ_ARGVAR | BY_READ_U8 | BY_READ_U8x2
| BY_READ_U8_U16 | BY_READ_U16 | BY_READ_S16_U8.

(** Which address an arm appends to its list: that of the message itself
    ([self.s_x_addr]) or that of its argument ([self.s_x_arg_addr]). *)
Inductive collected : Type := the_addr | the_arg_addr.

Record branch : Type := mkbranch {
  br_read : OLD_READER;
  br_msg_shown : bool;      (* [GET_MSG_STRING(addr, msg, args...)]; the fade
                               arm passes [(addr, arg1, arg2)] instead *)
  br_open : string;         (* the f-string up to [{msg_string}] *)
  br_close : string;        (* and after it *)
  br_collect : option (addr_list * collected);
  br_step : option nat;     (* [pos += k]; [None] for [pos += n] *)
  br_break : bool
}.

Inductive arm : Type :=
| arm_msg (b : branch)
| arm_unk (s : string) (k : nat)   (* appends a fixed record, [pos += k] *)
| arm_else.                        (* [pos += 1] *)

(** Comparison of [bytes] objects: lexicographic on the byte values. *)
Fixpoint bytes_eqb (a b : list byte) : bool :=
  match a, b with
  | [], [] => true
  | x :: a', y :: b' => (byte_val x =? byte_val y) && bytes_eqb a' b'
  | _, _ => false
  end.

Fixpoint bytes_leb (a b : list byte) : bool :=
  match a, b with
  | [], _ => true
  | _ :: _, [] => false
  | x :: a', y :: b' =>
      if byte_val x <? byte_val y then true
      else if byte_val x =? byte_val y then bytes_leb a' b'
      else false
  end.

Definition is_byte (byte : list byte) (b : Byte.byte) : bool :=
  bytes_eqb byte [b].

Definition in_bytes (byte : list byte) (lo hi : Byte.byte) : bool :=
  bytes_leb [lo] byte && bytes_leb byte [hi].

Definition PARSE_SEQ_arm (version : SeqVersion) (byte : list byte) : arm :=
  if is_byte byte xff then
    arm_msg (mkbranch BY_READ_MSG true "  end             " "" None (Some 0%nat) true)
  else if is_byte byte xfe then
    arm_msg (mkbranch BY_READ_MSG true "  delay1          " "" None (Some 1%nat) false)
  else if is_byte byte xfd then
    arm_msg (mkbranch BY_READ_ARGVAR true "  delay           " "" None None false)
  else if is_byte byte xfc then
    arm_msg (mkbranch BY_READ_U16 true "  call            " "" None (Some 3%nat) false)
  else if is_byte byte xfb then
    arm_msg (mkbranch BY_READ_U16 true "  jump            " "" None (Some 3%nat) false)
  else if is_byte byte xfa then
    arm_msg (mkbranch BY_READ_U16 true (YELLOW ++ "  eqjump          ") RESET (Some (EQJUMP, the_addr)) (Some 3%nat) false)
  else if is_byte byte xf9 then
    arm_msg (mkbranch BY_READ_U16 true (YELLOW ++ "  ltjump          ") RESET (Some (LTJUMP, the_addr)) (Some 3%nat) false)
  else if is_byte byte xf8 then
    arm_msg (mkbranch BY_READ_U8 true "  loop            " "" None (Some 2%nat) false)
  else if is_byte byte xf7 then
    arm_msg (mkbranch BY_READ_MSG true "  loopend         " "" None (Some 1%nat) false)
  else if is_byte byte xf6 then
    arm_msg (mkbranch BY_READ_MSG true "  loopbreak       " "" None (Some 1%nat) false)
  else if is_byte byte xf5 then
    arm_msg (mkbranch BY_READ_U16 true (YELLOW ++ "  gteqjump        ") RESET (Some (GTEQJUMP, the_addr)) (Some 3%nat) false)
  else if is_byte byte xf4 then
    arm_msg (mkbranch BY_READ_U8 true "  rjump           " "" None (Some 2%nat) false)
  else if is_byte byte xf3 then
    arm_msg (mkbranch BY_READ_U8 true (YELLOW ++ "  reqjump         ") RESET (Some (REQJUMP, the_addr)) (Some 2%nat) false)
  else if is_byte byte xf2 then
    arm_msg (mkbranch BY_READ_U8 true (YELLOW ++ "  rltjump         ") RESET (Some (RLTJUMP, the_addr)) (Some 2%nat) false)
  else if is_byte byte xf1 then
    arm_msg (mkbranch BY_READ_U8 true "  reservenotes    " "" None (Some 2%nat) false)
  else if is_byte byte xf0 then
    arm_msg (mkbranch BY_READ_U8 true "  releasenotes    " "" None (Some 2%nat) false)
  else if is_byte byte xef then
    arm_msg (mkbranch BY_READ_S16_U8 true "  print3          " "" None (Some 4%nat) false)
  else if is_byte byte xdf then
    arm_msg (mkbranch BY_READ_U8 true "  transpose       " "" None (Some 2%nat) false)
  else if is_byte byte xde then
    arm_msg (mkbranch BY_READ_U8 true "  rtranspose      " "" None (Some 2%nat) false)
  else if is_byte byte xdd then
    arm_msg (mkbranch BY_READ_U8 true "  tempo           " "" None (Some 2%nat) false)
  else if is_byte byte xdc then
    arm_msg (mkbranch BY_READ_U8 true "  addtempo        " "" None (Some 2%nat) false)
  else if is_byte byte xdb then
    arm_msg (mkbranch BY_READ_U8 true (PINK_218 ++ "  mstrvol         ") RESET (Some (MSTR_VOL, the_arg_addr)) (Some 2%nat) false)
  else if is_byte byte xda then
    arm_msg (mkbranch BY_READ_U8_U16 false "  fade            " "" None (Some 3%nat) false)
  else if is_byte byte xd9 then
    arm_msg (mkbranch BY_READ_U8 true "  mstrexpression  " "" None (Some 2%nat) false)
  else if is_byte byte xd7 then
    arm_msg (mkbranch BY_READ_U16 true "  enablechan      " "" None (Some 3%nat) false)
  else if is_byte byte xd6 then
    arm_msg (mkbranch BY_READ_U16 true "  disablechan     " "" None (Some 3%nat) false)
  else if is_byte byte xd5 then
    arm_msg (mkbranch BY_READ_U8 true "  mutescale       " "" None (Some 2%nat) false)
  else if is_byte byte xd4 then
    arm_msg (mkbranch BY_READ_MSG true "  mute            " "" None (Some 1%nat) false)
  else if is_byte byte xd3 then
    arm_msg (mkbranch BY_READ_U8 true "  mutebhv         " "" None (Some 2%nat) false)
  else if is_byte byte xd2 then
    arm_msg (mkbranch BY_READ_U16 true "  loadshortvel    " "" None (Some 3%nat) false)
  else if is_byte byte xd1 then
    arm_msg (mkbranch BY_READ_U16 true "  loadshortgate   " "" None (Some 3%nat) false)
  else if is_byte byte xd0 then
    arm_msg (mkbranch BY_READ_U8 true "  notealloc       " "" None (Some 2%nat) false)
  else if is_byte byte xce then
    arm_msg (mkbranch BY_READ_U8 true "  rand            " "" None (Some 2%nat) false)
  else if is_byte byte xcd then
    arm_msg (mkbranch BY_READ_U16 true "  dyncall         " "" None (Some 3%nat) false)
  else if is_byte byte xcc then
    arm_msg (mkbranch BY_READ_U8 true "  load            " "" None (Some 2%nat) false)
  else if is_byte byte xc9 then
    arm_msg (mkbranch BY_READ_U8 true "  and             " "" None (Some 2%nat) false)
  else if is_byte byte xc8 then
    arm_msg (mkbranch BY_READ_U8 true "  sub             " "" None (Some 2%nat) false)
  else if is_byte byte xc7 then
    arm_msg (mkbranch BY_READ_U8_U16 true "  storeseq        " "" None (Some 4%nat) false)
  else if is_byte byte xc6 then
    arm_msg (mkbranch BY_READ_MSG true "  stop            " "" None (Some 1%nat) false)
  else if is_byte byte xc5 then
    arm_msg (mkbranch BY_READ_U16 true "  scriptctr        " "" None (Some 3%nat) false)
  else if is_byte byte xc4 then
    arm_msg (mkbranch BY_READ_U8x2 true "  callseq         " "" None (Some 3%nat) false)
  else if is_byte byte xc3 && SeqVersion_eqb version MM then
    arm_msg (mkbranch BY_READ_U16 true "  mutechan         " "" None (Some 3%nat) false)
  else if is_byte byte xc2 && SeqVersion_eqb version MM then arm_unk "  unk_msg           @???? ?? ?? ??" 3%nat
  else if in_bytes byte x00 x0f then
    arm_msg (mkbranch BY_READ_MSG true "  testchan        " "" None (Some 1%nat) false)
  else if in_bytes byte x40 x4f then
    arm_msg (mkbranch BY_READ_MSG true "  stopchan        " "" None (Some 1%nat) false)
  else if in_bytes byte x50 x5f then
    arm_msg (mkbranch BY_READ_MSG true "  subio           " "" None (Some 1%nat) false)
  else if in_bytes byte x60 x6f then
    arm_msg (mkbranch BY_READ_U8x2 true "  loadres         " "" None (Some 3%nat) false)
  else if in_bytes byte x70 x7f then
    arm_msg (mkbranch BY_READ_MSG true "  storeio         " "" None (Some 1%nat) false)
  else if in_bytes byte x80 x8f then
    arm_msg (mkbranch BY_READ_MSG true "  loadio          " "" None (Some 1%nat) false)
  else if in_bytes byte x90 x9f then
    arm_msg (mkbranch BY_READ_U16 true "  loadchan        " "" None (Some 3%nat) false)
  else if in_bytes byte xa0 xaf then
    arm_msg (mkbranch BY_READ_U16 true "  rloadchan       " "" None (Some 3%nat) false)
  else if in_bytes byte xb0 xbf then
    arm_msg (mkbranch BY_READ_U8_U16 true "  loadseq         " "" None (Some 4%nat) false)
  else arm_else.

(** What a reader hands back, in one shape: the message, how far it says to
    move (the fixed readers do not say), and the argument addresses. *)
Definition OLD_READER_call (r : OLD_READER) (addr : nat)
  : M (list Z * option nat * list nat) :=
  match r with
  | BY_READ_MSG =>
      m <- READ_MSG addr ;; ret (m, None, [])
  | BY_READ_ARGVAR =>
      bs <- readM 1 ;;
      let arglen := from_bytes bs in
      r <- READ_ARGVAR addr arglen ;;
      let '(m, n, a) := r in ret (m, Some n, [a])
  | BY_READ_U8 =>
      r <- READ_U8 addr ;; let '(m, a) := r in ret (m, None, [a])
  | BY_READ_U8x2 =>
      r <- READ_U8x2 addr ;; let '(m, a1, a2) := r in ret (m, None, [a1; a2])
  | BY_READ_U8_U16 =>
      r <- READ_U8_U16 addr ;; let '(m, a1, a2) := r in ret (m, None, [a1; a2])
  | BY_READ_U16 =>
      r <- READ_U16 addr ;; let '(m, a) := r in ret (m, None, [a])
  | BY_READ_S16_U8 =>
      r <- READ_S16_U8 addr ;; let '(m, a1, a2) := r in ret (m, None, [a1; a2])
  end.

Definition PARSE_SEQ_branch (b : branch) (st : pstate) : flow :=
  let seq := st_seq st in
  let addr := (tell seq - 1)%nat in
  match OLD_READER_call (br_read b) addr seq with
  | (Raise e, seq') => Throw e (mkpstate seq' (st_pos st) (st_G st))
  | (Ok (m, n, arg_addrs), seq') =>
      let shown := if br_msg_shown b then m else tl m in
      let msg_string := GET_MSG_STRING (Z.of_nat addr) (hd 0 shown) (tl shown) in
      let msg_string := br_open b ++ msg_string ++ br_close b in
      let g := output_append msg_string (st_G st) in
      let g := match br_collect b with
               | Some (l, the_addr) => addr_append l addr g
               | Some (l, the_arg_addr) => addr_append l (hd O arg_addrs) g
               | None => g
               end in
      if br_break b then Break (mkpstate seq' (st_pos st) g)
      else
        let k := match br_step b with
                 | Some k => k
                 | None => match n with Some n => n | None => O end
                 end in
        Next (mkpstate seq' (st_pos st + k) g)
  end.

(** The loop body: [SEEK_ADDR(seq, pos)], [byte = seq.read(1)], the chain. *)
Definition PARSE_SEQ_body (version : SeqVersion) (st : pstate) : flow :=
  let '(byte, seq) := read (seek (st_seq st) (st_pos st)) 1 in
  let st := mkpstate seq (st_pos st) (st_G st) in
  match PARSE_SEQ_arm version byte with
  | arm_msg b => PARSE_SEQ_branch b st
  | arm_unk s k => Next (mkpstate seq (st_pos st + k) (output_append s (st_G st)))
  | arm_else => Next (mkpstate seq (st_pos st + 1) (st_G st))
  end.

(** [while (byte := seq.read(1)): body] *)
Fixpoint PARSE_SEQ_loop (fuel : nat) (version : SeqVersion) (st : pstate)
  : outcome * pstate :=
  match fuel with
  | O => (OutOfFuel, st)
  | S fuel' =>
      let '(byte, seq) := read (st_seq st) 1 in
      let st := mkpstate seq (st_pos st) (st_G st) in
      match byte with
      | [] => (Exhausted, st)
      | _ :: _ =>
          match PARSE_SEQ_body version st with
          | Next st' => PARSE_SEQ_loop fuel' version st'
          | Break st' => (Ended, st')
          | Throw e st' => (Raised e, st')
          end
      end
  end.

(** [PARSE_SEQ(self, seq, version)] with [self.pos = 0] as [__init__] left
    it.  Every pass of the loop moves [pos] forward and the loop stops once
    the file is exhausted, so three passes more than the file has bytes
    are never all used (see [PARSE_SEQ_terminates]). *)
Definition PARSE_SEQ (version : SeqVersion) (seq : file) (g : globals)
  : outcome * pstate :=
  let pos := O in
  let '(byte, seq) := read seq 1 in
  PARSE_SEQ_loop (length (data seq) + 3) version (mkpstate seq pos g).

(** *** [ArgParser] *)

Definition CHECK_INPUT (value : volume) : result (list byte) :=
  match value with
  | VFloat value =>
      match math_ceil (PrimFloat.mul (PrimFloat.div value 100) 127) with
      | Ok result => to_bytes1 result
      | Raise e => Raise e
      end
  | VInt value => to_bytes1 value
  end.

(** [CONVERT_INPUT(manual_vol)]: whatever goes wrong inside is swallowed by
    the bare [except] and the function returns [None]. *)
Definition CONVERT_INPUT (manual_vol : line) : option (list byte) :=
  match manual_vol with
  | L_value (Percent percent) =>
      match math_ceil (PrimFloat.mul (PrimFloat.div percent 100) 127) with
      | Ok percent =>
          match to_bytes1 percent with Ok b => Some b | Raise _ => None end
      | Raise _ => None
      end
  | L_value (Plain z) =>
      match to_bytes1 z with Ok b => Some b | Raise _ => None end
  | _ => None
  end.

(** *** Editing *)

Fixpoint AUTO_SEQ_EDIT_for (ARG_PARSER : ArgParser) (addrs : list nat)
  (seq : file) : finish * file :=
  match addrs with
  | [] => (Done, seq)
  | addr :: rest =>
      match CHECK_INPUT (value ARG_PARSER) with
      | Raise e => (Failed e, seq)
      | Ok input_vol =>
          AUTO_SEQ_EDIT_for ARG_PARSER rest (snd (WRITE_BIN addr input_vol seq))
      end
  end.

Definition AUTO_SEQ_EDIT (ARG_PARSER : ArgParser) (g : globals) (seq : file)
  : finish * file :=
  AUTO_SEQ_EDIT_for ARG_PARSER (MSTR_VOL_ADDR g) seq.

(** The inner [while] of [MANUAL_SEQ_EDIT] for one address: lines are read
    until one converts; [exit] leaves the process. *)
Fixpoint MANUAL_SEQ_EDIT_prompt (addr : nat) (stdin : list line) (seq : file)
  : finish * file * list line :=
  match stdin with
  | [] => (Failed EOFError, seq, [])
  | manual_vol :: stdin' =>
      match manual_vol with
      | L_exit => (Exit, seq, stdin')
      | _ =>
          match CONVERT_INPUT manual_vol with
          | Some input_vol => (Done, snd (WRITE_BIN addr input_vol seq), stdin')
          | None => MANUAL_SEQ_EDIT_prompt addr stdin' seq
          end
      end
  end.

Fixpoint MANUAL_SEQ_EDIT_for (addrs : list nat) (stdin : list line) (seq : file)
  : finish * file * list line :=
  match addrs with
  | [] => (Done, seq, stdin)
  | addr :: rest =>
      match MANUAL_SEQ_EDIT_prompt addr stdin seq with
      | (Done, seq', stdin') => MANUAL_SEQ_EDIT_for rest stdin' seq'
      | stop => stop
      end
  end.

Definition MANUAL_SEQ_EDIT (g : globals) (stdin : list line) (seq : file)
  : finish * file * list line :=
  MANUAL_SEQ_EDIT_for (MSTR_VOL_ADDR g) stdin seq.

(** The prompt of [main] when several volume messages were found. *)
Fixpoint main_answer (ARG_PARSER : ArgParser) (g : globals)
  (stdin : list line) (seq : file) : finish * file * list line :=
  match stdin with
  | [] => (Failed EOFError, seq, [])
  | answer :: stdin' =>
      match answer with
      | L_auto =>
          let '(fin, seq') := AUTO_SEQ_EDIT ARG_PARSER g seq in (fin, seq', stdin')
      | L_manual => MANUAL_SEQ_EDIT g stdin' seq
      | L_exit | L_Exit => (Exit, seq, stdin')
      | _ => main_answer ARG_PARSER g stdin' seq
      end
  end.

(** The part of [main] under the banner WRITE TO BIN: the volume messages,
    then the jumps. *)
Definition main_write (ARG_PARSER : ArgParser) (g : globals)
  (stdin : list line) (seq : file) : finish * file :=
  let '(fin, seq, stdin) :=
    if (1 <? length (MSTR_VOL_ADDR g))%nat then main_answer ARG_PARSER g stdin seq
    else match MSTR_VOL_ADDR g with
         | _ :: _ =>
             let '(fin, seq') := AUTO_SEQ_EDIT ARG_PARSER g seq in (fin, seq', stdin)
         | [] => (Done, seq, stdin)
         end in
  match fin with
  | Done =>
      if fix_jumps ARG_PARSER then
        let seq := fix_each FIX_JUMP (EQJUMP_ADDR g) seq in
        let seq := fix_each FIX_JUMP (LTJUMP_ADDR g) seq in
        let seq := fix_each FIX_JUMP (GTEQJUMP_ADDR g) seq in
        let seq := fix_each FIX_JUMP (REQJUMP_ADDR g) seq in
        let seq := fix_each FIX_JUMP (RLTJUMP_ADDR g) seq in
        (Done, seq)
      else (Done, seq)
  | _ => (fin, seq)
  end.

(** [main()]: open the file, decode it, edit it.  The decoder runs in a
    thread of its own, so an exception raised there ends the thread and not
    [main], which goes on with the lists as the decoder left them. *)
Definition main (ARG_PARSER : ArgParser) (stdin : list line)
  (contents : list byte) (g : globals) : finish * file * globals :=
  let seq := open contents in
  let '(_, st) := PARSE_SEQ (game_version ARG_PARSER) seq g in
  let '(fin, seq) := main_write ARG_PARSER (st_G st) stdin (st_seq st) in
  (fin, seq, st_G st).

End V02.

(* ===================================================================== *)
(** ** The later implementation (version 2025.04.24) *)
(* ===================================================================== *)

Module V04.

(** The size tags ['u8'], ['u16'], ['s16'] of an argument. *)
Inductive argsize : Type := u8 | u16 | s16.

Record MessageData : Type := mkMessageData {
  arg_addr_1 : option nat;
  arg_addr_2 : option nat;
  msg_byte : Z;
  arg_1 : option (Z * argsize);
  arg_2 : option (Z * argsize);
  pos : nat
}.

(** The dataclass defaults, for the fields a call leaves out. *)
Definition MessageData_default : MessageData :=
  mkMessageData None None 0xFF None None 2.

Definition format_addr (addr : Z) : string :=
  last_chars 5 ("@" ++ fmt_X 4 addr).

Definition format_args (args : list (option (Z * argsize))) : string :=
  join_sp
    (flat_map (fun arg =>
       match arg with
       | None => []
       | Some (val, size) =>
           [match size with
            | u16 | s16 => fmt_X 4 val
            | u8 => fmt_X 2 val
            end]
       end) args).

Definition get_msg_string (addr : Z) (msg : option Z)
  (args : list (option (Z * argsize))) : string :=
  match msg with
  | None => "  unk_msg           @???? ?? ?? ??"
  | Some msg =>
      let hex_addr := format_addr addr in
      let hex_msg := fmt_X 2 msg in
      let hex_args := format_args args in
      let spacing := match hex_args with EmptyString => "" | _ => " " end in
      upper (hex_addr ++ ": " ++ hex_msg ++ spacing ++ hex_args)
  end.

Definition seek_addr (addr : nat) : M unit := seekM addr.

Definition read_msg (offset : nat) : M MessageData :=
  seek_addr offset ;;;
  bs <- readM 1 ;;
  data <- lift (unpack [B] bs) ;;
  ret (mkMessageData None None (item data 0) None None 2).

Definition read_argvar (offset : nat) (arglen : Z) : M MessageData :=
  seek_addr offset ;;;
  c <- tellM ;;
  let arg_addr := (c + 1)%nat in
  if negb (Z.land arglen 0x80 =? 0) then
    bs <- readM 3 ;;
    data <- lift (unpack [B; H] bs) ;;
    ret (mkMessageData (Some arg_addr) None (item data 0)
           (Some (item data 1, u16)) None 3)
  else
    bs <- readM 2 ;;
    data <- lift (unpack [B; B] bs) ;;
    ret (mkMessageData (Some arg_addr) None (item data 0)
           (Some (item data 1, u8)) None 2).

Definition read_u8 (offset : nat) : M MessageData :=
  seek_addr offset ;;;
  c <- tellM ;;
  let arg_addr := (c + 1)%nat in
  bs <- readM 2 ;;
  data <- lift (unpack [B; B] bs) ;;
  ret (mkMessageData (Some arg_addr) None (item data 0)
         (Some (item data 1, u8)) None 2).

Definition read_u8x2 (offset : nat) : M MessageData :=
  seek_addr offset ;;;
  c <- tellM ;;
  let arg_addr1 := (c + 1)%nat in
  let arg_addr2 := (c + 2)%nat in
  bs <- readM 3 ;;
  data <- lift (unpack [B; B; B] bs) ;;
  ret (mkMessageData (Some arg_addr1) (Some arg_addr2) (item data 0)
         (Some (item data 1, u8)) (Some (item data 2, u8)) 2).

Definition read_u8_u16 (offset : nat) : M MessageData :=
  seek_addr offset ;;;
  c <- tellM ;;
  let arg_addr1 := (c + 1)%nat in
  let arg_addr2 := (c + 2)%nat in
  bs <- readM 4 ;;
  data <- lift (unpack [B; B; H] bs) ;;
  ret (mkMessageData (Some arg_addr1) (Some arg_addr2) (item data 0)
         (Some (item data 1, u8)) (Some (item data 2, u16)) 2).

Definition read_u16 (offset : nat) : M MessageData :=
  seek_addr offset ;;;
  c <- tellM ;;
  let arg_addr := (c + 1)%nat in
  bs <- readM 3 ;;
  data <- lift (unpack [B; H] bs) ;;
  ret (mkMessageData (Some arg_addr) None (item data 0)
         (Some (item data 1, u16)) None 2).

Definition read_s16_u8 (offset : nat) : M MessageData :=
  seek_addr offset ;;;
  c <- tellM ;;
  let arg_addr1 := (c + 1)%nat in
  let arg_addr2 := (c + 3)%nat in
  bs <- readM 4 ;;
  data <- lift (unpack [B; H; B] bs) ;;
  ret (mkMessageData (Some arg_addr1) (Some arg_addr2) (item data 0)
         (Some (item data 1, s16)) (Some (item data 2, u8)) 2).

Definition write_bin (addr : nat) (value : list byte) : M unit :=
  seekM addr ;;; writeM value.

Definition fix_jump (addr : nat) : M unit :=
  seekM addr ;;;
  let b := [xfb] in
  writeM b.

Definition fix_rjump (addr : nat) : M unit :=
  seekM addr ;;;
  let b := [xf4] in
  writeM b.

(** *** The message table *)

(** The callables stored in the [read_func] field: the readers above, and
    the one [lambda seq, addr: (None,)]. *)
Inductive callable : Type :=
| the_read_msg | the_read_argvar | the_read_u8 | the_read_u8x2
| the_read_u8_u16 | the_read_u16 | the_read_s16_u8 | the_lambda_tuple.

Definition callable_eqb (f g : callable) : bool :=
  match f, g with
  | the_read_msg, the_read_msg | the_read_argvar, the_read_argvar
  | the_read_u8, the_read_u8 | the_read_u8x2, the_read_u8x2
  | the_read_u8_u16, the_read_u8_u16 | the_read_u16, the_read_u16
  | the_read_s16_u8, the_read_s16_u8 | the_lambda_tuple, the_lambda_tuple => true
  | _, _ => false
  end.

Record SeqMessage : Type := mkSeqMessage {
  name : string;
  read_func : callable;
  byte_size : option nat;
  color : option string;
  extra_output_list : option addr_list;
  version_check : option SeqVersion
}.

(** [i in range(lo, hi)] *)
Definition in_range (i lo hi : Z) : bool := (lo <=? i) && (i <? hi).

(** The dict [SEQ_MESSAGES] as its lookup [SEQ_MESSAGES.get(opcode)]: the
    single keys, then the keys the comprehensions add (no key occurs
    twice). *)
Definition SEQ_MESSAGES (opcode : Z) : option SeqMessage :=
  match opcode with
  | 0xFF => Some (mkSeqMessage "end" the_read_msg (Some 1%nat) None None None)
  | 0xFE => Some (mkSeqMessage "delay1" the_read_msg (Some 1%nat) None None None)
  | 0xFD => Some (mkSeqMessage "delay" the_read_argvar None None None None)
  | 0xFC => Some (mkSeqMessage "call" the_read_u16 (Some 3%nat) None None None)
  | 0xFB => Some (mkSeqMessage "jump" the_read_u16 (Some 3%nat) None None None)
  | 0xFA => Some (mkSeqMessage "eqjump" the_read_u16 (Some 3%nat) (Some YELLOW) (Some EQJUMP) None)
  | 0xF9 => Some (mkSeqMessage "ltjump" the_read_u16 (Some 3%nat) (Some YELLOW) (Some LTJUMP) None)
  | 0xF8 => Some (mkSeqMessage "loop" the_read_u8 (Some 2%nat) None None None)
  | 0xF7 => Some (mkSeqMessage "loopend" the_read_msg (Some 1%nat) None None None)
  | 0xF6 => Some (mkSeqMessage "loopbreak" the_read_msg (Some 1%nat) None None None)
  | 0xF5 => Some (mkSeqMessage "gteqjump" the_read_u16 (Some 3%nat) (Some YELLOW) (Some GTEQJUMP) None)
  | 0xF4 => Some (mkSeqMessage "rjump" the_read_u8 (Some 2%nat) None None None)
  | 0xF3 => Some (mkSeqMessage "reqjump" the_read_u8 (Some 2%nat) (Some YELLOW) (Some REQJUMP) None)
  | 0xF2 => Some (mkSeqMessage "rltjump" the_read_u8 (Some 2%nat) (Some YELLOW) (Some RLTJUMP) None)
  | 0xF1 => Some (mkSeqMessage "reservenotes" the_read_u8 (Some 2%nat) None None None)
  | 0xF0 => Some (mkSeqMessage "releasenotes" the_read_u8 (Some 2%nat) None None None)
  | 0xEF => Some (mkSeqMessage "print3" the_read_s16_u8 (Some 4%nat) None None None)
  | 0xDF => Some (mkSeqMessage "transpose" the_read_u8 (Some 2%nat) None None None)
  | 0xDE => Some (mkSeqMessage "rtranspose" the_read_u8 (Some 2%nat) None None None)
  | 0xDD => Some (mkSeqMessage "tempo" the_read_u8 (Some 2%nat) None None None)
  | 0xDC => Some (mkSeqMessage "addtempo" the_read_u8 (Some 2%nat) None None None)
  | 0xDB => Some (mkSeqMessage "mstrvol" the_read_u8 (Some 2%nat) (Some PINK_218) (Some MSTR_VOL) None)
  | 0xDA => Some (mkSeqMessage "fade" the_read_u8_u16 (Some 4%nat) None None None)
  | 0xD9 => Some (mkSeqMessage "mstrexpression" the_read_u8 (Some 2%nat) None None None)
  | 0xD7 => Some (mkSeqMessage "enablechan" the_read_u16 (Some 3%nat) None None None)
  | 0xD6 => Some (mkSeqMessage "disablechan" the_read_u16 (Some 3%nat) None None None)
  | 0xD5 => Some (mkSeqMessage "mutescale" the_read_u8 (Some 2%nat) None None None)
  | 0xD4 => Some (mkSeqMessage "mute" the_read_msg (Some 1%nat) None None None)
  | 0xD3 => Some (mkSeqMessage "mutebhv" the_read_u8 (Some 2%nat) None None None)
  | 0xD2 => Some (mkSeqMessage "loadshortvel" the_read_u16 (Some 3%nat) None None None)
  | 0xD1 => Some (mkSeqMessage "loadshortgate" the_read_u16 (Some 3%nat) None None None)
  | 0xD0 => Some (mkSeqMessage "notealloc" the_read_u8 (Some 2%nat) None None None)
  | 0xCE => Some (mkSeqMessage "rand" the_read_u8 (Some 2%nat) None None None)
  | 0xCD => Some (mkSeqMessage "dyncall" the_read_u16 (Some 3%nat) None None None)
  | 0xCC => Some (mkSeqMessage "load" the_read_u8 (Some 2%nat) None None None)
  | 0xC9 => Some (mkSeqMessage "and" the_read_u8 (Some 2%nat) None None None)
  | 0xC8 => Some (mkSeqMessage "sub" the_read_u8 (Some 2%nat) None None None)
  | 0xC7 => Some (mkSeqMessage "storeseq" the_read_u8_u16 (Some 4%nat) None None None)
  | 0xC6 => Some (mkSeqMessage "stop" the_read_msg (Some 1%nat) None None None)
  | 0xC5 => Some (mkSeqMessage "scriptctr" the_read_u16 (Some 3%nat) None None None)
  | 0xC4 => Some (mkSeqMessage "callseq" the_read_u8x2 (Some 3%nat) None None None)
  | 0xC3 => Some (mkSeqMessage "mutechan" the_read_u16 (Some 3%nat) None None (Some MM))
  | 0xC2 => Some (mkSeqMessage "unk_msg" the_lambda_tuple (Some 3%nat) None None (Some MM))
  | i =>
      if in_range i 0x00 0x10 then Some (mkSeqMessage "testchan" the_read_msg (Some 1%nat) None None None)
      else if in_range i 0x40 0x50 then Some (mkSeqMessage "stopchan" the_read_msg (Some 1%nat) None None None)
      else if in_range i 0x50 0x60 then Some (mkSeqMessage "subio" the_read_msg (Some 1%nat) None None None)
      else if in_range i 0x60 0x70 then Some (mkSeqMessage "loadres" the_read_u8x2 (Some 3%nat) None None None)
      else if in_range i 0x70 0x80 then Some (mkSeqMessage "storeio" the_read_msg (Some 1%nat) None None None)
      else if in_range i 0x80 0x90 then Some (mkSeqMessage "loadio" the_read_msg (Some 1%nat) None None None)
      else if in_range i 0x90 0xA0 then Some (mkSeqMessage "loadchan" the_read_u16 (Some 3%nat) None None None)
      else if in_range i 0xA0 0xB0 then Some (mkSeqMessage "rloadchan" the_read_u16 (Some 3%nat) None None None)
      else if in_range i 0xB0 0xC0 then Some (mkSeqMessage "loadseq" the_read_u8_u16 (Some 4%nat) None None None)
      else None
  end.

(** What a call through [read_func] returns. *)
Inductive returned : Type :=
| a_MessageData (m : MessageData)
| a_tuple.

Definition call (f : callable) (pos : nat) (arglen : Z) : M returned :=
  match f with
  | the_read_msg => m <- read_msg pos ;; ret (a_MessageData m)
  | the_read_argvar => m <- read_argvar pos arglen ;; ret (a_MessageData m)
  | the_read_u8 => m <- read_u8 pos ;; ret (a_MessageData m)
  | the_read_u8x2 => m <- read_u8x2 pos ;; ret (a_MessageData m)
  | the_read_u8_u16 => m <- read_u8_u16 pos ;; ret (a_MessageData m)
  | the_read_u16 => m <- read_u16 pos ;; ret (a_MessageData m)
  | the_read_s16_u8 => m <- read_s16_u8 pos ;; ret (a_MessageData m)
  | the_lambda_tuple => ret a_tuple
  end.

(** *** [SeqParser.parse_seq] *)

(** The loop body, entered with the byte the loop condition has just read.
    The appended address is [arg_addr_1]; every table entry that names a
    list uses a reader that sets it. *)
Definition parse_seq_body (version : SeqVersion) (byte : list byte)
  (st : pstate) : flow :=
  let seq := st_seq st in
  let g := st_G st in
  let pos := (tell seq - 1)%nat in
  let opcode := match byte with b :: _ => byte_val b | [] => 0 end in
  match SEQ_MESSAGES opcode with
  | None => Next (mkpstate seq pos g)
  | Some msg =>
      if match version_check msg with
         | Some v => negb (SeqVersion_eqb v version)
         | None => false
         end
      then Next (mkpstate seq pos g)
      else
        let call_it : M returned :=
          seekM (pos + 1) ;;;
          bs <- readM 1 ;;
          arglen <- lift (ord bs) ;;
          call (read_func msg) pos arglen in
        match call_it seq with
        | (Raise e, seq') => Throw e (mkpstate seq' pos g)
        | (Ok a_tuple, seq') => Throw AttributeError (mkpstate seq' pos g)
        | (Ok (a_MessageData msg_data), seq') =>
            let msg_string :=
              match arg_2 msg_data with
              | Some _ =>
                  get_msg_string (Z.of_nat pos) (Some opcode)
                    [arg_1 msg_data; arg_2 msg_data]
              | None =>
                  get_msg_string (Z.of_nat pos) (Some opcode) [arg_1 msg_data]
              end in
            let color_prefix :=
              match color msg with Some c => c ++ "  " | None => "  " end in
            let msg_string :=
              color_prefix ++ ljust 16 (name msg) ++ msg_string
              ++ match color msg with Some _ => RESET | None => "" end in
            let g := output_append msg_string g in
            let g :=
              match extra_output_list msg with
              | Some l =>
                  let g := match arg_addr_1 msg_data with
                           | Some a => addr_append l a g
                           | None => g
                           end in
                  match arg_addr_2 msg_data with
                  | Some (S a) => addr_append l (S a) g
                  | _ => g
                  end
              | None => g
              end in
            if opcode =? 0xFF then Break (mkpstate seq' pos g)
            else
              let k := match byte_size msg with
                       | Some k => k
                       | None => V04.pos msg_data
                       end in
              Next (mkpstate seq' (pos + k) g)
        end
  end.

(** [while (byte := seq.read(1)): body] *)
Fixpoint parse_seq_loop (fuel : nat) (version : SeqVersion) (st : pstate)
  : outcome * pstate :=
  match fuel with
  | O => (OutOfFuel, st)
  | S fuel' =>
      let '(byte, seq) := read (st_seq st) 1 in
      let st := mkpstate seq (st_pos st) (st_G st) in
      match byte with
      | [] => (Exhausted, st)
      | _ :: _ =>
          match parse_seq_body version byte st with
          | Next st' => parse_seq_loop fuel' version st'
          | Break st' => (Ended, st')
          | Throw e st' => (Raised e, st')
          end
      end
  end.

(** [parse_seq(self, seq, version)] with [self.pos = 0].  Every pass of the
    loop consumes at least the byte its condition read, so one pass more
    than the file has bytes is never used (see [parse_seq_terminates]). *)
Definition parse_seq (version : SeqVersion) (seq : file) (g : globals)
  : outcome * pstate :=
  let pos := O in
  let '(byte, seq) := read seq 1 in
  parse_seq_loop (length (data seq) + 1) version (mkpstate seq pos g).

(** *** [ArgParser] *)

Definition check_input (value : volume) : result (list byte) :=
  match value with
  | VFloat value =>
      match math_ceil (PrimFloat.mul (PrimFloat.div value 100) 127) with
      | Ok result => to_bytes1 result
      | Raise e => Raise e
      end
  | VInt value => to_bytes1 value
  end.

Definition convert_input (manual_vol : line) : option (list byte) :=
  match manual_vol with
  | L_value (Percent percent) =>
      match math_ceil (PrimFloat.mul (PrimFloat.div percent 100) 127) with
      | Ok percent =>
          match to_bytes1 percent with Ok b => Some b | Raise _ => None end
      | Raise _ => None
      end
  | L_value (Plain z) =>
      match to_bytes1 z with Ok b => Some b | Raise _ => None end
  | _ => None
  end.

(** *** Editing *)

Fixpoint auto_seq_edit_for (ARG_PARSER : ArgParser) (addrs : list nat)
  (seq : file) : finish * file :=
  match addrs with
  | [] => (Done, seq)
  | addr :: rest =>
      match check_input (value ARG_PARSER) with
      | Raise e => (Failed e, seq)
      | Ok input_vol =>
          auto_seq_edit_for ARG_PARSER rest (snd (write_bin addr input_vol seq))
      end
  end.

Definition auto_seq_edit (ARG_PARSER : ArgParser) (g : globals) (seq : file)
  : finish * file :=
  auto_seq_edit_for ARG_PARSER (MSTR_VOL_ADDR g) seq.

Fixpoint manual_seq_edit_prompt (addr : nat) (stdin : list line) (seq : file)
  : finish * file * list line :=
  match stdin with
  | [] => (Failed EOFError, seq, [])
  | manual_vol :: stdin' =>
      match manual_vol with
      | L_exit => (Exit, seq, stdin')
      | _ =>
          match convert_input manual_vol with
          | Some input_vol => (Done, snd (write_bin addr input_vol seq), stdin')
          | None => manual_seq_edit_prompt addr stdin' seq
          end
      end
  end.

Fixpoint manual_seq_edit_for (addrs : list nat) (stdin : list line) (seq : file)
  : finish * file * list line :=
  match addrs with
  | [] => (Done, seq, stdin)
  | addr :: rest =>
      match manual_seq_edit_prompt addr stdin seq with
      | (Done, seq', stdin') => manual_seq_edit_for rest stdin' seq'
      | stop => stop
      end
  end.

Definition manual_seq_edit (g : globals) (stdin : list line) (seq : file)
  : finish * file * list line :=
  manual_seq_edit_for (MSTR_VOL_ADDR g) stdin seq.

Fixpoint main_answer (ARG_PARSER : ArgParser) (g : globals)
  (stdin : list line) (seq : file) : finish * file * list line :=
  match stdin with
  | [] => (Failed EOFError, seq, [])
  | answer :: stdin' =>
      match answer with
      | L_auto =>
          let '(fin, seq') := auto_seq_edit ARG_PARSER g seq in (fin, seq', stdin')
      | L_manual => manual_seq_edit g stdin' seq
      | L_exit | L_Exit => (Exit, seq, stdin')
      | _ => main_answer ARG_PARSER g stdin' seq
      end
  end.

(** The list [jump_types] of [main], without the labels it prints. *)
Definition jump_types (g : globals) : list (list nat * (nat -> M unit)) :=
  [ (EQJUMP_ADDR g, fix_jump);
    (LTJUMP_ADDR g, fix_jump);
    (GTEQJUMP_ADDR g, fix_jump);
    (REQJUMP_ADDR g, fix_rjump);
    (RLTJUMP_ADDR g, fix_rjump) ].

Definition main_write (ARG_PARSER : ArgParser) (g : globals)
  (stdin : list line) (seq : file) : finish * file :=
  let '(fin, seq, stdin) :=
    if (1 <? length (MSTR_VOL_ADDR g))%nat then main_answer ARG_PARSER g stdin seq
    else match MSTR_VOL_ADDR g with
         | _ :: _ =>
             let '(fin, seq') := auto_seq_edit ARG_PARSER g seq in (fin, seq', stdin)
         | [] => (Done, seq, stdin)
         end in
  match fin with
  | Done =>
      if fix_jumps ARG_PARSER then
        (Done,
         fold_left (fun seq '(addr_list, fix_func) => fix_each fix_func addr_list seq)
           (jump_types g) seq)
      else (Done, seq)
  | _ => (fin, seq)
  end.

Definition main (ARG_PARSER : ArgParser) (stdin : list line)
  (contents : list byte) (g : globals) : finish * file * globals :=
  let seq := open contents in
  let '(_, st) := parse_seq (game_version ARG_PARSER) seq g in
  let '(fin, seq) := main_write ARG_PARSER (st_G st) stdin (st_seq st) in
  (fin, seq, st_G st).

End V04.

(* ===================================================================== *)
(** ** Files: reading and patching *)
(* ===================================================================== *)

Section FileLemmas.

Variable d : list byte.

Lemma read_data (c n : nat) : data (snd (read (mkfile d c) n)) = d.
Proof. reflexivity. Qed.

Lemma read_1 (c : nat) (b : byte) :
  d !! c = Some b ->
  read (mkfile d c) 1 = ([b], mkfile d (c + 1)).
Proof.
  intros Hc. unfold read; simpl.
  rewrite (drop_S _ _ _ Hc). reflexivity.
Qed.

Lemma read_1_end (c : nat) :
  (length d <= c)%nat ->
  read (mkfile d c) 1 = ([], mkfile d (c + 0)).
Proof.
  intros Hc. unfold read; simpl.
  rewrite drop_ge by lia. reflexivity.
Qed.

Lemma read_2 (c : nat) (b0 b1 : byte) :
  d !! c = Some b0 -> d !! (c + 1)%nat = Some b1 ->
  read (mkfile d c) 2 = ([b0; b1], mkfile d (c + 2)).
Proof.
  intros H0 H1. unfold read; simpl.
  rewrite (drop_S _ _ _ H0).
  replace (S c) with (c + 1)%nat by lia.
  rewrite (drop_S _ _ _ H1). reflexivity.
Qed.

Lemma read_3 (c : nat) (b0 b1 b2 : byte) :
  d !! c = Some b0 -> d !! (c + 1)%nat = Some b1 ->
  d !! (c + 2)%nat = Some b2 ->
  read (mkfile d c) 3 = ([b0; b1; b2], mkfile d (c + 3)).
Proof.
  intros H0 H1 H2. unfold read; simpl.
  rewrite (drop_S _ _ _ H0).
  replace (S c) with (c + 1)%nat by lia.
  rewrite (drop_S _ _ _ H1).
  replace (S (c + 1)) with (c + 2)%nat by lia.
  rewrite (drop_S _ _ _ H2). reflexivity.
Qed.

End FileLemmas.

(** What it means for a file operation to patch one byte: the byte at
    [addr] becomes [v], every other byte stays, the length stays. *)
Definition patches (op : M unit) (seq : file) (addr : nat) (v : byte) : Prop :=
  let seq' := snd (op seq) in
  length (data seq') = length (data seq)
  /\ data seq' !! addr = Some v
  /\ forall i : nat, i <> addr -> data seq' !! i = data seq !! i.

Lemma seek_write_one (seq : file) (addr : nat) (v : byte) :
  (addr < length (data seq))%nat ->
  patches (seekM addr ;;; writeM [v]) seq addr v.
Proof.
  intros Hlt. unfold patches, bind, seekM, writeM, write, write_byte; simpl.
  destruct (Nat.ltb_spec addr (length (data seq))) as [_ | Hge]; [| lia].
  simpl. split; [| split].
  - apply length_insert.
  - apply list_lookup_insert_eq. exact Hlt.
  - intros i Hi. apply list_lookup_insert_ne. congruence.
Qed.

(** Past the end the same operation makes the file longer. *)
Lemma seek_write_grows (seq : file) (addr : nat) (v : byte) :
  (length (data seq) <= addr)%nat ->
  length (data (snd ((seekM addr ;;; writeM [v]) seq))) = S addr.
Proof.
  intros Hge. unfold bind, seekM, writeM, write, write_byte; simpl.
  destruct (Nat.ltb_spec addr (length (data seq))) as [Hlt | _]; [lia |].
  simpl. rewrite !length_app, length_replicate. simpl. lia.
Qed.

(** C8. For a valid address and a one-byte value, the patch operations
    (the volume write [WRITE_BIN]/[write_bin] and the jump rewrites
    [FIX_JUMP]/[FIX_RJUMP]/[fix_jump]/[fix_rjump]) change the byte at the
    address and nothing else: every other byte and the length of the file
    are as before. *)
Theorem patch_changes_only_addr (seq : file) (addr : nat) (v : byte) :
  (addr < length (data seq))%nat ->
  patches (V02.WRITE_BIN addr [v]) seq addr v
  /\ patches (V04.write_bin addr [v]) seq addr v
  /\ patches (V02.FIX_JUMP addr) seq addr xfb
  /\ patches (V02.FIX_RJUMP addr) seq addr xf4
  /\ patches (V04.fix_jump addr) seq addr xfb
  /\ patches (V04.fix_rjump addr) seq addr xf4.
Proof.
  intros Hlt.
  repeat split; try (apply seek_write_one; exact Hlt);
    intros i Hi; apply (seek_write_one seq addr _ Hlt); exact Hi.
Qed.

Lemma patch_changes_only_addr_witness :
  patches (V02.WRITE_BIN 1 [x7f]) (open [xdb; x40; xff]) 1 x7f
  /\ patches (V04.fix_rjump 0) (open [xf3; x05; xff]) 0 xf4.
Proof.
  split.
  - apply (patch_changes_only_addr (open [xdb; x40; xff]) 1 x7f). simpl. lia.
  - apply (patch_changes_only_addr (open [xf3; x05; xff]) 0 x00). simpl. lia.
Defined.

(* ===================================================================== *)
(** ** Address formatting in the two implementations *)
(* ===================================================================== *)

Definition hex_digit_upper (d : Z) : ascii :=
  nth (Z.to_nat d) (list_ascii_of_string "0123456789ABCDEF") "0"%char.

(** ['@'] and the four digits of [addr] in base sixteen, most significant
    first. *)
Definition at_four_digits (addr : Z) : string :=
  String "@"%char
    (String (hex_digit_upper (addr / 4096))
       (String (hex_digit_upper (addr / 256 mod 16))
          (String (hex_digit_upper (addr / 16 mod 16))
             (String (hex_digit_upper (addr mod 16)) EmptyString)))).

Definition addr_formats_agree (addr : Z) : bool :=
  (upper (V02.GET_MSG_STRING_hex_addr addr) =? V04.format_addr addr)%string
  && (V04.format_addr addr =? at_four_digits addr)%string.

(** [check a], [check (a + 1)], ..., [n] values in all. *)
Fixpoint holds_from (check : Z -> bool) (n : nat) (a : Z) : bool :=
  match n with
  | O => true
  | S n' => check a && holds_from check n' (a + 1)
  end.

Lemma holds_from_spec (check : Z -> bool) (n : nat) :
  forall a : Z, holds_from check n a = true ->
  forall z : Z, a <= z < a + Z.of_nat n -> check z = true.
Proof.
  induction n as [| n IH]; intros a Hall z Hz.
  - simpl in Hz. lia.
  - simpl in Hall. apply andb_prop in Hall as [Ha Hrest].
    destruct (Z.eq_dec z a) as [-> | Hne]; [exact Ha |].
    apply (IH (a + 1) Hrest). lia.
Qed.

Lemma addr_formats_agree_all :
  holds_from addr_formats_agree (Z.to_nat 0x10000) 0 = true.
Proof. vm_compute. reflexivity. Qed.

(** C10. For every address from 0 to 0xFFFF the address text built inside
    the earlier [GET_MSG_STRING], once upper-cased, is the text the later
    [format_addr] returns, and that text is ['@'] followed by exactly four
    upper-case hexadecimal digits. *)
Theorem format_addr_refines (addr : Z) :
  0 <= addr <= 0xFFFF ->
  upper (V02.GET_MSG_STRING_hex_addr addr) = V04.format_addr addr
  /\ V04.format_addr addr = at_four_digits addr.
Proof.
  intros Hrange.
  assert (Hok : addr_formats_agree addr = true).
  { apply (holds_from_spec _ _ 0 addr_formats_agree_all). lia. }
  unfold addr_formats_agree in Hok.
  apply andb_prop in Hok as [H1 H2].
  split; apply String.eqb_eq; assumption.
Qed.

Lemma format_addr_refines_witness :
  upper (V02.GET_MSG_STRING_hex_addr 0x1AF) = V04.format_addr 0x1AF
  /\ V04.format_addr 0x1AF = "@01AF".
Proof. apply (format_addr_refines 0x1AF). lia. Defined.

(* ===================================================================== *)
(** ** Volume arguments *)
(* ===================================================================== *)

(** The float a whole percentage is parsed to. *)
Definition float_of_Z (p : Z) : float := PrimFloat.of_uint63 (Uint63.of_Z p).

(** The least integer not below [p * 127 / 100], in exact arithmetic. *)
Definition exact_ceil (p : Z) : Z := (p * 127 + 99) / 100.

Definition result_eqb (r : result (list byte)) (z : Z) : bool :=
  match r with
  | Ok [b] => byte_val b =? z
  | _ => false
  end.

Definition whole_percent_ok (p : Z) : bool :=
  result_eqb (V02.CHECK_INPUT (VFloat (float_of_Z p))) (exact_ceil p)
  && result_eqb (V04.check_input (VFloat (float_of_Z p))) (exact_ceil p).

Lemma whole_percent_ok_all : holds_from whole_percent_ok 201 0 = true.
Proof. vm_compute. reflexivity. Qed.

Lemma result_eqb_spec (r : result (list byte)) (z : Z) :
  result_eqb r z = true -> exists b : byte, r = Ok [b] /\ byte_val b = z.
Proof.
  destruct r as [[| b [| ? ?]] | e]; simpl; try discriminate.
  intros H%Z.eqb_eq. exists b. split; [reflexivity | exact H].
Qed.

(** C7. The conversion of a percentage to a byte is the ceiling of
    percent / 100 * 127 (computed on floats, as [math.ceil] does), in both
    implementations; 50% gives 64, 100% gives 127, 0% gives 0 and 200%
    gives 254, and for every whole percentage from 0 to 200 the byte is
    the exact ceiling of percent * 127 / 100. *)
Theorem percent_to_byte (p : Z) :
  0 <= p <= 200 ->
  (forall v : float,
      V02.CHECK_INPUT (VFloat v)
      = match math_ceil (PrimFloat.mul (PrimFloat.div v 100) 127) with
        | Ok n => to_bytes1 n
        | Raise e => Raise e
        end
      /\ V04.check_input (VFloat v) = V02.CHECK_INPUT (VFloat v))
  /\ V02.CHECK_INPUT (VFloat 50) = Ok [x40]
  /\ V02.CHECK_INPUT (VFloat 100) = Ok [x7f]
  /\ V02.CHECK_INPUT (VFloat 0) = Ok [x00]
  /\ V02.CHECK_INPUT (VFloat 200) = Ok [xfe]
  /\ (exists b : byte,
         V02.CHECK_INPUT (VFloat (float_of_Z p)) = Ok [b]
         /\ V04.check_input (VFloat (float_of_Z p)) = Ok [b]
         /\ byte_val b = exact_ceil p).
Proof.
  intros Hp.
  split; [intros v; split; reflexivity |].
  repeat (split; [vm_compute; reflexivity |]).
  assert (Hok : whole_percent_ok p = true).
  { apply (holds_from_spec _ _ 0 whole_percent_ok_all). lia. }
  unfold whole_percent_ok in Hok. apply andb_prop in Hok as [H2 H4].
  apply result_eqb_spec in H2 as (b & E2 & Hb).
  exists b. repeat split; try assumption.
Qed.

Lemma percent_to_byte_witness :
  exists b : byte,
    V02.CHECK_INPUT (VFloat (float_of_Z 33)) = Ok [b]
    /\ V04.check_input (VFloat (float_of_Z 33)) = Ok [b]
    /\ byte_val b = 42.
Proof.
  refine (proj2 (proj2 (proj2 (proj2 (proj2 (percent_to_byte 33 _)))))). lia.
Defined.


(** C9, at a volume argument the validator lets through although it lies
    in no range: for [nan%] both comparisons of [check_vol] are false, so
    the NaN is accepted, and the conversion then raises [ValueError] from
    [math.ceil] instead of returning a byte; the exception leaves [main]. *)
Theorem nan_percent_accepted_and_not_converted :
  check_vol (Percent nan) = Some (VFloat nan)
  /\ V02.CHECK_INPUT (VFloat nan) = Raise ValueError
  /\ V04.check_input (VFloat nan) = Raise ValueError
  /\ fst (fst (V02.main (mkArgParser (VFloat nan) false MM) []
                 [xdb; x40; xff] module_load)) = Failed ValueError
  /\ fst (fst (V04.main (mkArgParser (VFloat nan) false MM) []
                 [x00; xdb; x40; xff; x00] module_load)) = Failed ValueError.
Proof. repeat split; vm_compute; reflexivity. Qed.

(* ===================================================================== *)
(** ** The module-level lists across decoding passes *)
(* ===================================================================== *)

(** List by list, the contents of [g] followed by those of [h]. *)
Definition gapp (g h : globals) : globals :=
  mkglobals
    (SEQ_HEADER_OUTPUT g ++ SEQ_HEADER_OUTPUT h)
    (MSTR_VOL_ADDR g ++ MSTR_VOL_ADDR h)
    (JUMP_ADDR g ++ JUMP_ADDR h)
    (EQJUMP_ADDR g ++ EQJUMP_ADDR h)
    (LTJUMP_ADDR g ++ LTJUMP_ADDR h)
    (GTEQJUMP_ADDR g ++ GTEQJUMP_ADDR h)
    (RJUMP_ADDR g ++ RJUMP_ADDR h)
    (REQJUMP_ADDR g ++ REQJUMP_ADDR h)
    (RLTJUMP_ADDR g ++ RLTJUMP_ADDR h).

Lemma gapp_module_load (g : globals) : gapp g module_load = g.
Proof. destruct g; unfold gapp; simpl. rewrite !app_nil_r. reflexivity. Qed.

Lemma output_append_gapp (s : string) (g h : globals) :
  output_append s (gapp g h) = gapp g (output_append s h).
Proof. unfold output_append, gapp; simpl. rewrite app_assoc. reflexivity. Qed.

Lemma addr_append_gapp (l : addr_list) (a : nat) (g h : globals) :
  addr_append l a (gapp g h) = gapp g (addr_append l a h).
Proof.
  destruct l; unfold addr_append, gapp; simpl; rewrite app_assoc; reflexivity.
Qed.

(** The same state with [g] in front of its lists. *)
Definition st_after (g : globals) (st : pstate) : pstate :=
  mkpstate (st_seq st) (st_pos st) (gapp g (st_G st)).

Definition flow_after (g : globals) (fl : flow) : flow :=
  match fl with
  | Next st => Next (st_after g st)
  | Break st => Break (st_after g st)
  | Throw e st => Throw e (st_after g st)
  end.

Definition run_after (g : globals) (r : outcome * pstate) : outcome * pstate :=
  (fst r, st_after g (snd r)).

Arguments read : simpl never.
Arguments bind : simpl never.

Create Rewrite HintDb globals_after.
#[local] Hint Rewrite output_append_gapp addr_append_gapp : globals_after.

(** The unfolding equations of the two loops. *)
Lemma PARSE_SEQ_loop_S (fuel : nat) (version : SeqVersion) (st : pstate) :
  V02.PARSE_SEQ_loop (S fuel) version st
  = let '(byte, seq) := read (st_seq st) 1 in
    let st := mkpstate seq (st_pos st) (st_G st) in
    match byte with
    | [] => (Exhausted, st)
    | _ :: _ =>
        match V02.PARSE_SEQ_body version st with
        | Next st' => V02.PARSE_SEQ_loop fuel version st'
        | Break st' => (Ended, st')
        | Throw e st' => (Raised e, st')
        end
    end.
Proof. reflexivity. Qed.

Lemma parse_seq_loop_S (fuel : nat) (version : SeqVersion) (st : pstate) :
  V04.parse_seq_loop (S fuel) version st
  = let '(byte, seq) := read (st_seq st) 1 in
    let st := mkpstate seq (st_pos st) (st_G st) in
    match byte with
    | [] => (Exhausted, st)
    | _ :: _ =>
        match V04.parse_seq_body version byte st with
        | Next st' => V04.parse_seq_loop fuel version st'
        | Break st' => (Ended, st')
        | Throw e st' => (Raised e, st')
        end
    end.
Proof. reflexivity. Qed.

Lemma PARSE_SEQ_branch_after (b : V02.branch) (g : globals) (st : pstate) :
  V02.PARSE_SEQ_branch b (st_after g st)
  = flow_after g (V02.PARSE_SEQ_branch b st).
Proof.
  unfold V02.PARSE_SEQ_branch, st_after; simpl.
  destruct (V02.OLD_READER_call _ _ _) as [[[[m n] arg_addrs] | e] seq'];
    [| reflexivity].
  autorewrite with globals_after.
  destruct (V02.br_collect b) as [[l []] |];
    autorewrite with globals_after;
    destruct (V02.br_break b); reflexivity.
Qed.

Lemma PARSE_SEQ_body_after (version : SeqVersion) (g : globals) (st : pstate) :
  V02.PARSE_SEQ_body version (st_after g st)
  = flow_after g (V02.PARSE_SEQ_body version st).
Proof.
  unfold V02.PARSE_SEQ_body, st_after; cbn [st_seq st_pos st_G].
  destruct (read (seek (st_seq st) (st_pos st)) 1) as [byte seq].
  destruct (V02.PARSE_SEQ_arm version byte) as [b | s k |];
    cbn [st_seq st_pos st_G flow_after st_after].
  - apply (PARSE_SEQ_branch_after b g (mkpstate seq (st_pos st) (st_G st))).
  - rewrite output_append_gapp. reflexivity.
  - reflexivity.
Qed.

Lemma PARSE_SEQ_loop_after (version : SeqVersion) (g : globals) (fuel : nat) :
  forall st : pstate,
    V02.PARSE_SEQ_loop fuel version (st_after g st)
    = run_after g (V02.PARSE_SEQ_loop fuel version st).
Proof.
  induction fuel as [| fuel IH]; intros st; [reflexivity |].
  rewrite !PARSE_SEQ_loop_S. cbn [st_after st_seq st_pos st_G].
  destruct (read (st_seq st) 1) as [[| b byte] seq]; [reflexivity |].
  pose proof (PARSE_SEQ_body_after version g
                (mkpstate seq (st_pos st) (st_G st))) as Hbody.
  unfold st_after in Hbody; cbn [st_seq st_pos st_G] in Hbody.
  rewrite Hbody; clear Hbody.
  destruct (V02.PARSE_SEQ_body version _) as [st' | st' | e st'];
    cbn [flow_after]; [apply IH | reflexivity | reflexivity].
Qed.

Lemma parse_seq_body_after (version : SeqVersion) (byte : list byte)
  (g : globals) (st : pstate) :
  V04.parse_seq_body version byte (st_after g st)
  = flow_after g (V04.parse_seq_body version byte st).
Proof.
  unfold V04.parse_seq_body, st_after; cbn [st_seq st_pos st_G].
  destruct (V04.SEQ_MESSAGES _) as [msg |]; [| reflexivity].
  destruct (match V04.version_check msg with
            | Some v => negb (SeqVersion_eqb v version)
            | None => false
            end); [reflexivity |].
  match goal with
  | |- context [bind ?a ?k (st_seq st)] => destruct (bind a k (st_seq st)) as [[[md |] | e] seq']
  end; try reflexivity.
  autorewrite with globals_after.
  destruct (V04.extra_output_list msg) as [l |];
    [destruct (V04.arg_addr_1 md) as [a1 |];
     destruct (V04.arg_addr_2 md) as [[| a2] |] |];
    autorewrite with globals_after;
    destruct (_ =? 0xFF); reflexivity.
Qed.

Lemma parse_seq_loop_after (version : SeqVersion) (g : globals) (fuel : nat) :
  forall st : pstate,
    V04.parse_seq_loop fuel version (st_after g st)
    = run_after g (V04.parse_seq_loop fuel version st).
Proof.
  induction fuel as [| fuel IH]; intros st; [reflexivity |].
  rewrite !parse_seq_loop_S. cbn [st_after st_seq st_pos st_G].
  destruct (read (st_seq st) 1) as [[| b byte] seq]; [reflexivity |].
  pose proof (parse_seq_body_after version (b :: byte) g
                (mkpstate seq (st_pos st) (st_G st))) as Hbody.
  unfold st_after in Hbody; cbn [st_seq st_pos st_G] in Hbody.
  rewrite Hbody; clear Hbody.
  destruct (V04.parse_seq_body version _ _) as [st' | st' | e st'];
    cbn [flow_after]; [apply IH | reflexivity | reflexivity].
Qed.

(** What the claim of C6 says of a decoder: run on the same bytes a second
    time in the same process (the lists being what the first pass left),
    it leaves the lists as the first pass left them. *)
Definition second_pass_leaves_lists
  (decode : SeqVersion -> file -> globals -> outcome * pstate)
  (version : SeqVersion) (contents : list byte) : Prop :=
  let first := st_G (snd (decode version (open contents) module_load)) in
  st_G (snd (decode version (open contents) first)) = first.

(** C6 as stated fails: after a second pass over [DB 40 FF] the earlier
    decoder holds four records and two volume addresses, not two and one;
    the later decoder shows the same on [00 DB 40 FF 00]. *)
Lemma second_pass_doubles_lists :
  ~ (forall version contents,
        second_pass_leaves_lists V02.PARSE_SEQ version contents)
  /\ ~ (forall version contents,
           second_pass_leaves_lists V04.parse_seq version contents).
Proof.
  split; intros Hall.
  - specialize (Hall MM [xdb; x40; xff]).
    unfold second_pass_leaves_lists in Hall. vm_compute in Hall. discriminate.
  - specialize (Hall MM [x00; xdb; x40; xff; x00]).
    unfold second_pass_leaves_lists in Hall. vm_compute in Hall. discriminate.
Qed.

(** C6, amended.  The lists are never cleared and a pass only appends to
    them: whatever they hold when a pass starts, the pass ends the same way
    (same outcome, same cursor and position) and leaves each list equal to
    what it held followed by what the same pass yields from empty lists.
    So two passes from empty lists agree, and a second pass in the same
    process leaves every list twice over. *)
Theorem decode_pass_appends (version : SeqVersion) (contents : list byte)
  (g : globals) :
  V02.PARSE_SEQ version (open contents) g
  = run_after g (V02.PARSE_SEQ version (open contents) module_load)
  /\ V04.parse_seq version (open contents) g
     = run_after g (V04.parse_seq version (open contents) module_load).
Proof.
  split.
  - unfold V02.PARSE_SEQ. destruct (read (open contents) 1) as [byte seq].
    rewrite <- (PARSE_SEQ_loop_after version g).
    unfold st_after; simpl. rewrite gapp_module_load. reflexivity.
  - unfold V04.parse_seq. destruct (read (open contents) 1) as [byte seq].
    rewrite <- (parse_seq_loop_after version g).
    unfold st_after; simpl. rewrite gapp_module_load. reflexivity.
Qed.

(* ===================================================================== *)
(** ** Unknown opcodes *)
(* ===================================================================== *)

(** The two implementations know the same opcodes: the chain of the earlier
    one reaches its [else] exactly on the bytes the table of the later one
    lacks, or holds only for the other game. *)
Lemma PARSE_SEQ_arm_else_iff (version : SeqVersion) (b : byte) :
  V02.PARSE_SEQ_arm version [b] = V02.arm_else
  <-> match V04.SEQ_MESSAGES (byte_val b) with
      | None => True
      | Some msg => match V04.version_check msg with
                    | Some v => SeqVersion_eqb v version = false
                    | None => False
                    end
      end.
Proof.
  destruct b, version; vm_compute; split; intros H;
    solve [reflexivity | exact I | discriminate H | destruct H].
Qed.

Lemma PARSE_SEQ_arm_unknown (version : SeqVersion) (b : byte) :
  V04.SEQ_MESSAGES (byte_val b) = None ->
  V02.PARSE_SEQ_arm version [b] = V02.arm_else.
Proof.
  intros Hnone. apply PARSE_SEQ_arm_else_iff. rewrite Hnone. exact I.
Qed.

(** C4. A byte that is neither a key of the table nor inside one of its
    ranges is skipped: the pass of the loop that meets it at [off] emits no
    record, appends to no list, and leaves the decoder one byte further,
    where decoding goes on.  In the earlier implementation [c] is where the
    loop condition happens to read. *)
Theorem unknown_opcode_skipped (version : SeqVersion) (fuel : nat)
  (d : list byte) (off c p : nat) (b : byte) (g : globals) :
  d !! off = Some b ->
  V04.SEQ_MESSAGES (byte_val b) = None ->
  (c < length d)%nat ->
  V02.PARSE_SEQ_loop (S fuel) version (mkpstate (mkfile d c) off g)
  = V02.PARSE_SEQ_loop fuel version
      (mkpstate (mkfile d (off + 1)) (off + 1) g)
  /\ V04.parse_seq_loop (S fuel) version (mkpstate (mkfile d off) p g)
     = V04.parse_seq_loop fuel version (mkpstate (mkfile d (off + 1)) off g).
Proof.
  intros Hb Hnone Hc. split.
  - rewrite PARSE_SEQ_loop_S. cbn [st_seq st_pos st_G].
    destruct (lookup_lt_is_Some_2 d c Hc) as [x Hx].
    rewrite (read_1 d c x Hx).
    unfold V02.PARSE_SEQ_body, seek. cbn [st_seq st_pos st_G data].
    rewrite (read_1 d off b Hb).
    rewrite (PARSE_SEQ_arm_unknown version b Hnone).
    reflexivity.
  - rewrite parse_seq_loop_S. cbn [st_seq st_pos st_G].
    rewrite (read_1 d off b Hb).
    unfold V04.parse_seq_body, tell. cbn [st_seq st_pos st_G cursor].
    rewrite Hnone.
    replace (off + 1 - 1)%nat with off by lia. reflexivity.
Qed.

Lemma unknown_opcode_skipped_witness :
  V02.PARSE_SEQ_loop 5 MM (mkpstate (mkfile [x10; xdb; x40; xff] 1) 0 module_load)
  = V02.PARSE_SEQ_loop 4 MM (mkpstate (mkfile [x10; xdb; x40; xff] 1) 1 module_load)
  /\ V04.parse_seq_loop 5 MM (mkpstate (mkfile [x10; xdb; x40; xff] 0) 0 module_load)
     = V04.parse_seq_loop 4 MM (mkpstate (mkfile [x10; xdb; x40; xff] 1) 0 module_load).
Proof.
  apply (unknown_opcode_skipped MM 4 [x10; xdb; x40; xff] 0 1 0 x10 module_load);
    [reflexivity | reflexivity | simpl; lia].
Defined.

(* ===================================================================== *)
(** ** The variable-length delay *)
(* ===================================================================== *)

Lemma string_app_nil_r (s : string) : (s ++ "")%string = s.
Proof. induction s as [| c s IH]; simpl; [reflexivity | rewrite IH; reflexivity]. Qed.

Section Delay.

Variables (d : list byte) (off : nat) (b1 : byte).
Hypothesis Hop : d !! off = Some xfd.
Hypothesis Harg : d !! (off + 1)%nat = Some b1.

Lemma READ_ARGVAR_long (c : nat) (b2 : byte) :
  Z.land (byte_val b1) 0x80 <> 0 ->
  d !! (off + 2)%nat = Some b2 ->
  V02.READ_ARGVAR off (byte_val b1) (mkfile d c)
  = (Ok ([0xFD; byte_val b1 * 256 + byte_val b2], 3%nat, (off + 1)%nat),
     mkfile d (off + 3)).
Proof.
  intros Hbit H2. apply Z.eqb_neq in Hbit.
  unfold V02.READ_ARGVAR, V02.SEEK_ADDR, bind, seekM, tellM, readM, lift, ret, seek, tell.
  cbn [data cursor]. rewrite Hbit. cbn [negb].
  rewrite (read_3 d off xfd b1 b2 Hop Harg H2). reflexivity.
Qed.

Lemma READ_ARGVAR_short (c : nat) :
  Z.land (byte_val b1) 0x80 = 0 ->
  V02.READ_ARGVAR off (byte_val b1) (mkfile d c)
  = (Ok ([0xFD; byte_val b1], 2%nat, (off + 1)%nat), mkfile d (off + 2)).
Proof.
  intros Hbit. apply Z.eqb_eq in Hbit.
  unfold V02.READ_ARGVAR, V02.SEEK_ADDR, bind, seekM, tellM, readM, lift, ret, seek, tell.
  cbn [data cursor]. rewrite Hbit. cbn [negb].
  rewrite (read_2 d off xfd b1 Hop Harg). reflexivity.
Qed.

Lemma read_argvar_long (c : nat) (b2 : byte) :
  Z.land (byte_val b1) 0x80 <> 0 ->
  d !! (off + 2)%nat = Some b2 ->
  V04.read_argvar off (byte_val b1) (mkfile d c)
  = (Ok (V04.mkMessageData (Some (off + 1)%nat) None 0xFD
           (Some (byte_val b1 * 256 + byte_val b2, V04.u16)) None 3),
     mkfile d (off + 3)).
Proof.
  intros Hbit H2. apply Z.eqb_neq in Hbit.
  unfold V04.read_argvar, V04.seek_addr, bind, seekM, tellM, readM, lift, ret, seek, tell.
  cbn [data cursor]. rewrite Hbit. cbn [negb].
  rewrite (read_3 d off xfd b1 b2 Hop Harg H2). reflexivity.
Qed.

Lemma read_argvar_short (c : nat) :
  Z.land (byte_val b1) 0x80 = 0 ->
  V04.read_argvar off (byte_val b1) (mkfile d c)
  = (Ok (V04.mkMessageData (Some (off + 1)%nat) None 0xFD
           (Some (byte_val b1, V04.u8)) None 2),
     mkfile d (off + 2)).
Proof.
  intros Hbit. apply Z.eqb_eq in Hbit.
  unfold V04.read_argvar, V04.seek_addr, bind, seekM, tellM, readM, lift, ret, seek, tell.
  cbn [data cursor]. rewrite Hbit. cbn [negb].
  rewrite (read_2 d off xfd b1 Hop Harg). reflexivity.
Qed.

(** The earlier loop body on a delay at [off]: the branch reads the byte
    after the opcode, hands it to [READ_ARGVAR], and moves [pos] by what
    comes back. *)
Lemma PARSE_SEQ_body_delay (version : SeqVersion) (c : nat) (g : globals)
  (m : list Z) (n : nat) :
  V02.READ_ARGVAR off (byte_val b1) (mkfile d (off + 1 + 1))
  = (Ok (m, n, (off + 1)%nat), mkfile d (off + n)) ->
  V02.PARSE_SEQ_body version (mkpstate (mkfile d c) off g)
  = Next (mkpstate (mkfile d (off + n)) (off + n)
            (output_append
               ("  delay           "
                ++ V02.GET_MSG_STRING (Z.of_nat off) (hd 0 m) (tl m)) g)).
Proof.
  intros Hread.
  unfold V02.PARSE_SEQ_body, seek. cbn [st_seq st_pos st_G data].
  rewrite (read_1 d off xfd Hop).
  change (V02.PARSE_SEQ_arm version [xfd])
    with (V02.arm_msg (V02.mkbranch V02.BY_READ_ARGVAR true
                         "  delay           " "" None None false)).
  unfold V02.PARSE_SEQ_branch, V02.OLD_READER_call, tell.
  cbn [st_seq st_pos st_G cursor V02.br_read V02.br_msg_shown V02.br_open
         V02.br_close V02.br_collect V02.br_step V02.br_break].
  replace (off + 1 - 1)%nat with off by lia.
  unfold bind at 1. unfold readM at 1.
  rewrite (read_1 d (off + 1) b1 Harg).
  change (from_bytes [b1]) with (byte_val b1).
  unfold bind at 1. rewrite Hread. unfold ret.
  rewrite string_app_nil_r.
  reflexivity.
Qed.

(** The later loop body on a delay at [off], entered with the opcode
    just read by the loop condition. *)
Lemma parse_seq_body_delay (version : SeqVersion) (p : nat) (g : globals)
  (md : V04.MessageData) (n : nat) :
  V04.read_argvar off (byte_val b1) (mkfile d (off + 1 + 1))
  = (Ok md, mkfile d (off + n)) ->
  V04.arg_2 md = None -> V04.pos md = n ->
  V04.parse_seq_body version [xfd] (mkpstate (mkfile d (off + 1)) p g)
  = Next (mkpstate (mkfile d (off + n)) (off + n)
            (output_append
               ("  delay           "
                ++ V04.get_msg_string (Z.of_nat off) (Some 0xFD)
                     [V04.arg_1 md]) g)).
Proof.
  intros Hread Harg2 Hpos.
  unfold V04.parse_seq_body, tell. cbn [st_seq st_pos st_G cursor].
  replace (off + 1 - 1)%nat with off by lia.
  change (byte_val xfd) with 0xFD.
  change (V04.SEQ_MESSAGES 0xFD)
    with (Some (V04.mkSeqMessage "delay" V04.the_read_argvar None None None None)).
  cbn [V04.version_check V04.read_func V04.color V04.name V04.byte_size
         V04.extra_output_list].
  unfold bind at 1. unfold seekM, seek. cbn [data].
  unfold bind at 1. unfold readM at 1.
  rewrite (read_1 d (off + 1) b1 Harg).
  unfold bind at 1. unfold lift, ord.
  unfold V04.call. unfold bind at 1. rewrite Hread. unfold ret.
  rewrite Harg2, Hpos.
  change (0xFD =? 0xFF) with false. cbv iota.
  change (ljust 16 "delay") with "delay           ".
  rewrite string_app_nil_r.
  reflexivity.
Qed.

End Delay.

(** C5. For a delay (opcode 0xFD) at any offset, the byte after the opcode
    decides the length.  With its high bit set, the reader returns one
    16-bit argument, big-endian (that byte being the high one), and the
    decoder moves on by three bytes; otherwise the reader returns that
    byte as an 8-bit argument and the decoder moves on by two.  Either
    way the argument address is the offset plus one.  Both implementations
    agree on this. *)
Theorem delay_is_variable_length (version : SeqVersion) (d : list byte)
  (off c p : nat) (b1 : byte) (g : globals) :
  d !! off = Some xfd ->
  d !! (off + 1)%nat = Some b1 ->
  (Z.land (byte_val b1) 0x80 <> 0 ->
   forall b2 : byte, d !! (off + 2)%nat = Some b2 ->
   let arg := byte_val b1 * 256 + byte_val b2 in
   V02.READ_ARGVAR off (byte_val b1) (mkfile d c)
   = (Ok ([0xFD; arg], 3%nat, (off + 1)%nat), mkfile d (off + 3))
   /\ V04.read_argvar off (byte_val b1) (mkfile d c)
      = (Ok (V04.mkMessageData (Some (off + 1)%nat) None 0xFD
               (Some (arg, V04.u16)) None 3),
         mkfile d (off + 3))
   /\ V02.PARSE_SEQ_body version (mkpstate (mkfile d c) off g)
      = Next (mkpstate (mkfile d (off + 3)) (off + 3)
                (output_append
                   ("  delay           "
                    ++ V02.GET_MSG_STRING (Z.of_nat off) 0xFD [arg]) g))
   /\ V04.parse_seq_body version [xfd] (mkpstate (mkfile d (off + 1)) p g)
      = Next (mkpstate (mkfile d (off + 3)) (off + 3)
                (output_append
                   ("  delay           "
                    ++ V04.get_msg_string (Z.of_nat off) (Some 0xFD)
                         [Some (arg, V04.u16)]) g)))
  /\ (Z.land (byte_val b1) 0x80 = 0 ->
      let arg := byte_val b1 in
      V02.READ_ARGVAR off (byte_val b1) (mkfile d c)
      = (Ok ([0xFD; arg], 2%nat, (off + 1)%nat), mkfile d (off + 2))
      /\ V04.read_argvar off (byte_val b1) (mkfile d c)
         = (Ok (V04.mkMessageData (Some (off + 1)%nat) None 0xFD
                  (Some (arg, V04.u8)) None 2),
            mkfile d (off + 2))
      /\ V02.PARSE_SEQ_body version (mkpstate (mkfile d c) off g)
         = Next (mkpstate (mkfile d (off + 2)) (off + 2)
                   (output_append
                      ("  delay           "
                       ++ V02.GET_MSG_STRING (Z.of_nat off) 0xFD [arg]) g))
      /\ V04.parse_seq_body version [xfd] (mkpstate (mkfile d (off + 1)) p g)
         = Next (mkpstate (mkfile d (off + 2)) (off + 2)
                   (output_append
                      ("  delay           "
                       ++ V04.get_msg_string (Z.of_nat off) (Some 0xFD)
                            [Some (arg, V04.u8)]) g))).
Proof.
  intros Hop Harg. split.
  - intros Hbit b2 H2 arg. repeat split.
    + apply (READ_ARGVAR_long d off b1 Hop Harg c b2 Hbit H2).
    + apply (read_argvar_long d off b1 Hop Harg c b2 Hbit H2).
    + apply (PARSE_SEQ_body_delay d off b1 Hop Harg version c g [0xFD; arg] 3).
      apply (READ_ARGVAR_long d off b1 Hop Harg _ b2 Hbit H2).
    + apply (parse_seq_body_delay d off b1 Harg version p g
               (V04.mkMessageData (Some (off + 1)%nat) None 0xFD
                  (Some (arg, V04.u16)) None 3) 3);
        [apply (read_argvar_long d off b1 Hop Harg _ b2 Hbit H2) | reflexivity
        | reflexivity].
  - intros Hbit arg. repeat split.
    + apply (READ_ARGVAR_short d off b1 Hop Harg c Hbit).
    + apply (read_argvar_short d off b1 Hop Harg c Hbit).
    + apply (PARSE_SEQ_body_delay d off b1 Hop Harg version c g [0xFD; arg] 2).
      apply (READ_ARGVAR_short d off b1 Hop Harg _ Hbit).
    + apply (parse_seq_body_delay d off b1 Harg version p g
               (V04.mkMessageData (Some (off + 1)%nat) None 0xFD
                  (Some (arg, V04.u8)) None 2) 2);
        [apply (read_argvar_short d off b1 Hop Harg _ Hbit) | reflexivity
        | reflexivity].
Qed.

Lemma delay_is_variable_length_witness :
  (V02.PARSE_SEQ_body MM (mkpstate (mkfile [xfd; x85; x10; xff] 1) 0 module_load)
   = Next (mkpstate (mkfile [xfd; x85; x10; xff] 3) 3
             (output_append "  delay           @0000: FD 8510" module_load))
   /\ V04.parse_seq_body MM [xfd] (mkpstate (mkfile [xfd; x85; x10; xff] 1) 0 module_load)
      = Next (mkpstate (mkfile [xfd; x85; x10; xff] 3) 3
                (output_append "  delay           @0000: FD 8510" module_load)))
  /\ (V02.PARSE_SEQ_body MM (mkpstate (mkfile [xfd; x30; xff] 1) 0 module_load)
      = Next (mkpstate (mkfile [xfd; x30; xff] 2) 2
                (output_append "  delay           @0000: FD 30" module_load))
      /\ V04.parse_seq_body MM [xfd] (mkpstate (mkfile [xfd; x30; xff] 1) 0 module_load)
         = Next (mkpstate (mkfile [xfd; x30; xff] 2) 2
                   (output_append "  delay           @0000: FD 30" module_load))).
Proof.
  split.
  - pose proof (proj1 (delay_is_variable_length MM [xfd; x85; x10; xff] 0 1 0 x85
                         module_load eq_refl eq_refl)) as Hlong.
    assert (Hbit : Z.land (byte_val x85) 0x80 <> 0) by (vm_compute; discriminate).
    destruct (Hlong Hbit x10 eq_refl) as (_ & _ & H2 & H4).
    split; [exact H2 | exact H4].
  - pose proof (proj2 (delay_is_variable_length MM [xfd; x30; xff] 0 1 0 x30
                         module_load eq_refl eq_refl)) as Hshort.
    destruct (Hshort eq_refl) as (_ & _ & H2 & H4).
    split; [exact H2 | exact H4].
Defined.

(* ===================================================================== *)
(** ** End-to-end runs *)
(* ===================================================================== *)

(** The lists after decoding [contents] in a fresh process. *)
Definition PARSE_SEQ_lists (version : SeqVersion) (contents : list byte) : globals :=
  st_G (snd (V02.PARSE_SEQ version (open contents) module_load)).

Definition parse_seq_lists (version : SeqVersion) (contents : list byte) : globals :=
  st_G (snd (V04.parse_seq version (open contents) module_load)).

(** C1, on both implementations.  The earlier decoder does what the claim
    says on [DB 40 FF]: two records, a volume message at 0 and the end
    message at 2, the volume list is [[1]], and after writing 0x7F at
    address 1 a new pass shows 7F as the argument.  The later decoder does
    not: its first [seq.read(1)] consumes byte 0 and nothing seeks back, so
    it decodes 0x40 at address 1 as a stop-channel message, and at the
    final FF the read of the following byte returns nothing and [ord]
    raises; it ends with one record and no volume address. *)
Theorem volume_scenario_DB_40_FF (version : SeqVersion) :
  V02.PARSE_SEQ version (open [xdb; x40; xff]) module_load
  = (Ended,
     mkpstate (mkfile [xdb; x40; xff] 3) 2
       (mkglobals
          [PINK_218 ++ "  mstrvol         @0000: DB 40" ++ RESET;
           "  end             @0002: FF"]
          [1%nat] [] [] [] [] [] [] []))
  /\ data (snd (V02.WRITE_BIN 1 [x7f] (mkfile [xdb; x40; xff] 3)))
     = [xdb; x7f; xff]
  /\ SEQ_HEADER_OUTPUT (PARSE_SEQ_lists version [xdb; x7f; xff])
     = [PINK_218 ++ "  mstrvol         @0000: DB 7F" ++ RESET;
        "  end             @0002: FF"]
  /\ V04.parse_seq version (open [xdb; x40; xff]) module_load
     = (Raised TypeError,
        mkpstate (mkfile [xdb; x40; xff] 3) 2
          (mkglobals ["  stopchan        @0001: 40"] [] [] [] [] [] [] [] [])).
Proof. destruct version; repeat split; vm_compute; reflexivity. Qed.

(** C2, where the earlier implementation goes wrong: on [F3 05 FF] with
    jump fixing asked for, [main] collects address 0 as a relative
    conditional jump and then calls [FIX_JUMP] on it, so byte 0 becomes
    0xFB, the absolute jump, and not 0xF4. *)
Theorem relative_jump_fixed_as_absolute (value : volume) (version : SeqVersion) :
  REQJUMP_ADDR (PARSE_SEQ_lists version [xf3; x05; xff]) = [0%nat]
  /\ fst (V02.main (mkArgParser value true version) [] [xf3; x05; xff]
            module_load)
     = (Done, mkfile [xfb; x05; xff] 1).
Proof. destruct version; split; vm_compute; reflexivity. Qed.

(** The later implementation rewrites relative conditional jumps with
    [fix_rjump]: after the jump phase every address of the two relative
    lists holds 0xF4, wherever it lies. *)
Section JumpPhase.

Variable v : byte.

Let put (addr : nat) : M unit := seekM addr ;;; writeM [v].

Lemma put_sets (seq : file) (x : nat) :
  data (snd (put x seq)) !! x = Some v.
Proof.
  unfold put, bind, seekM, writeM, write, write_byte; simpl.
  destruct (Nat.ltb_spec x (length (data seq))) as [Hlt | Hge]; simpl.
  - apply list_lookup_insert_eq. exact Hlt.
  - rewrite lookup_app_r by exact Hge.
    rewrite lookup_app_r by (rewrite length_replicate; lia).
    rewrite length_replicate, Nat.sub_diag. reflexivity.
Qed.

Lemma put_keeps (seq : file) (x a : nat) :
  data seq !! a = Some v -> data (snd (put x seq)) !! a = Some v.
Proof.
  intros Ha. pose proof (lookup_lt_Some _ _ _ Ha) as Hlen.
  destruct (Nat.eq_dec x a) as [-> | Hne]; [apply put_sets |].
  unfold put, bind, seekM, writeM, write, write_byte; simpl.
  destruct (Nat.ltb_spec x (length (data seq))) as [Hlt | Hge]; simpl.
  - rewrite list_lookup_insert_ne by exact Hne. exact Ha.
  - rewrite lookup_app_l by exact Hlen. exact Ha.
Qed.

Lemma fix_each_keeps (addrs : list nat) (a : nat) :
  forall seq : file,
    data seq !! a = Some v -> data (fix_each put addrs seq) !! a = Some v.
Proof.
  induction addrs as [| x addrs IH]; intros seq Ha; [exact Ha |].
  change (fix_each put (x :: addrs) seq)
    with (fix_each put addrs (snd (put x seq))).
  apply IH. apply put_keeps. exact Ha.
Qed.

Lemma fix_each_sets (addrs : list nat) (a : nat) :
  forall seq : file,
    In a addrs -> data (fix_each put addrs seq) !! a = Some v.
Proof.
  induction addrs as [| x addrs IH]; intros seq Hin; [destruct Hin |].
  change (fix_each put (x :: addrs) seq)
    with (fix_each put addrs (snd (put x seq))).
  destruct Hin as [-> | Hin].
  - apply fix_each_keeps. apply put_sets.
  - apply IH. exact Hin.
Qed.

End JumpPhase.

Lemma relative_jumps_fixed_by_jump_types (g : globals) (seq : file) (a : nat) :
  In a (REQJUMP_ADDR g) \/ In a (RLTJUMP_ADDR g) ->
  data (fold_left
          (fun seq '(addr_list, fix_func) => fix_each fix_func addr_list seq)
          (V04.jump_types g) seq) !! a
  = Some xf4.
Proof.
  intros Hin. unfold V04.jump_types. cbn [fold_left].
  change V04.fix_rjump with (fun addr : nat => seekM addr ;;; writeM [xf4]).
  destruct Hin as [Hin | Hin].
  - apply fix_each_keeps. apply fix_each_sets. exact Hin.
  - apply fix_each_sets. exact Hin.
Qed.

(** C3, on both implementations.  The earlier one does what the claim
    says on [FA 00 10 FF]: address 0 is collected and byte 0 becomes 0xFB
    while bytes 1 and 2 stay 00 and 10.  The later one never decodes byte
    0, so nothing is collected and the file is left as it was; and where
    it does decode an equal-jump (at address 1 of [00 FA 00 10 FF 00]) it
    collects the address of the argument, so the opcode stays and the high
    byte of the target is overwritten. *)
Theorem jump_scenario_FA_00_10_FF (value : volume) (version : SeqVersion) :
  EQJUMP_ADDR (PARSE_SEQ_lists version [xfa; x00; x10; xff]) = [0%nat]
  /\ fst (V02.main (mkArgParser value true version) []
            [xfa; x00; x10; xff] module_load)
     = (Done, mkfile [xfb; x00; x10; xff] 1)
  /\ V04.parse_seq version (open [xfa; x00; x10; xff]) module_load
     = (Raised TypeError,
        mkpstate (mkfile [xfa; x00; x10; xff] 4) 3
          (mkglobals ["  testchan        @0001: 00"] [] [] [] [] [] [] [] []))
  /\ fst (V04.main (mkArgParser value true version) []
            [xfa; x00; x10; xff] module_load)
     = (Done, mkfile [xfa; x00; x10; xff] 4)
  /\ EQJUMP_ADDR (parse_seq_lists version [x00; xfa; x00; x10; xff; x00])
     = [2%nat]
  /\ fst (V04.main (mkArgParser value true version) []
            [x00; xfa; x00; x10; xff; x00] module_load)
     = (Done, mkfile [x00; xfa; xfb; x10; xff; x00] 3).
Proof. destruct version; repeat split; vm_compute; reflexivity. Qed.

(* ===================================================================== *)
(** ** Decoding reads only and always ends *)
(* ===================================================================== *)

(** The number of bytes a format describes. *)
Fixpoint calcsize (fmt : list field) : nat :=
  match fmt with
  | [] => 0
  | B :: fmt' => 1 + calcsize fmt'
  | H :: fmt' => 2 + calcsize fmt'
  end.

Lemma unpack_length (fmt : list field) :
  forall (bs : list byte) (vs : list Z),
    unpack fmt bs = Ok vs -> length bs = calcsize fmt.
Proof.
  induction fmt as [| [] fmt IH]; intros bs vs Hok.
  - destruct bs; [reflexivity | discriminate].
  - destruct bs as [| b bs]; [discriminate |]. simpl in Hok.
    destruct (unpack fmt bs) as [vs' |] eqn:E; [| discriminate].
    simpl. rewrite (IH bs vs' E). reflexivity.
  - destruct bs as [| b0 [| b1 bs]]; try discriminate. simpl in Hok.
    destruct (unpack fmt bs) as [vs' |] eqn:E; [| discriminate].
    simpl. rewrite (IH bs vs' E). reflexivity.
Qed.

(** What all the readers do: seek [offset], read [n] bytes, unpack them. *)
Definition seek_read_unpack (offset n : nat) (fmt : list field) : M (list Z) :=
  seekM offset ;;; bs <- readM n ;; lift (unpack fmt bs).

Lemma seek_read_unpack_spec (offset n : nat) (fmt : list field) (seq : file) :
  data (snd (seek_read_unpack offset n fmt seq)) = data seq
  /\ forall vs : list Z,
       fst (seek_read_unpack offset n fmt seq) = Ok vs ->
       cursor (snd (seek_read_unpack offset n fmt seq)) = (offset + calcsize fmt)%nat.
Proof.
  unfold seek_read_unpack, bind, seekM, readM, lift, read, seek.
  cbn [data cursor fst snd].
  destruct (unpack fmt _) as [vs' |] eqn:E; cbn [fst snd data cursor].
  - split; [reflexivity |]. intros vs _.
    rewrite (unpack_length _ _ _ E). reflexivity.
  - split; [reflexivity | discriminate].
Qed.

(** The size each reader of the earlier implementation consumes; for
    [READ_ARGVAR] it is the [n] it returns. *)
Definition OLD_READER_size (r : V02.OLD_READER) (n : option nat) : nat :=
  match r with
  | V02.BY_READ_MSG => 1
  | V02.BY_READ_ARGVAR => match n with Some n => n | None => 0 end
  | V02.BY_READ_U8 => 2
  | V02.BY_READ_U8x2 => 3
  | V02.BY_READ_U8_U16 => 4
  | V02.BY_READ_U16 => 3
  | V02.BY_READ_S16_U8 => 4
  end%nat.

Ltac reader_cases :=
  repeat match goal with
         | |- context [unpack ?fmt ?bs] =>
             let E := fresh "E" in
             destruct (unpack fmt bs) eqn:E; cbn [fst snd data cursor]
         | |- context [if ?c then _ else _] => destruct c
         end.

Lemma OLD_READER_call_spec (r : V02.OLD_READER) (addr : nat) (seq : file) :
  data (snd (V02.OLD_READER_call r addr seq)) = data seq
  /\ forall m n arg_addrs,
       fst (V02.OLD_READER_call r addr seq) = Ok (m, n, arg_addrs) ->
       cursor (snd (V02.OLD_READER_call r addr seq))
       = (addr + OLD_READER_size r n)%nat
       /\ (r = V02.BY_READ_ARGVAR -> exists k, n = Some k /\ (2 <= k <= 3)%nat).
Proof.
  destruct r;
    unfold V02.OLD_READER_call, V02.READ_MSG, V02.READ_ARGVAR, V02.READ_U8,
      V02.READ_U8x2, V02.READ_U8_U16, V02.READ_U16, V02.READ_S16_U8,
      V02.SEEK_ADDR, bind, seekM, tellM, readM, lift, ret, read, seek, tell;
    cbn [data cursor fst snd];
    reader_cases;
    (split; [reflexivity |]); intros m n arg_addrs Hok;
    try discriminate Hok.
  all: injection Hok as <- <- <-.
  all: cbn [data cursor] in *.
  all: match goal with
       | E : unpack _ _ = Ok _ |- _ => rewrite (unpack_length _ _ _ E)
       end.
  all: split; [reflexivity |].
  all: intros Hr; try discriminate Hr.
  all: eexists; (split; [reflexivity | simpl; lia]).
Qed.

(** The state a pass of the loop body ends in, however it ends. *)
Definition flow_state (fl : flow) : pstate :=
  match fl with
  | Next st | Break st | Throw _ st => st
  end.

(** An arm is sound for the cursor arithmetic when it moves [pos] forward,
    and by no more than two bytes past what its reader consumed. *)
Definition branch_steps_ok (b : V02.branch) : bool :=
  V02.br_break b
  || match V02.br_step b, V02.br_read b with
     | None, V02.BY_READ_ARGVAR => true
     | None, _ => false
     | Some _, V02.BY_READ_ARGVAR => false
     | Some k, r => ((1 <=? k) && (k <=? OLD_READER_size r None + 2))%nat
     end.

Lemma PARSE_SEQ_arm_steps (version : SeqVersion) (x : byte) :
  match V02.PARSE_SEQ_arm version [x] with
  | V02.arm_msg b => branch_steps_ok b = true
  | V02.arm_unk _ k => k = 3%nat
  | V02.arm_else => True
  end.
Proof. destruct x, version; vm_compute; trivial. Qed.

Lemma PARSE_SEQ_arm_nil (version : SeqVersion) :
  V02.PARSE_SEQ_arm version [] = V02.arm_else.
Proof. destruct version; reflexivity. Qed.

Lemma PARSE_SEQ_branch_spec (b : V02.branch) (st : pstate) :
  data (st_seq (flow_state (V02.PARSE_SEQ_branch b st))) = data (st_seq st)
  /\ forall st' : pstate,
       V02.PARSE_SEQ_branch b st = Next st' ->
       branch_steps_ok b = true ->
       exists size k : nat,
         cursor (st_seq st') = (cursor (st_seq st) - 1 + size)%nat
         /\ st_pos st' = (st_pos st + k)%nat
         /\ (1 <= k <= size + 2)%nat.
Proof.
  unfold V02.PARSE_SEQ_branch, tell.
  pose proof (OLD_READER_call_spec (V02.br_read b)
                (cursor (st_seq st) - 1) (st_seq st)) as [Hdata Hcur].
  destruct (V02.OLD_READER_call _ _ _) as [[[[m n] arg_addrs] | e] seq'];
    cbn [fst snd] in *.
  - destruct (V02.br_break b) eqn:Hbreak; cbn [flow_state st_seq].
    + split; [exact Hdata | discriminate].
    + split; [exact Hdata |]. intros st' [= <-] Hok. cbn [st_seq st_pos].
      destruct (Hcur m n arg_addrs eq_refl) as [Hc Hvar].
      unfold branch_steps_ok in Hok. rewrite Hbreak in Hok. cbn [orb] in Hok.
      exists (OLD_READER_size (V02.br_read b) n).
      destruct (V02.br_step b) as [k |], (V02.br_read b) eqn:Hr;
        try discriminate Hok;
        try (exists k; apply andb_prop in Hok as [H1%Nat.leb_le H2%Nat.leb_le];
             cbn [OLD_READER_size] in *; repeat split; solve [assumption | lia]).
      destruct (Hvar eq_refl) as (k & -> & Hk).
      exists k. cbn [OLD_READER_size]. repeat split; solve [assumption | lia].
  - cbn [flow_state st_seq]. split; [exact Hdata | discriminate].
Qed.

Lemma PARSE_SEQ_body_spec (version : SeqVersion) (st : pstate) :
  data (st_seq (flow_state (V02.PARSE_SEQ_body version st))) = data (st_seq st)
  /\ forall st' : pstate,
       V02.PARSE_SEQ_body version st = Next st' ->
       (st_pos st + 1 <= st_pos st')%nat
       /\ ((st_pos st' <= cursor (st_seq st') + 2)%nat
           \/ (length (data (st_seq st)) <= cursor (st_seq st'))%nat).
Proof.
  destruct st as [[d c] pos g].
  unfold V02.PARSE_SEQ_body, seek. cbn [st_seq st_pos st_G data].
  destruct (d !! pos) as [x |] eqn:Hx.
  - rewrite (read_1 d pos x Hx).
    pose proof (PARSE_SEQ_arm_steps version x) as Harm.
    destruct (V02.PARSE_SEQ_arm version [x]) as [b | s k |].
    + destruct (PARSE_SEQ_branch_spec b (mkpstate (mkfile d (pos + 1)) pos g))
        as [Hdata Hnext].
      split; [exact Hdata |]. intros st' Hst'.
      destruct (Hnext st' Hst' Harm) as (size & k & Hc & Hp & Hk).
      cbn [st_seq st_pos cursor] in Hc, Hp. lia.
    + subst k. cbn [flow_state st_seq st_pos data cursor].
      split; [reflexivity |]. intros st' [= <-]. cbn [st_seq st_pos cursor]. lia.
    + cbn [flow_state st_seq st_pos data cursor].
      split; [reflexivity |]. intros st' [= <-]. cbn [st_seq st_pos cursor]. lia.
  - apply lookup_ge_None_1 in Hx.
    rewrite (read_1_end d pos Hx), PARSE_SEQ_arm_nil.
    cbn [flow_state st_seq st_pos data cursor].
    split; [reflexivity |]. intros st' [= <-]. cbn [st_seq st_pos cursor]. lia.
Qed.

Lemma PARSE_SEQ_loop_spec (version : SeqVersion) (fuel : nat) :
  forall st : pstate,
    data (st_seq (snd (V02.PARSE_SEQ_loop fuel version st))) = data (st_seq st)
    /\ ((st_pos st <= cursor (st_seq st) + 2)%nat
        \/ (length (data (st_seq st)) <= cursor (st_seq st))%nat ->
        (1 <= fuel)%nat ->
        ((cursor (st_seq st) < length (data (st_seq st)))%nat ->
         (length (data (st_seq st)) + 3 <= fuel + st_pos st)%nat) ->
        fst (V02.PARSE_SEQ_loop fuel version st) <> OutOfFuel).
Proof.
  induction fuel as [| fuel IH]; intros [[d c] pos g].
  - split; [reflexivity | intros _ Hf; lia].
  - rewrite PARSE_SEQ_loop_S. cbn [st_seq st_pos st_G data cursor].
    destruct (d !! c) as [x |] eqn:Hx.
    + rewrite (read_1 d c x Hx). cbv iota beta.
      pose proof (lookup_lt_Some _ _ _ Hx) as Hlt.
      destruct (PARSE_SEQ_body_spec version (mkpstate (mkfile d (c + 1)) pos g))
        as [Hdata Hnext].
      destruct (V02.PARSE_SEQ_body version _) as [st' | st' | e st'];
        cbn [flow_state st_seq data fst snd] in *.
      * destruct (Hnext st' eq_refl) as [Hpos Hinv].
        cbn [st_seq st_pos data cursor] in Hpos, Hinv.
        destruct (IH st') as [IHdata IHfuel].
        split; [rewrite IHdata; exact Hdata |].
        intros Hi _ Hbound. specialize (Hbound Hlt).
        rewrite Hdata in IHfuel. apply IHfuel; [exact Hinv | lia | lia].
      * split; [exact Hdata | discriminate].
      * split; [exact Hdata | discriminate].
    + apply lookup_ge_None_1 in Hx. rewrite (read_1_end d c Hx).
      cbn [fst snd st_seq data]. split; [reflexivity | discriminate].
Qed.

(** X1. The earlier decoder comes to an end on every file, for either
    game and whatever the lists held before: the loop of [PARSE_SEQ] stops
    at the end message, at the end of the file or on an exception, within
    three passes more than the file has bytes.  And it never writes: the
    bytes of the file are afterwards what they were. *)
Lemma PARSE_SEQ_terminates (version : SeqVersion) (seq : file) (g : globals) :
  fst (V02.PARSE_SEQ version seq g) <> OutOfFuel
  /\ data (st_seq (snd (V02.PARSE_SEQ version seq g))) = data seq.
Proof.
  unfold V02.PARSE_SEQ.
  destruct (read seq 1) as [byte seq1] eqn:Hread.
  assert (Hd : data seq1 = data seq).
  { unfold read in Hread. injection Hread as _ <-. reflexivity. }
  destruct (PARSE_SEQ_loop_spec version (length (data seq1) + 3)
              (mkpstate seq1 0 g)) as [Hdata Hfuel].
  cbn [st_seq st_pos] in *. split.
  - apply Hfuel; lia.
  - rewrite Hdata. exact Hd.
Qed.

Lemma call_spec (f : V04.callable) (pos : nat) (arglen : Z) (seq : file) :
  data (snd (V04.call f pos arglen seq)) = data seq
  /\ forall md : V04.MessageData,
       fst (V04.call f pos arglen seq) = Ok (V04.a_MessageData md) ->
       (pos + 1 <= cursor (snd (V04.call f pos arglen seq)))%nat.
Proof.
  destruct f;
    unfold V04.call, V04.read_msg, V04.read_argvar, V04.read_u8,
      V04.read_u8x2, V04.read_u8_u16, V04.read_u16, V04.read_s16_u8,
      V04.seek_addr, bind, seekM, tellM, readM, lift, ret, read, seek, tell;
    cbn [data cursor fst snd];
    reader_cases;
    (split; [reflexivity |]); intros md Hok;
    try discriminate Hok.
  all: cbn [data cursor] in *.
  all: match goal with
       | E : unpack _ _ = Ok _ |- _ => rewrite (unpack_length _ _ _ E)
       end.
  all: simpl; lia.
Qed.

(** The part of the later loop body that reads: the length byte, then the
    reader the table names. *)
Definition parse_seq_call (f : V04.callable) (pos : nat) : M V04.returned :=
  seekM (pos + 1) ;;;
  bs <- readM 1 ;;
  arglen <- lift (ord bs) ;;
  V04.call f pos arglen.

Lemma parse_seq_call_eq (f : V04.callable) (pos : nat) (seq : file) :
  parse_seq_call f pos seq
  = match ord (fst (read (seek seq (pos + 1)) 1)) with
    | Ok arglen => V04.call f pos arglen (snd (read (seek seq (pos + 1)) 1))
    | Raise e => (Raise e, snd (read (seek seq (pos + 1)) 1))
    end.
Proof. reflexivity. Qed.

Lemma parse_seq_call_spec (f : V04.callable) (pos : nat) (seq : file) :
  data (snd (parse_seq_call f pos seq)) = data seq
  /\ forall md : V04.MessageData,
       fst (parse_seq_call f pos seq) = Ok (V04.a_MessageData md) ->
       (pos + 1 <= cursor (snd (parse_seq_call f pos seq)))%nat.
Proof.
  rewrite parse_seq_call_eq.
  destruct (ord _) as [arglen | e].
  - destruct (call_spec f pos arglen (snd (read (seek seq (pos + 1)) 1)))
      as [Hdata Hcur].
    split; [rewrite Hdata; reflexivity | exact Hcur].
  - split; [reflexivity | discriminate].
Qed.

Lemma parse_seq_body_spec (version : SeqVersion) (byte : list byte)
  (st : pstate) :
  data (st_seq (flow_state (V04.parse_seq_body version byte st)))
  = data (st_seq st)
  /\ forall st' : pstate,
       V04.parse_seq_body version byte st = Next st' ->
       (cursor (st_seq st) <= cursor (st_seq st'))%nat.
Proof.
  destruct st as [[d c] p g].
  unfold V04.parse_seq_body, tell. cbn [st_seq st_pos st_G data cursor].
  destruct (V04.SEQ_MESSAGES _) as [msg |];
    [| cbn [flow_state st_seq data cursor]; split;
       [reflexivity | intros st' [= <-]; cbn [st_seq cursor]; lia]].
  destruct (match V04.version_check msg with
            | Some v => negb (SeqVersion_eqb v version)
            | None => false
            end);
    [cbn [flow_state st_seq data cursor]; split;
     [reflexivity | intros st' [= <-]; cbn [st_seq cursor]; lia] |].
  change ((seekM (c - 1 + 1) ;;;
           bs <- readM 1 ;;
           arglen <- lift (ord bs) ;;
           V04.call (V04.read_func msg) (c - 1) arglen) (mkfile d c))
    with (parse_seq_call (V04.read_func msg) (c - 1) (mkfile d c)).
  destruct (parse_seq_call_spec (V04.read_func msg) (c - 1) (mkfile d c))
    as [Hdata Hcur].
  destruct (parse_seq_call _ _ _) as [[[md |] | e] seq'];
    cbn [fst snd data] in *.
  - destruct (_ =? 0xFF); cbn [flow_state st_seq]; (split; [exact Hdata |]).
    + discriminate.
    + intros st' [= <-]. cbn [st_seq]. specialize (Hcur md eq_refl). lia.
  - cbn [flow_state st_seq]. split; [exact Hdata | discriminate].
  - cbn [flow_state st_seq]. split; [exact Hdata | discriminate].
Qed.

Lemma parse_seq_loop_spec (version : SeqVersion) (fuel : nat) :
  forall st : pstate,
    data (st_seq (snd (V04.parse_seq_loop fuel version st))) = data (st_seq st)
    /\ ((length (data (st_seq st)) - cursor (st_seq st) + 1 <= fuel)%nat ->
        fst (V04.parse_seq_loop fuel version st) <> OutOfFuel).
Proof.
  induction fuel as [| fuel IH]; intros [[d c] p g].
  - split; [reflexivity | intros Hf; lia].
  - rewrite parse_seq_loop_S. cbn [st_seq st_pos st_G data cursor].
    destruct (d !! c) as [x |] eqn:Hx.
    + rewrite (read_1 d c x Hx). cbv iota beta.
      pose proof (lookup_lt_Some _ _ _ Hx) as Hlt.
      destruct (parse_seq_body_spec version [x]
                  (mkpstate (mkfile d (c + 1)) p g)) as [Hdata Hnext].
      destruct (V04.parse_seq_body version _ _) as [st' | st' | e st'];
        cbn [flow_state st_seq data fst snd] in *.
      * specialize (Hnext st' eq_refl). cbn [st_seq cursor] in Hnext.
        destruct (IH st') as [IHdata IHfuel].
        split; [rewrite IHdata; exact Hdata |].
        intros Hbound. rewrite Hdata in IHfuel. apply IHfuel. lia.
      * split; [exact Hdata | discriminate].
      * split; [exact Hdata | discriminate].
    + apply lookup_ge_None_1 in Hx. rewrite (read_1_end d c Hx).
      cbn [fst snd st_seq data]. split; [reflexivity | discriminate].
Qed.

(** X2. The later decoder comes to an end on every file, for either game
    and whatever the lists held before: the loop of [parse_seq] stops at
    the end message, at the end of the file or on an exception, within one
    pass more than the file has bytes.  And it never writes: the bytes of
    the file are afterwards what they were. *)
Lemma parse_seq_terminates (version : SeqVersion) (seq : file) (g : globals) :
  fst (V04.parse_seq version seq g) <> OutOfFuel
  /\ data (st_seq (snd (V04.parse_seq version seq g))) = data seq.
Proof.
  unfold V04.parse_seq.
  destruct (read seq 1) as [byte seq1] eqn:Hread.
  assert (Hd : data seq1 = data seq).
  { unfold read in Hread. injection Hread as _ <-. reflexivity. }
  destruct (parse_seq_loop_spec version (length (data seq1) + 1)
              (mkpstate seq1 0 g)) as [Hdata Hfuel].
  cbn [st_seq st_pos] in *. split.
  - apply Hfuel. lia.
  - rewrite Hdata. exact Hd.
Qed.

(* ===================================================================== *)
(** ** The mutation phase: what is written, and where *)
(* ===================================================================== *)

(** [seq.seek(addr); seq.write(bytes([v]))], the shape of every write the
    two programs make. *)
Definition patch_at (v : byte) (addr : nat) : M unit := seekM addr ;;; writeM [v].

Lemma patch_at_data (v : byte) (addr : nat) (seq : file) :
  (addr < length (data seq))%nat ->
  data (snd (patch_at v addr seq)) = <[addr := v]> (data seq).
Proof.
  intros Hlt. unfold patch_at, bind, seekM, writeM, write, write_byte; simpl.
  destruct (Nat.ltb_spec addr (length (data seq))) as [_ | Hge]; [reflexivity | lia].
Qed.

(** [seq'] differs from [seq] at most at the addresses in [addrs], and is
    as long. *)
Definition edits_within (addrs : list nat) (seq seq' : file) : Prop :=
  length (data seq') = length (data seq)
  /\ forall i : nat, ~ In i addrs -> data seq' !! i = data seq !! i.

Lemma edits_within_refl (addrs : list nat) (seq : file) :
  edits_within addrs seq seq.
Proof. split; [reflexivity | intros; reflexivity]. Qed.

Lemma edits_within_trans (addrs : list nat) (s1 s2 s3 : file) :
  edits_within addrs s1 s2 -> edits_within addrs s2 s3 ->
  edits_within addrs s1 s3.
Proof.
  intros [L1 F1] [L2 F2]. split; [congruence |].
  intros i Hi. rewrite (F2 i Hi). apply F1, Hi.
Qed.

Lemma edits_within_mono (addrs addrs' : list nat) (seq seq' : file) :
  (forall a, In a addrs -> In a addrs') ->
  edits_within addrs seq seq' -> edits_within addrs' seq seq'.
Proof.
  intros Hsub [L F]. split; [exact L |].
  intros i Hi. apply F. intros Hin. apply Hi, Hsub, Hin.
Qed.

Lemma patch_at_within (v : byte) (addr : nat) (seq : file) :
  (addr < length (data seq))%nat ->
  edits_within [addr] seq (snd (patch_at v addr seq)).
Proof.
  intros Hlt. unfold edits_within. rewrite (patch_at_data v addr seq Hlt).
  split; [apply length_insert |].
  intros i Hi. apply list_lookup_insert_ne. intros ->. apply Hi. left. reflexivity.
Qed.

Lemma fix_each_cons (fix_func : nat -> M unit) (x : nat) (addrs : list nat)
  (seq : file) :
  fix_each fix_func (x :: addrs) seq = fix_each fix_func addrs (snd (fix_func x seq)).
Proof. reflexivity. Qed.

Lemma fix_each_within (v : byte) (addrs : list nat) :
  forall seq : file,
    Forall (fun a => a < length (data seq))%nat addrs ->
    edits_within addrs seq (fix_each (patch_at v) addrs seq).
Proof.
  induction addrs as [| x addrs IH]; intros seq Hall.
  - apply edits_within_refl.
  - rewrite fix_each_cons.
    apply Forall_cons in Hall as [Hx Hall].
    pose proof (patch_at_within v x seq Hx) as H1.
    assert (Hall' : Forall (fun a => a < length (data (snd (patch_at v x seq))))%nat addrs).
    { destruct H1 as [-> _]. exact Hall. }
    apply (edits_within_trans _ seq (snd (patch_at v x seq))).
    + apply (edits_within_mono [x]); [| exact H1].
      intros a [-> | []]. left. reflexivity.
    + apply (edits_within_mono addrs); [| apply IH; exact Hall'].
      intros a Ha. right. exact Ha.
Qed.

Lemma fix_each_holds (v : byte) (addrs : list nat) (a : nat) :
  forall seq : file,
    In a addrs -> data (fix_each (patch_at v) addrs seq) !! a = Some v.
Proof. intros seq. apply (fix_each_sets v addrs a seq). Qed.

(** Both conversions return one byte when they return. *)
Lemma to_bytes1_one (n : Z) (bs : list byte) :
  to_bytes1 n = Ok bs -> exists b : byte, bs = [b] /\ byte_val b = n.
Proof.
  unfold to_bytes1. destruct (Z.ltb_spec n 0) as [| Hn]; [discriminate |].
  destruct (Byte.of_N (Z.to_N n)) as [b |] eqn:E; [| discriminate].
  intros [= <-]. exists b. split; [reflexivity |].
  unfold byte_val. apply Byte.to_of_N in E. lia.
Qed.

Lemma CHECK_INPUT_one (value : volume) (bs : list byte) :
  V02.CHECK_INPUT value = Ok bs -> exists b : byte, bs = [b].
Proof.
  destruct value as [f | z]; simpl.
  - destruct (math_ceil _) as [n | e]; [| discriminate].
    intros H. destruct (to_bytes1_one n bs H) as (b & -> & _). exists b. reflexivity.
  - intros H. destruct (to_bytes1_one z bs H) as (b & -> & _). exists b. reflexivity.
Qed.

Lemma CONVERT_INPUT_one (manual_vol : line) (bs : list byte) :
  V02.CONVERT_INPUT manual_vol = Some bs -> exists b : byte, bs = [b].
Proof.
  destruct manual_vol as [| | | | [f | z] |]; simpl; try discriminate.
  - destruct (math_ceil _) as [n | e]; [| discriminate].
    destruct (to_bytes1 n) as [bs' |] eqn:E; [| discriminate].
    intros [= <-]. destruct (to_bytes1_one n bs' E) as (b & -> & _).
    exists b. reflexivity.
  - destruct (to_bytes1 z) as [bs' |] eqn:E; [| discriminate].
    intros [= <-]. destruct (to_bytes1_one z bs' E) as (b & -> & _).
    exists b. reflexivity.
Qed.

(** The automatic edit, once the argument converts. *)
Lemma AUTO_SEQ_EDIT_for_ok (ARG_PARSER : ArgParser) (b : byte) (addrs : list nat) :
  V02.CHECK_INPUT (value ARG_PARSER) = Ok [b] ->
  forall seq : file,
    V02.AUTO_SEQ_EDIT_for ARG_PARSER addrs seq
    = (Done, fix_each (patch_at b) addrs seq).
Proof.
  intros Hconv. induction addrs as [| x addrs IH]; intros seq; [reflexivity |].
  cbn [V02.AUTO_SEQ_EDIT_for]. rewrite Hconv. rewrite IH. reflexivity.
Qed.

Lemma AUTO_SEQ_EDIT_for_fails (ARG_PARSER : ArgParser) (e : exn) (x : nat)
  (addrs : list nat) (seq : file) :
  V02.CHECK_INPUT (value ARG_PARSER) = Raise e ->
  V02.AUTO_SEQ_EDIT_for ARG_PARSER (x :: addrs) seq = (Failed e, seq).
Proof. intros Hconv. cbn [V02.AUTO_SEQ_EDIT_for]. rewrite Hconv. reflexivity. Qed.

(** The two implementations edit alike. *)
Lemma auto_seq_edit_for_eq (ARG_PARSER : ArgParser) (addrs : list nat) :
  forall seq : file,
    V04.auto_seq_edit_for ARG_PARSER addrs seq
    = V02.AUTO_SEQ_EDIT_for ARG_PARSER addrs seq.
Proof.
  induction addrs as [| x addrs IH]; intros seq; [reflexivity |].
  cbn [V04.auto_seq_edit_for V02.AUTO_SEQ_EDIT_for].
  change (V04.check_input (value ARG_PARSER))
    with (V02.CHECK_INPUT (value ARG_PARSER)).
  destruct (V02.CHECK_INPUT (value ARG_PARSER)); [apply IH | reflexivity].
Qed.

Lemma manual_seq_edit_prompt_eq (addr : nat) (stdin : list line) :
  forall seq : file,
    V04.manual_seq_edit_prompt addr stdin seq
    = V02.MANUAL_SEQ_EDIT_prompt addr stdin seq.
Proof.
  induction stdin as [| l stdin IH]; intros seq; [reflexivity |].
  cbn [V04.manual_seq_edit_prompt V02.MANUAL_SEQ_EDIT_prompt].
  change (V04.convert_input l) with (V02.CONVERT_INPUT l).
  destruct l; try reflexivity;
    destruct (V02.CONVERT_INPUT _); try reflexivity; apply IH.
Qed.

Lemma manual_seq_edit_for_eq (addrs : list nat) :
  forall (stdin : list line) (seq : file),
    V04.manual_seq_edit_for addrs stdin seq
    = V02.MANUAL_SEQ_EDIT_for addrs stdin seq.
Proof.
  induction addrs as [| x addrs IH]; intros stdin seq; [reflexivity |].
  cbn [V04.manual_seq_edit_for V02.MANUAL_SEQ_EDIT_for].
  rewrite manual_seq_edit_prompt_eq.
  destruct (V02.MANUAL_SEQ_EDIT_prompt x stdin seq) as [[[] seq'] stdin'];
    [apply IH | reflexivity | reflexivity].
Qed.

Lemma main_answer_eq (ARG_PARSER : ArgParser) (g : globals) (stdin : list line) :
  forall seq : file,
    V04.main_answer ARG_PARSER g stdin seq
    = V02.main_answer ARG_PARSER g stdin seq.
Proof.
  induction stdin as [| l stdin IH]; intros seq; [reflexivity |].
  cbn [V04.main_answer V02.main_answer].
  destruct l; try apply IH; reflexivity.
Qed.

Lemma AUTO_SEQ_EDIT_for_within (ARG_PARSER : ArgParser) (addrs : list nat)
  (seq : file) :
  Forall (fun a => a < length (data seq))%nat addrs ->
  edits_within addrs seq (snd (V02.AUTO_SEQ_EDIT_for ARG_PARSER addrs seq)).
Proof.
  intros Hall.
  destruct (V02.CHECK_INPUT (value ARG_PARSER)) as [bs | e] eqn:Hconv.
  - destruct (CHECK_INPUT_one _ _ Hconv) as [b ->].
    rewrite (AUTO_SEQ_EDIT_for_ok ARG_PARSER b addrs Hconv).
    apply fix_each_within. exact Hall.
  - destruct addrs as [| x addrs]; [apply edits_within_refl |].
    rewrite (AUTO_SEQ_EDIT_for_fails ARG_PARSER e x addrs seq Hconv).
    apply edits_within_refl.
Qed.

Lemma MANUAL_SEQ_EDIT_prompt_within (addr : nat) (stdin : list line) :
  forall seq : file,
    (addr < length (data seq))%nat ->
    edits_within [addr] seq (snd (fst (V02.MANUAL_SEQ_EDIT_prompt addr stdin seq))).
Proof.
  induction stdin as [| l stdin IH]; intros seq Hlt; [apply edits_within_refl |].
  cbn [V02.MANUAL_SEQ_EDIT_prompt].
  assert (Hconv :
    edits_within [addr] seq
      (snd (fst (match V02.CONVERT_INPUT l with
                 | Some input_vol =>
                     (Done, snd (V02.WRITE_BIN addr input_vol seq), stdin)
                 | None => V02.MANUAL_SEQ_EDIT_prompt addr stdin seq
                 end)))).
  { destruct (V02.CONVERT_INPUT l) as [bs |] eqn:E; [| apply IH; exact Hlt].
    destruct (CONVERT_INPUT_one _ _ E) as [b ->]. cbn [fst snd].
    apply (patch_at_within b addr seq Hlt). }
  destruct l; try exact Hconv. apply edits_within_refl.
Qed.

Lemma MANUAL_SEQ_EDIT_for_within (addrs : list nat) :
  forall (stdin : list line) (seq : file),
    Forall (fun a => a < length (data seq))%nat addrs ->
    edits_within addrs seq (snd (fst (V02.MANUAL_SEQ_EDIT_for addrs stdin seq))).
Proof.
  induction addrs as [| x addrs IH]; intros stdin seq Hall;
    [apply edits_within_refl |].
  cbn [V02.MANUAL_SEQ_EDIT_for].
  apply Forall_cons in Hall as [Hx Hall].
  pose proof (MANUAL_SEQ_EDIT_prompt_within x stdin seq Hx) as H1.
  assert (H1' : edits_within (x :: addrs) seq
                  (snd (fst (V02.MANUAL_SEQ_EDIT_prompt x stdin seq)))).
  { apply (edits_within_mono [x]); [| exact H1].
    intros a [-> | []]. left. reflexivity. }
  destruct (V02.MANUAL_SEQ_EDIT_prompt x stdin seq) as [[fin seq'] stdin'].
  cbn [fst snd] in *.
  destruct fin; try exact H1'.
  apply (edits_within_trans _ seq seq'); [exact H1' |].
  apply (edits_within_mono addrs); [intros a Ha; right; exact Ha |].
  apply IH. destruct H1 as [-> _]. exact Hall.
Qed.

Lemma main_answer_within (ARG_PARSER : ArgParser) (g : globals)
  (stdin : list line) :
  forall seq : file,
    Forall (fun a => a < length (data seq))%nat (MSTR_VOL_ADDR g) ->
    edits_within (MSTR_VOL_ADDR g) seq
      (snd (fst (V02.main_answer ARG_PARSER g stdin seq))).
Proof.
  induction stdin as [| l stdin IH]; intros seq Hall; [apply edits_within_refl |].
  cbn [V02.main_answer].
  destruct l; try (apply IH; exact Hall); try apply edits_within_refl.
  - unfold V02.AUTO_SEQ_EDIT.
    pose proof (AUTO_SEQ_EDIT_for_within ARG_PARSER (MSTR_VOL_ADDR g) seq Hall) as H.
    destruct (V02.AUTO_SEQ_EDIT_for _ _ _) as [fin seq']. exact H.
  - unfold V02.MANUAL_SEQ_EDIT. apply MANUAL_SEQ_EDIT_for_within. exact Hall.
Qed.

(* ===================================================================== *)
(** ** Collected addresses lie inside the file *)
(* ===================================================================== *)

(** Every address held by the module-level lists. *)
Definition all_addrs (g : globals) : list nat :=
  MSTR_VOL_ADDR g ++ JUMP_ADDR g ++ EQJUMP_ADDR g ++ LTJUMP_ADDR g
  ++ GTEQJUMP_ADDR g ++ RJUMP_ADDR g ++ REQJUMP_ADDR g ++ RLTJUMP_ADDR g.

Definition addrs_below (n : nat) (g : globals) : Prop :=
  Forall (fun a => a < n)%nat (all_addrs g).

Lemma addrs_below_module_load (n : nat) : addrs_below n module_load.
Proof. constructor. Qed.

Lemma addrs_below_addr_append (l : addr_list) (a n : nat) (g : globals) :
  addrs_below n g -> (a < n)%nat -> addrs_below n (addr_append l a g).
Proof.
  unfold addrs_below, all_addrs. intros Hg Ha.
  destruct l; cbn [addr_append MSTR_VOL_ADDR JUMP_ADDR EQJUMP_ADDR LTJUMP_ADDR
                     GTEQJUMP_ADDR RJUMP_ADDR REQJUMP_ADDR RLTJUMP_ADDR];
    rewrite !Forall_app in *; rewrite ?Forall_app;
    repeat match goal with
           | H : _ /\ _ |- _ => destruct H
           end;
    repeat split; try assumption;
    (apply Forall_cons_2; [exact Ha | apply Forall_nil_2]).
Qed.

Lemma addrs_below_lists (n : nat) (g : globals) :
  addrs_below n g ->
  Forall (fun a => a < n)%nat (MSTR_VOL_ADDR g)
  /\ Forall (fun a => a < n)%nat (EQJUMP_ADDR g)
  /\ Forall (fun a => a < n)%nat (LTJUMP_ADDR g)
  /\ Forall (fun a => a < n)%nat (GTEQJUMP_ADDR g)
  /\ Forall (fun a => a < n)%nat (REQJUMP_ADDR g)
  /\ Forall (fun a => a < n)%nat (RLTJUMP_ADDR g).
Proof.
  unfold addrs_below, all_addrs. rewrite !Forall_app. tauto.
Qed.

(** A reader that returns has found its bytes inside the file, and so lie
    the argument addresses it hands back. *)
Lemma OLD_READER_call_bounds (r : V02.OLD_READER) (addr : nat) (seq : file)
  (m : list Z) (n : option nat) (arg_addrs : list nat) :
  fst (V02.OLD_READER_call r addr seq) = Ok (m, n, arg_addrs) ->
  (addr < length (data seq))%nat
  /\ Forall (fun a => a < length (data seq))%nat arg_addrs.
Proof.
  destruct r;
    unfold V02.OLD_READER_call, V02.READ_MSG, V02.READ_ARGVAR, V02.READ_U8,
      V02.READ_U8x2, V02.READ_U8_U16, V02.READ_U16, V02.READ_S16_U8,
      V02.SEEK_ADDR, bind, seekM, tellM, readM, lift, ret, read, seek, tell;
    cbn [data cursor fst snd];
    reader_cases; intros Hok; try discriminate Hok.
  all: injection Hok as <- <- <-.
  all: match goal with
       | E : unpack _ _ = Ok _ |- _ =>
           pose proof (unpack_length _ _ _ E) as HL;
           rewrite length_take, length_drop in HL; cbn [calcsize data cursor] in HL
       end.
  all: split; [lia | repeat (apply Forall_cons_2; [lia |]); apply Forall_nil_2].
Qed.

Lemma PARSE_SEQ_branch_below (b : V02.branch) (st : pstate) (n : nat) :
  (length (data (st_seq st)) <= n)%nat ->
  addrs_below n (st_G st) ->
  addrs_below n (st_G (flow_state (V02.PARSE_SEQ_branch b st))).
Proof.
  intros Hn Hg. unfold V02.PARSE_SEQ_branch, tell.
  pose proof (OLD_READER_call_bounds (V02.br_read b)
                (cursor (st_seq st) - 1) (st_seq st)) as Hb.
  destruct (V02.OLD_READER_call _ _ _) as [[[[m k] arg_addrs] | e] seq'];
    cbn [fst] in Hb; [| exact Hg].
  destruct (Hb m k arg_addrs eq_refl) as [Haddr Hargs].
  assert (Hg' : addrs_below n
                  (match V02.br_collect b with
                   | Some (l, V02.the_addr) =>
                       addr_append l (cursor (st_seq st) - 1)
                         (output_append
                            (V02.br_open b
                             ++ V02.GET_MSG_STRING
                                  (Z.of_nat (cursor (st_seq st) - 1))
                                  (hd 0 (if V02.br_msg_shown b then m else tl m))
                                  (tl (if V02.br_msg_shown b then m else tl m))
                             ++ V02.br_close b) (st_G st))
                   | Some (l, V02.the_arg_addr) =>
                       addr_append l (hd O arg_addrs)
                         (output_append
                            (V02.br_open b
                             ++ V02.GET_MSG_STRING
                                  (Z.of_nat (cursor (st_seq st) - 1))
                                  (hd 0 (if V02.br_msg_shown b then m else tl m))
                                  (tl (if V02.br_msg_shown b then m else tl m))
                             ++ V02.br_close b) (st_G st))
                   | None =>
                       output_append
                         (V02.br_open b
                          ++ V02.GET_MSG_STRING
                               (Z.of_nat (cursor (st_seq st) - 1))
                               (hd 0 (if V02.br_msg_shown b then m else tl m))
                               (tl (if V02.br_msg_shown b then m else tl m))
                          ++ V02.br_close b) (st_G st)
                   end)).
  { destruct (V02.br_collect b) as [[l []] |]; [| | exact Hg].
    - apply addrs_below_addr_append; [exact Hg | lia].
    - apply addrs_below_addr_append; [exact Hg |].
      destruct Hargs as [| a rest Ha _]; cbn [hd]; lia. }
  destruct (V02.br_break b); exact Hg'.
Qed.

Lemma PARSE_SEQ_body_below (version : SeqVersion) (st : pstate) (n : nat) :
  (length (data (st_seq st)) <= n)%nat ->
  addrs_below n (st_G st) ->
  addrs_below n (st_G (flow_state (V02.PARSE_SEQ_body version st))).
Proof.
  intros Hn Hg. unfold V02.PARSE_SEQ_body.
  destruct (read (seek (st_seq st) (st_pos st)) 1) as [byte seq] eqn:Hread.
  assert (Hd : data seq = data (st_seq st)).
  { unfold read in Hread. injection Hread as _ <-. reflexivity. }
  destruct (V02.PARSE_SEQ_arm version byte) as [b | s k |].
  - apply PARSE_SEQ_branch_below; cbn [st_seq st_G]; [rewrite Hd; exact Hn | exact Hg].
  - exact Hg.
  - exact Hg.
Qed.

Lemma PARSE_SEQ_loop_below (version : SeqVersion) (n fuel : nat) :
  forall st : pstate,
    (length (data (st_seq st)) <= n)%nat ->
    addrs_below n (st_G st) ->
    addrs_below n (st_G (snd (V02.PARSE_SEQ_loop fuel version st))).
Proof.
  induction fuel as [| fuel IH]; intros st Hn Hg; [exact Hg |].
  rewrite PARSE_SEQ_loop_S.
  destruct (read (st_seq st) 1) as [byte seq] eqn:Hread.
  assert (Hd : data seq = data (st_seq st)).
  { unfold read in Hread. injection Hread as _ <-. reflexivity. }
  destruct byte as [| x byte]; [exact Hg |].
  cbv beta iota zeta.
  pose proof (PARSE_SEQ_body_below version
                (mkpstate seq (st_pos st) (st_G st)) n) as Hbody.
  pose proof (PARSE_SEQ_body_spec version
                (mkpstate seq (st_pos st) (st_G st))) as [Hdata _].
  cbn [st_seq st_G] in Hbody, Hdata.
  specialize (Hbody ltac:(rewrite Hd; exact Hn) Hg).
  destruct (V02.PARSE_SEQ_body version _) as [st' | st' | e st'];
    cbn [flow_state snd] in *; try exact Hbody.
  apply IH; [rewrite Hdata, Hd; exact Hn | exact Hbody].
Qed.

(** The later implementation. *)
Lemma call_bounds (f : V04.callable) (pos : nat) (arglen : Z) (seq : file)
  (md : V04.MessageData) :
  fst (V04.call f pos arglen seq) = Ok (V04.a_MessageData md) ->
  (forall a, V04.arg_addr_1 md = Some a -> a < length (data seq))%nat
  /\ (forall a, V04.arg_addr_2 md = Some a -> a < length (data seq))%nat.
Proof.
  destruct f;
    unfold V04.call, V04.read_msg, V04.read_argvar, V04.read_u8,
      V04.read_u8x2, V04.read_u8_u16, V04.read_u16, V04.read_s16_u8,
      V04.seek_addr, bind, seekM, tellM, readM, lift, ret, read, seek, tell;
    cbn [data cursor fst snd];
    reader_cases; intros Hok; try discriminate Hok.
  all: injection Hok as <-.
  all: match goal with
       | E : unpack _ _ = Ok _ |- _ =>
           pose proof (unpack_length _ _ _ E) as HL;
           rewrite length_take, length_drop in HL; cbn [calcsize data cursor] in HL
       end.
  all: cbn [V04.arg_addr_1 V04.arg_addr_2].
  all: split; intros a0 [= <-]; lia.
Qed.

Lemma parse_seq_call_bounds (f : V04.callable) (pos : nat) (seq : file)
  (md : V04.MessageData) :
  fst (parse_seq_call f pos seq) = Ok (V04.a_MessageData md) ->
  (forall a, V04.arg_addr_1 md = Some a -> a < length (data seq))%nat
  /\ (forall a, V04.arg_addr_2 md = Some a -> a < length (data seq))%nat.
Proof.
  rewrite parse_seq_call_eq.
  destruct (ord _) as [arglen | e]; [| discriminate].
  intros Hok. exact (call_bounds f pos arglen _ md Hok).
Qed.

Lemma parse_seq_body_below (version : SeqVersion) (byte : list byte)
  (st : pstate) (n : nat) :
  (length (data (st_seq st)) <= n)%nat ->
  addrs_below n (st_G st) ->
  addrs_below n (st_G (flow_state (V04.parse_seq_body version byte st))).
Proof.
  intros Hn Hg. destruct st as [[d c] p g].
  unfold V04.parse_seq_body, tell. cbn [st_seq st_pos st_G data cursor] in *.
  destruct (V04.SEQ_MESSAGES _) as [msg |]; [| exact Hg].
  destruct (match V04.version_check msg with
            | Some v => negb (SeqVersion_eqb v version)
            | None => false
            end); [exact Hg |].
  change ((seekM (c - 1 + 1) ;;;
           bs <- readM 1 ;;
           arglen <- lift (ord bs) ;;
           V04.call (V04.read_func msg) (c - 1) arglen) (mkfile d c))
    with (parse_seq_call (V04.read_func msg) (c - 1) (mkfile d c)).
  pose proof (parse_seq_call_bounds (V04.read_func msg) (c - 1) (mkfile d c)) as Hb.
  destruct (parse_seq_call _ _ _) as [[[md |] | e] seq'];
    cbn [fst snd data] in *; try exact Hg.
  destruct (Hb md eq_refl) as [H1 H2].
  set (s := (_ ++ _)%string).
  assert (Hg' : addrs_below n
                  (match V04.extra_output_list msg with
                   | Some l =>
                       match V04.arg_addr_2 md with
                       | Some (S a) =>
                           addr_append l (S a)
                             match V04.arg_addr_1 md with
                             | Some a0 => addr_append l a0 (output_append s g)
                             | None => output_append s g
                             end
                       | _ =>
                           match V04.arg_addr_1 md with
                           | Some a0 => addr_append l a0 (output_append s g)
                           | None => output_append s g
                           end
                       end
                   | None => output_append s g
                   end)).
  { assert (Hg1 : forall l, addrs_below n
                    match V04.arg_addr_1 md with
                    | Some a0 => addr_append l a0 (output_append s g)
                    | None => output_append s g
                    end).
    { intros l. destruct (V04.arg_addr_1 md) as [a1 |]; [| exact Hg].
      apply addrs_below_addr_append; [exact Hg |].
      specialize (H1 a1 eq_refl). lia. }
    destruct (V04.extra_output_list msg) as [l |]; [| exact Hg].
    destruct (V04.arg_addr_2 md) as [[| a2] |]; try apply Hg1.
    apply addrs_below_addr_append; [apply Hg1 |].
    specialize (H2 (S a2) eq_refl). lia. }
  destruct (_ =? 0xFF); exact Hg'.
Qed.

Lemma parse_seq_loop_below (version : SeqVersion) (n fuel : nat) :
  forall st : pstate,
    (length (data (st_seq st)) <= n)%nat ->
    addrs_below n (st_G st) ->
    addrs_below n (st_G (snd (V04.parse_seq_loop fuel version st))).
Proof.
  induction fuel as [| fuel IH]; intros st Hn Hg; [exact Hg |].
  rewrite parse_seq_loop_S.
  destruct (read (st_seq st) 1) as [byte seq] eqn:Hread.
  assert (Hd : data seq = data (st_seq st)).
  { unfold read in Hread. injection Hread as _ <-. reflexivity. }
  destruct byte as [| x byte]; [exact Hg |].
  cbv beta iota zeta.
  pose proof (parse_seq_body_below version (x :: byte)
                (mkpstate seq (st_pos st) (st_G st)) n) as Hbody.
  pose proof (parse_seq_body_spec version (x :: byte)
                (mkpstate seq (st_pos st) (st_G st))) as [Hdata _].
  cbn [st_seq st_G] in Hbody, Hdata.
  specialize (Hbody ltac:(rewrite Hd; exact Hn) Hg).
  destruct (V04.parse_seq_body version _ _) as [st' | st' | e st'];
    cbn [flow_state snd] in *; try exact Hbody.
  apply IH; [rewrite Hdata, Hd; exact Hn | exact Hbody].
Qed.

(** What a decoding pass leaves: the bytes of the file as they were, and
    in the lists only addresses inside the file. *)
Lemma PARSE_SEQ_leaves (version : SeqVersion) (contents : list byte) (g : globals) :
  addrs_below (length contents) g ->
  data (st_seq (snd (V02.PARSE_SEQ version (open contents) g))) = contents
  /\ addrs_below (length contents)
       (st_G (snd (V02.PARSE_SEQ version (open contents) g))).
Proof.
  intros Hg. unfold V02.PARSE_SEQ.
  destruct (read (open contents) 1) as [byte seq1] eqn:Hread.
  assert (Hd : data seq1 = contents).
  { unfold read in Hread. injection Hread as _ <-. reflexivity. }
  destruct (PARSE_SEQ_loop_spec version (length (data seq1) + 3)
              (mkpstate seq1 0 g)) as [Hdata _].
  cbn [st_seq] in Hdata. split; [rewrite Hdata; exact Hd |].
  apply PARSE_SEQ_loop_below; cbn [st_seq st_G]; [rewrite Hd; lia | exact Hg].
Qed.

Lemma parse_seq_leaves (version : SeqVersion) (contents : list byte) (g : globals) :
  addrs_below (length contents) g ->
  data (st_seq (snd (V04.parse_seq version (open contents) g))) = contents
  /\ addrs_below (length contents)
       (st_G (snd (V04.parse_seq version (open contents) g))).
Proof.
  intros Hg. unfold V04.parse_seq.
  destruct (read (open contents) 1) as [byte seq1] eqn:Hread.
  assert (Hd : data seq1 = contents).
  { unfold read in Hread. injection Hread as _ <-. reflexivity. }
  destruct (parse_seq_loop_spec version (length (data seq1) + 1)
              (mkpstate seq1 0 g)) as [Hdata _].
  cbn [st_seq] in Hdata. split; [rewrite Hdata; exact Hd |].
  apply parse_seq_loop_below; cbn [st_seq st_G]; [rewrite Hd; lia | exact Hg].
Qed.

(* ===================================================================== *)
(** ** What a whole run changes in the file *)
(* ===================================================================== *)

(** The addresses the mutation phase writes to: the collected volume
    arguments, and with [--fix-jumps] the five lists of conditional
    jumps. *)
Definition edited_addrs (ARG_PARSER : ArgParser) (g : globals) : list nat :=
  MSTR_VOL_ADDR g
  ++ (if fix_jumps ARG_PARSER
      then EQJUMP_ADDR g ++ LTJUMP_ADDR g ++ GTEQJUMP_ADDR g
           ++ REQJUMP_ADDR g ++ RLTJUMP_ADDR g
      else []).

Lemma edits_within_length (addrs : list nat) (seq seq' : file)
  (l : list nat) :
  edits_within addrs seq seq' ->
  Forall (fun a => a < length (data seq))%nat l ->
  Forall (fun a => a < length (data seq'))%nat l.
Proof. intros [-> _] H. exact H. Qed.

(** The volume part of [main], common to both implementations. *)
Lemma main_volume_within (ARG_PARSER : ArgParser) (g : globals)
  (stdin : list line) (seq : file) :
  Forall (fun a => a < length (data seq))%nat (MSTR_VOL_ADDR g) ->
  edits_within (MSTR_VOL_ADDR g) seq
    (snd (fst (if (1 <? length (MSTR_VOL_ADDR g))%nat
               then V02.main_answer ARG_PARSER g stdin seq
               else match MSTR_VOL_ADDR g with
                    | _ :: _ =>
                        let '(fin, seq') := V02.AUTO_SEQ_EDIT ARG_PARSER g seq in
                        (fin, seq', stdin)
                    | [] => (Done, seq, stdin)
                    end))).
Proof.
  intros Hall.
  destruct (1 <? length (MSTR_VOL_ADDR g))%nat.
  - apply main_answer_within. exact Hall.
  - pose proof (AUTO_SEQ_EDIT_for_within ARG_PARSER (MSTR_VOL_ADDR g) seq Hall) as H.
    unfold V02.AUTO_SEQ_EDIT.
    destruct (MSTR_VOL_ADDR g) as [| x rest] eqn:E; [apply edits_within_refl |].
    destruct (V02.AUTO_SEQ_EDIT_for ARG_PARSER (x :: rest) seq) as [fin seq'].
    exact H.
Qed.

Ltac sub_app :=
  let a := fresh "a" in
  let Ha := fresh "Ha" in
  intros a Ha; rewrite ?in_app_iff; tauto.

Lemma main_write_within (ARG_PARSER : ArgParser) (g : globals)
  (stdin : list line) (seq : file) :
  addrs_below (length (data seq)) g ->
  edits_within (edited_addrs ARG_PARSER g) seq
    (snd (V02.main_write ARG_PARSER g stdin seq)).
Proof.
  intros Hg.
  destruct (addrs_below_lists _ _ Hg) as (Hvol & Heq & Hlt & Hge & Hreq & Hrlt).
  pose proof (main_volume_within ARG_PARSER g stdin seq Hvol) as H1.
  unfold V02.main_write, edited_addrs.
  destruct (if (1 <? length (MSTR_VOL_ADDR g))%nat then _ else _)
    as [[fin seq1] stdin1].
  cbn [fst snd] in H1.
  assert (H1' : forall l, edits_within (MSTR_VOL_ADDR g ++ l) seq seq1).
  { intros l. apply (edits_within_mono (MSTR_VOL_ADDR g)); [sub_app | exact H1]. }
  destruct fin; cbn [snd]; try apply H1'.
  destruct (fix_jumps ARG_PARSER); cbn [snd]; [| apply H1'].
  change V02.FIX_JUMP with (patch_at xfb).
  pose proof (fun l => edits_within_length _ _ _ l H1) as Hlen.
  apply Hlen in Heq, Hlt, Hge, Hreq, Hrlt. clear Hlen.
  pose proof (fix_each_within xfb (EQJUMP_ADDR g) seq1 Heq) as E1.
  set (seq2 := fix_each (patch_at xfb) (EQJUMP_ADDR g) seq1) in *.
  pose proof (fun l => edits_within_length _ _ _ l E1) as Hlen.
  apply Hlen in Hlt, Hge, Hreq, Hrlt. clear Hlen.
  pose proof (fix_each_within xfb (LTJUMP_ADDR g) seq2 Hlt) as E2.
  set (seq3 := fix_each (patch_at xfb) (LTJUMP_ADDR g) seq2) in *.
  pose proof (fun l => edits_within_length _ _ _ l E2) as Hlen.
  apply Hlen in Hge, Hreq, Hrlt. clear Hlen.
  pose proof (fix_each_within xfb (GTEQJUMP_ADDR g) seq3 Hge) as E3.
  set (seq4 := fix_each (patch_at xfb) (GTEQJUMP_ADDR g) seq3) in *.
  pose proof (fun l => edits_within_length _ _ _ l E3) as Hlen.
  apply Hlen in Hreq, Hrlt. clear Hlen.
  pose proof (fix_each_within xfb (REQJUMP_ADDR g) seq4 Hreq) as E4.
  set (seq5 := fix_each (patch_at xfb) (REQJUMP_ADDR g) seq4) in *.
  pose proof (fun l => edits_within_length _ _ _ l E4) as Hlen.
  apply Hlen in Hrlt. clear Hlen.
  pose proof (fix_each_within xfb (RLTJUMP_ADDR g) seq5 Hrlt) as E5.
  set (seq6 := fix_each (patch_at xfb) (RLTJUMP_ADDR g) seq5) in *.
  apply (edits_within_trans _ seq seq1); [apply H1' |].
  apply (edits_within_trans _ seq1 seq2);
    [apply (edits_within_mono (EQJUMP_ADDR g)); [sub_app | exact E1] |].
  apply (edits_within_trans _ seq2 seq3);
    [apply (edits_within_mono (LTJUMP_ADDR g)); [sub_app | exact E2] |].
  apply (edits_within_trans _ seq3 seq4);
    [apply (edits_within_mono (GTEQJUMP_ADDR g)); [sub_app | exact E3] |].
  apply (edits_within_trans _ seq4 seq5);
    [apply (edits_within_mono (REQJUMP_ADDR g)); [sub_app | exact E4] |].
  apply (edits_within_mono (RLTJUMP_ADDR g)); [sub_app | exact E5].
Qed.

Lemma main_later_write_within (ARG_PARSER : ArgParser) (g : globals)
  (stdin : list line) (seq : file) :
  addrs_below (length (data seq)) g ->
  edits_within (edited_addrs ARG_PARSER g) seq
    (snd (V04.main_write ARG_PARSER g stdin seq)).
Proof.
  intros Hg.
  destruct (addrs_below_lists _ _ Hg) as (Hvol & Heq & Hlt & Hge & Hreq & Hrlt).
  pose proof (main_volume_within ARG_PARSER g stdin seq Hvol) as H1.
  unfold V04.main_write, edited_addrs.
  change (V04.main_answer ARG_PARSER g stdin seq)
    with (V02.main_answer ARG_PARSER g stdin seq).
  change (V04.auto_seq_edit ARG_PARSER g seq)
    with (V02.AUTO_SEQ_EDIT ARG_PARSER g seq).
  destruct (if (1 <? length (MSTR_VOL_ADDR g))%nat then _ else _)
    as [[fin seq1] stdin1].
  cbn [fst snd] in H1.
  assert (H1' : forall l, edits_within (MSTR_VOL_ADDR g ++ l) seq seq1).
  { intros l. apply (edits_within_mono (MSTR_VOL_ADDR g)); [sub_app | exact H1]. }
  destruct fin; cbn [snd]; try apply H1'.
  destruct (fix_jumps ARG_PARSER); cbn [snd]; [| apply H1'].
  unfold V04.jump_types. cbn [fold_left].
  change V04.fix_jump with (patch_at xfb).
  change V04.fix_rjump with (patch_at xf4).
  pose proof (fun l => edits_within_length _ _ _ l H1) as Hlen.
  apply Hlen in Heq, Hlt, Hge, Hreq, Hrlt. clear Hlen.
  pose proof (fix_each_within xfb (EQJUMP_ADDR g) seq1 Heq) as E1.
  set (seq2 := fix_each (patch_at xfb) (EQJUMP_ADDR g) seq1) in *.
  pose proof (fun l => edits_within_length _ _ _ l E1) as Hlen.
  apply Hlen in Hlt, Hge, Hreq, Hrlt. clear Hlen.
  pose proof (fix_each_within xfb (LTJUMP_ADDR g) seq2 Hlt) as E2.
  set (seq3 := fix_each (patch_at xfb) (LTJUMP_ADDR g) seq2) in *.
  pose proof (fun l => edits_within_length _ _ _ l E2) as Hlen.
  apply Hlen in Hge, Hreq, Hrlt. clear Hlen.
  pose proof (fix_each_within xfb (GTEQJUMP_ADDR g) seq3 Hge) as E3.
  set (seq4 := fix_each (patch_at xfb) (GTEQJUMP_ADDR g) seq3) in *.
  pose proof (fun l => edits_within_length _ _ _ l E3) as Hlen.
  apply Hlen in Hreq, Hrlt. clear Hlen.
  pose proof (fix_each_within xf4 (REQJUMP_ADDR g) seq4 Hreq) as E4.
  set (seq5 := fix_each (patch_at xf4) (REQJUMP_ADDR g) seq4) in *.
  pose proof (fun l => edits_within_length _ _ _ l E4) as Hlen.
  apply Hlen in Hrlt. clear Hlen.
  pose proof (fix_each_within xf4 (RLTJUMP_ADDR g) seq5 Hrlt) as E5.
  set (seq6 := fix_each (patch_at xf4) (RLTJUMP_ADDR g) seq5) in *.
  apply (edits_within_trans _ seq seq1); [apply H1' |].
  apply (edits_within_trans _ seq1 seq2);
    [apply (edits_within_mono (EQJUMP_ADDR g)); [sub_app | exact E1] |].
  apply (edits_within_trans _ seq2 seq3);
    [apply (edits_within_mono (LTJUMP_ADDR g)); [sub_app | exact E2] |].
  apply (edits_within_trans _ seq3 seq4);
    [apply (edits_within_mono (GTEQJUMP_ADDR g)); [sub_app | exact E3] |].
  apply (edits_within_trans _ seq4 seq5);
    [apply (edits_within_mono (REQJUMP_ADDR g)); [sub_app | exact E4] |].
  apply (edits_within_mono (RLTJUMP_ADDR g)); [sub_app | exact E5].
Qed.

(** X3. A whole run of the earlier program, whatever the file holds,
    whatever the arguments are and whatever is typed at the prompts, and
    however it ends (returning, leaving at a prompt, or failing): the file
    keeps its length, and every byte outside the collected addresses (the
    volume arguments, and with [--fix-jumps] the conditional jumps) is as
    it was.  Nothing is written past the end, so the file never grows. *)
Theorem main_edits_only_collected (ARG_PARSER : ArgParser)
  (stdin : list line) (contents : list byte) :
  length (data (snd (fst (V02.main ARG_PARSER stdin contents module_load))))
  = length contents
  /\ forall i : nat,
       ~ In i (edited_addrs ARG_PARSER
                 (snd (V02.main ARG_PARSER stdin contents module_load))) ->
       data (snd (fst (V02.main ARG_PARSER stdin contents module_load))) !! i
       = contents !! i.
Proof.
  unfold V02.main.
  pose proof (PARSE_SEQ_leaves (game_version ARG_PARSER) contents module_load
                (addrs_below_module_load _)) as [Hdata Hbelow].
  destruct (V02.PARSE_SEQ (game_version ARG_PARSER) (open contents) module_load)
    as [out st].
  cbn [snd] in Hdata, Hbelow.
  rewrite <- Hdata in Hbelow.
  pose proof (main_write_within ARG_PARSER (st_G st) stdin (st_seq st) Hbelow)
    as [Hlen Hframe].
  destruct (V02.main_write ARG_PARSER (st_G st) stdin (st_seq st)) as [fin seq'].
  cbn [fst snd] in *. rewrite Hdata in *. split; [exact Hlen | exact Hframe].
Qed.

(** X4. A whole run of the later program, whatever the file holds,
    whatever the arguments are and whatever is typed at the prompts, and
    however it ends: the file keeps its length, and every byte outside
    the addresses its decoder collected (the volume list, and with
    [--fix-jumps] the five lists of conditional jumps) is as it was. *)
Theorem main_later_edits_only_collected (ARG_PARSER : ArgParser)
  (stdin : list line) (contents : list byte) :
  length (data (snd (fst (V04.main ARG_PARSER stdin contents module_load))))
  = length contents
  /\ forall i : nat,
       ~ In i (edited_addrs ARG_PARSER
                 (snd (V04.main ARG_PARSER stdin contents module_load))) ->
       data (snd (fst (V04.main ARG_PARSER stdin contents module_load))) !! i
       = contents !! i.
Proof.
  unfold V04.main.
  pose proof (parse_seq_leaves (game_version ARG_PARSER) contents module_load
                (addrs_below_module_load _)) as [Hdata Hbelow].
  destruct (V04.parse_seq (game_version ARG_PARSER) (open contents) module_load)
    as [out st].
  cbn [snd] in Hdata, Hbelow.
  rewrite <- Hdata in Hbelow.
  pose proof (main_later_write_within ARG_PARSER (st_G st) stdin (st_seq st) Hbelow)
    as [Hlen Hframe].
  destruct (V04.main_write ARG_PARSER (st_G st) stdin (st_seq st)) as [fin seq'].
  cbn [fst snd] in *. rewrite Hdata in *. split; [exact Hlen | exact Hframe].
Qed.

(* ===================================================================== *)
(** ** What the mutation phase leaves at the collected addresses *)
(* ===================================================================== *)

(** A write elsewhere keeps a byte that is there, also when the write
    lands past the end and the file grows. *)
Lemma patch_at_other (v w : byte) (x a : nat) (seq : file) :
  a <> x -> data seq !! a = Some w ->
  data (snd (patch_at v x seq)) !! a = Some w.
Proof.
  intros Hne Ha. pose proof (lookup_lt_Some _ _ _ Ha) as Hlen.
  unfold patch_at, bind, seekM, writeM, write, write_byte; simpl.
  destruct (Nat.ltb_spec x (length (data seq))) as [Hlt | Hge]; simpl.
  - rewrite list_lookup_insert_ne by congruence. exact Ha.
  - rewrite lookup_app_l by exact Hlen. exact Ha.
Qed.

Lemma fix_each_other (v w : byte) (addrs : list nat) (a : nat) :
  forall seq : file,
    ~ In a addrs -> data seq !! a = Some w ->
    data (fix_each (patch_at v) addrs seq) !! a = Some w.
Proof.
  induction addrs as [| x addrs IH]; intros seq Hnot Ha; [exact Ha |].
  rewrite fix_each_cons. apply IH.
  - intros Hin. apply Hnot. right. exact Hin.
  - apply patch_at_other; [| exact Ha]. intros ->. apply Hnot. left. reflexivity.
Qed.

(** X5. The automatic edit.  When the volume argument converts to the
    byte [b], every collected volume address holds [b] afterwards and the
    edit reports success; when the conversion raises and there is an
    address to edit, the edit fails with that exception before anything is
    written.  Both implementations edit alike. *)
Theorem AUTO_SEQ_EDIT_sets_every_volume (ARG_PARSER : ArgParser) (g : globals)
  (seq : file) :
  (forall b : byte,
      V02.CHECK_INPUT (value ARG_PARSER) = Ok [b] ->
      fst (V02.AUTO_SEQ_EDIT ARG_PARSER g seq) = Done
      /\ forall a : nat,
           In a (MSTR_VOL_ADDR g) ->
           data (snd (V02.AUTO_SEQ_EDIT ARG_PARSER g seq)) !! a = Some b)
  /\ (forall e : exn,
         V02.CHECK_INPUT (value ARG_PARSER) = Raise e ->
         MSTR_VOL_ADDR g <> [] ->
         V02.AUTO_SEQ_EDIT ARG_PARSER g seq = (Failed e, seq))
  /\ V04.auto_seq_edit ARG_PARSER g seq = V02.AUTO_SEQ_EDIT ARG_PARSER g seq.
Proof.
  unfold V02.AUTO_SEQ_EDIT. split; [| split].
  - intros b Hconv. rewrite (AUTO_SEQ_EDIT_for_ok ARG_PARSER b _ Hconv).
    split; [reflexivity |]. intros a Ha. apply fix_each_holds. exact Ha.
  - intros e Hconv Hne. destruct (MSTR_VOL_ADDR g) as [| x rest]; [congruence |].
    apply AUTO_SEQ_EDIT_for_fails. exact Hconv.
  - reflexivity.
Qed.

Lemma AUTO_SEQ_EDIT_sets_every_volume_witness :
  (fst (V02.AUTO_SEQ_EDIT (mkArgParser (VInt 0x7F) false MM)
          (mkglobals [] [1%nat; 4%nat] [] [] [] [] [] [] [])
          (open [xdb; x40; xff; xdb; x20; xff])) = Done
   /\ forall a : nat,
        In a [1%nat; 4%nat] ->
        data (snd (V02.AUTO_SEQ_EDIT (mkArgParser (VInt 0x7F) false MM)
                     (mkglobals [] [1%nat; 4%nat] [] [] [] [] [] [] [])
                     (open [xdb; x40; xff; xdb; x20; xff]))) !! a = Some x7f)
  /\ V02.AUTO_SEQ_EDIT (mkArgParser (VFloat nan) false MM)
       (mkglobals [] [1%nat] [] [] [] [] [] [] []) (open [xdb; x40; xff])
     = (Failed ValueError, open [xdb; x40; xff]).
Proof.
  split.
  - apply (proj1 (AUTO_SEQ_EDIT_sets_every_volume
                    (mkArgParser (VInt 0x7F) false MM)
                    (mkglobals [] [1%nat; 4%nat] [] [] [] [] [] [] [])
                    (open [xdb; x40; xff; xdb; x20; xff])) x7f).
    reflexivity.
  - apply (proj1 (proj2 (AUTO_SEQ_EDIT_sets_every_volume
                           (mkArgParser (VFloat nan) false MM)
                           (mkglobals [] [1%nat] [] [] [] [] [] [] [])
                           (open [xdb; x40; xff]))) ValueError).
    + vm_compute. reflexivity.
    + discriminate.
Defined.

(** The jump phase of the earlier [main] on its own. *)
Definition FIX_JUMP_phase (g : globals) (seq : file) : file :=
  let seq := fix_each V02.FIX_JUMP (EQJUMP_ADDR g) seq in
  let seq := fix_each V02.FIX_JUMP (LTJUMP_ADDR g) seq in
  let seq := fix_each V02.FIX_JUMP (GTEQJUMP_ADDR g) seq in
  let seq := fix_each V02.FIX_JUMP (REQJUMP_ADDR g) seq in
  fix_each V02.FIX_JUMP (RLTJUMP_ADDR g) seq.

(** and of the later one. *)
Definition fix_jump_phase (g : globals) (seq : file) : file :=
  fold_left (fun seq '(addr_list, fix_func) => fix_each fix_func addr_list seq)
    (V04.jump_types g) seq.

Lemma main_write_Done (ARG_PARSER : ArgParser) (g : globals)
  (stdin : list line) (seq : file) :
  fix_jumps ARG_PARSER = true ->
  fst (V02.main_write ARG_PARSER g stdin seq) = Done ->
  exists seq1 : file,
    snd (V02.main_write ARG_PARSER g stdin seq) = FIX_JUMP_phase g seq1.
Proof.
  intros Hfix. unfold V02.main_write.
  destruct (if (1 <? length (MSTR_VOL_ADDR g))%nat then _ else _)
    as [[fin seq1] stdin1].
  rewrite Hfix. destruct fin; cbn [fst snd]; try discriminate.
  intros _. exists seq1. reflexivity.
Qed.

Lemma main_later_write_Done (ARG_PARSER : ArgParser) (g : globals)
  (stdin : list line) (seq : file) :
  fix_jumps ARG_PARSER = true ->
  fst (V04.main_write ARG_PARSER g stdin seq) = Done ->
  exists seq1 : file,
    snd (V04.main_write ARG_PARSER g stdin seq) = fix_jump_phase g seq1.
Proof.
  intros Hfix. unfold V04.main_write.
  destruct (if (1 <? length (MSTR_VOL_ADDR g))%nat then _ else _)
    as [[fin seq1] stdin1].
  rewrite Hfix. destruct fin; cbn [fst snd]; try discriminate.
  intros _. exists seq1. reflexivity.
Qed.

Lemma FIX_JUMP_phase_holds (g : globals) (seq : file) (a : nat) :
  In a (EQJUMP_ADDR g ++ LTJUMP_ADDR g ++ GTEQJUMP_ADDR g
        ++ REQJUMP_ADDR g ++ RLTJUMP_ADDR g) ->
  data (FIX_JUMP_phase g seq) !! a = Some xfb.
Proof.
  unfold FIX_JUMP_phase. change V02.FIX_JUMP with (patch_at xfb).
  rewrite !in_app_iff. cbv zeta.
  intros [H | [H | [H | [H | H]]]].
  - do 4 apply fix_each_keeps. apply fix_each_holds. exact H.
  - do 3 apply fix_each_keeps. apply fix_each_holds. exact H.
  - do 2 apply fix_each_keeps. apply fix_each_holds. exact H.
  - apply fix_each_keeps. apply fix_each_holds. exact H.
  - apply fix_each_holds. exact H.
Qed.

Lemma fix_jump_phase_holds (g : globals) (seq : file) (a : nat) :
  (In a (REQJUMP_ADDR g ++ RLTJUMP_ADDR g) ->
   data (fix_jump_phase g seq) !! a = Some xf4)
  /\ (In a (EQJUMP_ADDR g ++ LTJUMP_ADDR g ++ GTEQJUMP_ADDR g) ->
      ~ In a (REQJUMP_ADDR g ++ RLTJUMP_ADDR g) ->
      data (fix_jump_phase g seq) !! a = Some xfb).
Proof.
  unfold fix_jump_phase, V04.jump_types. cbn [fold_left].
  change V04.fix_jump with (patch_at xfb).
  change V04.fix_rjump with (patch_at xf4).
  rewrite !in_app_iff. split.
  - intros [H | H].
    + apply fix_each_keeps. apply fix_each_holds. exact H.
    + apply fix_each_holds. exact H.
  - intros Hin Hnot.
    apply fix_each_other; [tauto |]. apply fix_each_other; [tauto |].
    destruct Hin as [H | [H | H]].
    + do 2 apply fix_each_keeps. apply fix_each_holds. exact H.
    + apply fix_each_keeps. apply fix_each_holds. exact H.
    + apply fix_each_holds. exact H.
Qed.

(** X6. With [--fix-jumps], when the earlier [main] gets through its
    volume part, every address in any of the five conditional-jump lists
    holds 0xFB afterwards: the relative conditional jumps too, and
    whichever lists the address is in. *)
Theorem FIX_JUMP_on_every_list (ARG_PARSER : ArgParser) (g : globals)
  (stdin : list line) (seq : file) (a : nat) :
  fix_jumps ARG_PARSER = true ->
  fst (V02.main_write ARG_PARSER g stdin seq) = Done ->
  In a (EQJUMP_ADDR g ++ LTJUMP_ADDR g ++ GTEQJUMP_ADDR g
        ++ REQJUMP_ADDR g ++ RLTJUMP_ADDR g) ->
  data (snd (V02.main_write ARG_PARSER g stdin seq)) !! a = Some xfb.
Proof.
  intros Hfix Hdone Hin.
  destruct (main_write_Done ARG_PARSER g stdin seq Hfix Hdone) as [seq1 ->].
  apply FIX_JUMP_phase_holds. exact Hin.
Qed.

Lemma FIX_JUMP_on_every_list_witness :
  data (snd (V02.main_write (mkArgParser (VInt 0x40) true MM)
               (mkglobals [] [] [] [0%nat] [] [] [] [3%nat] [])
               [] (open [xfa; x00; x10; xf3; x05; xff]))) !! 3%nat
  = Some xfb.
Proof.
  apply (FIX_JUMP_on_every_list (mkArgParser (VInt 0x40) true MM)
           (mkglobals [] [] [] [0%nat] [] [] [] [3%nat] [])
           [] (open [xfa; x00; x10; xf3; x05; xff]) 3);
    [reflexivity | reflexivity | simpl; tauto].
Defined.

(** X7. With [--fix-jumps], when the later [main] gets through its volume
    part, every address in one of the two relative lists holds 0xF4
    afterwards, and every address in one of the three absolute lists and
    in neither relative list holds 0xFB: where an address is in both
    kinds of list, the relative rewrite, made last, is the one that
    stays. *)
Theorem fix_func_by_jump_type (ARG_PARSER : ArgParser) (g : globals)
  (stdin : list line) (seq : file) (a : nat) :
  fix_jumps ARG_PARSER = true ->
  fst (V04.main_write ARG_PARSER g stdin seq) = Done ->
  (In a (REQJUMP_ADDR g ++ RLTJUMP_ADDR g) ->
   data (snd (V04.main_write ARG_PARSER g stdin seq)) !! a = Some xf4)
  /\ (In a (EQJUMP_ADDR g ++ LTJUMP_ADDR g ++ GTEQJUMP_ADDR g) ->
      ~ In a (REQJUMP_ADDR g ++ RLTJUMP_ADDR g) ->
      data (snd (V04.main_write ARG_PARSER g stdin seq)) !! a = Some xfb).
Proof.
  intros Hfix Hdone.
  destruct (main_later_write_Done ARG_PARSER g stdin seq Hfix Hdone) as [seq1 ->].
  apply fix_jump_phase_holds.
Qed.

Lemma fix_func_by_jump_type_witness :
  data (snd (V04.main_write (mkArgParser (VInt 0x40) true MM)
               (mkglobals [] [] [] [0%nat] [] [] [] [3%nat] [])
               [] (open [xfa; x00; x10; xf3; x05; xff]))) !! 3%nat
  = Some xf4
  /\ data (snd (V04.main_write (mkArgParser (VInt 0x40) true MM)
                  (mkglobals [] [] [] [0%nat] [] [] [] [3%nat] [])
                  [] (open [xfa; x00; x10; xf3; x05; xff]))) !! 0%nat
     = Some xfb.
Proof.
  split.
  - apply (proj1 (fix_func_by_jump_type (mkArgParser (VInt 0x40) true MM)
                    (mkglobals [] [] [] [0%nat] [] [] [] [3%nat] [])
                    [] (open [xfa; x00; x10; xf3; x05; xff]) 3
                    eq_refl eq_refl)).
    simpl; tauto.
  - apply (proj2 (fix_func_by_jump_type (mkArgParser (VInt 0x40) true MM)
                    (mkglobals [] [] [] [0%nat] [] [] [] [3%nat] [])
                    [] (open [xfa; x00; x10; xf3; x05; xff]) 0
                    eq_refl eq_refl)).
    + simpl; tauto.
    + simpl. intros [H | H]; [discriminate H | exact H].
Defined.

(* ===================================================================== *)
(** ** The manual prompt *)
(* ===================================================================== *)

(** A line the prompt asks again for: it is not [exit] and does not
    convert. *)
Definition asked_again (l : line) : Prop :=
  l <> L_exit /\ V02.CONVERT_INPUT l = None.

Lemma MANUAL_SEQ_EDIT_prompt_skips (addr : nat) (junk : list line) :
  Forall asked_again junk ->
  forall (stdin : list line) (seq : file),
    V02.MANUAL_SEQ_EDIT_prompt addr (junk ++ stdin) seq
    = V02.MANUAL_SEQ_EDIT_prompt addr stdin seq.
Proof.
  induction 1 as [| l junk [Hne Hconv] _ IH]; intros stdin seq; [reflexivity |].
  cbn [app V02.MANUAL_SEQ_EDIT_prompt]. rewrite Hconv, IH.
  destruct l; try reflexivity. congruence.
Qed.

(** X8. The prompt of the manual edit for one address.  Lines that are
    not [exit] and do not convert are asked again; the first line that
    converts is written at the address and the prompt is done; [exit]
    leaves the process with the file as it was; and when the input ends
    first, [input()] raises.  The later implementation prompts alike. *)
Theorem MANUAL_SEQ_EDIT_asks_until_converted (addr : nat) (junk : list line)
  (rest : list line) (seq : file) :
  Forall asked_again junk ->
  (forall (l : line) (b : byte),
      V02.CONVERT_INPUT l = Some [b] ->
      V02.MANUAL_SEQ_EDIT_prompt addr (junk ++ l :: rest) seq
      = (Done, snd (V02.WRITE_BIN addr [b] seq), rest))
  /\ V02.MANUAL_SEQ_EDIT_prompt addr (junk ++ L_exit :: rest) seq
     = (Exit, seq, rest)
  /\ V02.MANUAL_SEQ_EDIT_prompt addr junk seq = (Failed EOFError, seq, [])
  /\ (forall stdin : list line,
         V04.manual_seq_edit_prompt addr stdin seq
         = V02.MANUAL_SEQ_EDIT_prompt addr stdin seq).
Proof.
  intros Hjunk. split; [| split; [| split]].
  - intros l b Hconv. rewrite (MANUAL_SEQ_EDIT_prompt_skips addr junk Hjunk).
    cbn [V02.MANUAL_SEQ_EDIT_prompt]. rewrite Hconv.
    destruct l; try reflexivity. discriminate Hconv.
  - rewrite (MANUAL_SEQ_EDIT_prompt_skips addr junk Hjunk). reflexivity.
  - rewrite <- (app_nil_r junk) at 1.
    rewrite (MANUAL_SEQ_EDIT_prompt_skips addr junk Hjunk). reflexivity.
  - intros stdin. apply manual_seq_edit_prompt_eq.
Qed.

Lemma MANUAL_SEQ_EDIT_asks_until_converted_witness :
  V02.MANUAL_SEQ_EDIT_prompt 1
    ([L_other; L_value (Plain 300); L_Exit] ++ L_value (Plain 0x7F) :: [L_other])
    (open [xdb; x40; xff])
  = (Done, snd (V02.WRITE_BIN 1 [x7f] (open [xdb; x40; xff])), [L_other]).
Proof.
  apply (proj1 (MANUAL_SEQ_EDIT_asks_until_converted 1
                  [L_other; L_value (Plain 300); L_Exit] [L_other]
                  (open [xdb; x40; xff])
                  ltac:(repeat constructor; discriminate))).
  reflexivity.
Defined.

(** X9. Edits are made in place and are not undone: when the manual edit
    has several addresses to go through and [exit] is typed at a later
    prompt, the process ends with the earlier addresses already
    rewritten. *)
Theorem exit_keeps_earlier_edits (a1 a2 : nat) (addrs : list nat) (l : line)
  (b : byte) (rest : list line) (seq : file) :
  V02.CONVERT_INPUT l = Some [b] ->
  V02.MANUAL_SEQ_EDIT_for (a1 :: a2 :: addrs) (l :: L_exit :: rest) seq
  = (Exit, snd (V02.WRITE_BIN a1 [b] seq), rest)
  /\ V04.manual_seq_edit_for (a1 :: a2 :: addrs) (l :: L_exit :: rest) seq
     = (Exit, snd (V04.write_bin a1 [b] seq), rest).
Proof.
  intros Hconv.
  assert (H : V02.MANUAL_SEQ_EDIT_for (a1 :: a2 :: addrs) (l :: L_exit :: rest) seq
              = (Exit, snd (V02.WRITE_BIN a1 [b] seq), rest)).
  { cbn [V02.MANUAL_SEQ_EDIT_for V02.MANUAL_SEQ_EDIT_prompt]. rewrite Hconv.
    destruct l; try reflexivity. discriminate Hconv. }
  split; [exact H |]. rewrite manual_seq_edit_for_eq. exact H.
Qed.

Lemma exit_keeps_earlier_edits_witness :
  V02.MANUAL_SEQ_EDIT_for [1%nat; 4%nat] [L_value (Plain 0x7F); L_exit]
    (open [xdb; x40; xff; xdb; x20; xff])
  = (Exit, mkfile [xdb; x7f; xff; xdb; x20; xff] 2, []).
Proof.
  apply (proj1 (exit_keeps_earlier_edits 1 4 [] (L_value (Plain 0x7F)) x7f []
                  (open [xdb; x40; xff; xdb; x20; xff]) eq_refl)).
Defined.

(* ===================================================================== *)
(** ** Readers at the end of the file *)
(* ===================================================================== *)

Lemma unpack_enough (fmt : list field) :
  forall bs : list byte,
    length bs = calcsize fmt -> exists vs : list Z, unpack fmt bs = Ok vs.
Proof.
  induction fmt as [| [] fmt IH]; intros bs Hlen.
  - destruct bs; [exists []; reflexivity | discriminate].
  - destruct bs as [| b bs]; [discriminate |].
    destruct (IH bs) as [vs Hvs]; [simpl in Hlen; lia |].
    exists (byte_val b :: vs). simpl. rewrite Hvs. reflexivity.
  - destruct bs as [| b0 [| b1 bs]]; try discriminate.
    destruct (IH bs) as [vs Hvs]; [simpl in Hlen; lia |].
    exists (byte_val b0 * 256 + byte_val b1 :: vs). simpl. rewrite Hvs. reflexivity.
Qed.

Lemma unpack_raises (fmt : list field) :
  forall (bs : list byte) (e : exn), unpack fmt bs = Raise e -> e = struct_error.
Proof.
  induction fmt as [| [] fmt IH]; intros bs e.
  - destruct bs; simpl; congruence.
  - destruct bs as [| b bs]; simpl; [congruence |].
    destruct (unpack fmt bs) as [vs | e'] eqn:E; [discriminate |].
    intros [= <-]. apply (IH bs e' E).
  - destruct bs as [| b0 [| b1 bs]]; simpl; try congruence.
    destruct (unpack fmt bs) as [vs | e'] eqn:E; [discriminate |].
    intros [= <-]. apply (IH bs e' E).
Qed.

(** Reading [calcsize fmt] bytes at [offset] and unpacking them fails, and
    then with [struct.error], exactly when the file ends before. *)
Lemma unpack_at_raises_iff (fmt : list field) (d : list byte) (offset : nat) :
  (1 <= calcsize fmt)%nat ->
  (exists e, unpack fmt (take (calcsize fmt) (drop offset d)) = Raise e)
  <-> (length d < offset + calcsize fmt)%nat.
Proof.
  intros Hpos. split.
  - intros [e He].
    destruct (Nat.lt_ge_cases (length d) (offset + calcsize fmt)) as [| Hge];
      [assumption |].
    destruct (unpack_enough fmt (take (calcsize fmt) (drop offset d))) as [vs Hvs];
      [rewrite length_take, length_drop; lia | congruence].
  - intros Hlt.
    destruct (unpack fmt (take (calcsize fmt) (drop offset d))) as [vs | e] eqn:E;
      [| exists e; reflexivity].
    apply unpack_length in E. rewrite length_take, length_drop in E. lia.
Qed.

(** How a reader ends: with its value, or with [struct.error]. *)
Definition raises_struct_error {A : Type} (r : result A) : Prop :=
  r = Raise struct_error.

Lemma seek_read_unpack_raises (fmt : list field) (offset : nat) (seq : file) :
  (1 <= calcsize fmt)%nat ->
  raises_struct_error (fst (seek_read_unpack offset (calcsize fmt) fmt seq))
  <-> (length (data seq) < offset + calcsize fmt)%nat.
Proof.
  intros Hpos. rewrite <- (unpack_at_raises_iff fmt (data seq) offset Hpos).
  unfold raises_struct_error, seek_read_unpack, bind, seekM, readM, lift, read, seek.
  cbn [data cursor fst snd].
  destruct (unpack fmt _) as [vs | e] eqn:E; cbn [fst].
  - split; [discriminate | intros [e He]; discriminate].
  - split; [intros _; exists e; reflexivity |].
    intros _. rewrite (unpack_raises _ _ _ E). reflexivity.
Qed.

Ltac reader_raises fmt offset seq :=
  let H := fresh "H" in
  pose proof (seek_read_unpack_raises fmt offset seq ltac:(simpl; lia)) as H;
  unfold raises_struct_error, seek_read_unpack, bind, seekM, tellM, readM,
    lift, ret, read, seek, tell in *;
  cbn [data cursor fst snd calcsize] in *;
  destruct (unpack _ _) eqn:?; cbn [fst] in *;
  [ split; [discriminate
           | let HX := fresh "HX" in intros HX; apply H in HX; discriminate]
  | rewrite <- H; split; congruence ].

(** X10. Every fixed-size reader raises [struct.error] exactly when the
    file has fewer bytes from [offset] on than the reader's format takes
    (1 for a message alone, 2 with one 8-bit argument, 3 with two 8-bit or
    one 16-bit argument, 4 with an 8-bit and a 16-bit one); this is so
    too when [offset] lies past the end.  The readers of the later
    implementation do the same. *)
Theorem readers_raise_when_truncated (offset : nat) (seq : file) :
  (raises_struct_error (fst (V02.READ_MSG offset seq)) <-> (length (data seq) < offset + 1)%nat)
  /\ (raises_struct_error (fst (V02.READ_U8 offset seq)) <-> (length (data seq) < offset + 2)%nat)
  /\ (raises_struct_error (fst (V02.READ_U8x2 offset seq)) <-> (length (data seq) < offset + 3)%nat)
  /\ (raises_struct_error (fst (V02.READ_U8_U16 offset seq)) <-> (length (data seq) < offset + 4)%nat)
  /\ (raises_struct_error (fst (V02.READ_U16 offset seq)) <-> (length (data seq) < offset + 3)%nat)
  /\ (raises_struct_error (fst (V02.READ_S16_U8 offset seq)) <-> (length (data seq) < offset + 4)%nat)
  /\ (raises_struct_error (fst (V04.read_msg offset seq)) <-> (length (data seq) < offset + 1)%nat)
  /\ (raises_struct_error (fst (V04.read_u8 offset seq)) <-> (length (data seq) < offset + 2)%nat)
  /\ (raises_struct_error (fst (V04.read_u8x2 offset seq)) <-> (length (data seq) < offset + 3)%nat)
  /\ (raises_struct_error (fst (V04.read_u8_u16 offset seq)) <-> (length (data seq) < offset + 4)%nat)
  /\ (raises_struct_error (fst (V04.read_u16 offset seq)) <-> (length (data seq) < offset + 3)%nat)
  /\ (raises_struct_error (fst (V04.read_s16_u8 offset seq)) <-> (length (data seq) < offset + 4)%nat).
Proof.
  unfold V02.READ_MSG, V02.READ_U8, V02.READ_U8x2, V02.READ_U8_U16, V02.READ_U16,
    V02.READ_S16_U8, V02.SEEK_ADDR, V04.read_msg, V04.read_u8, V04.read_u8x2,
    V04.read_u8_u16, V04.read_u16, V04.read_s16_u8, V04.seek_addr.
  repeat match goal with |- _ /\ _ => split end.
  all: first [ reader_raises [B] offset seq | reader_raises [B; B] offset seq
             | reader_raises [B; B; B] offset seq
             | reader_raises [B; B; H] offset seq
             | reader_raises [B; H] offset seq
             | reader_raises [B; H; B] offset seq ].
Qed.

(* ===================================================================== *)
(** ** Where the two decoders part *)
(* ===================================================================== *)

Lemma read_4 (d : list byte) (c : nat) (b0 b1 b2 b3 : byte) :
  d !! c = Some b0 -> d !! (c + 1)%nat = Some b1 ->
  d !! (c + 2)%nat = Some b2 -> d !! (c + 3)%nat = Some b3 ->
  read (mkfile d c) 4 = ([b0; b1; b2; b3], mkfile d (c + 4)).
Proof.
  intros H0 H1 H2 H3. unfold read; simpl.
  rewrite (drop_S _ _ _ H0).
  replace (S c) with (c + 1)%nat by lia.
  rewrite (drop_S _ _ _ H1).
  replace (S (c + 1)) with (c + 2)%nat by lia.
  rewrite (drop_S _ _ _ H2).
  replace (S (c + 2)) with (c + 3)%nat by lia.
  rewrite (drop_S _ _ _ H3). reflexivity.
Qed.

(** X11. In the later decoder a message in the last byte of the file is
    never decoded: having found the opcode in its table, the loop reads
    the byte after it for [ord], gets nothing, and [TypeError] ends the
    pass.  So the end message 0xFF is recognised only when a byte follows
    it. *)
Theorem opcode_in_last_byte_raises (version : SeqVersion) (fuel : nat)
  (d : list byte) (off p : nat) (g : globals) (b : byte) (msg : V04.SeqMessage) :
  d !! off = Some b ->
  length d = (off + 1)%nat ->
  V04.SEQ_MESSAGES (byte_val b) = Some msg ->
  V04.version_check msg = None \/ V04.version_check msg = Some version ->
  V04.parse_seq_loop (S fuel) version (mkpstate (mkfile d off) p g)
  = (Raised TypeError, mkpstate (mkfile d (off + 1)) off g).
Proof.
  intros Hb Hlen Hmsg Hver.
  rewrite parse_seq_loop_S. cbn [st_seq st_pos st_G].
  rewrite (read_1 d off b Hb).
  unfold V04.parse_seq_body, tell. cbn [st_seq st_pos st_G cursor].
  rewrite Hmsg.
  replace (off + 1 - 1)%nat with off by lia.
  assert (Hpass : match V04.version_check msg with
                  | Some v => negb (SeqVersion_eqb v version)
                  | None => false
                  end = false).
  { destruct Hver as [-> | ->]; [reflexivity |]. destruct version; reflexivity. }
  rewrite Hpass.
  unfold bind at 1. unfold seekM, seek. cbn [data].
  unfold bind at 1. unfold readM at 1.
  rewrite (read_1_end d (off + 1)) by lia.
  unfold bind at 1. unfold lift, ord.
  replace (off + 1 + 0)%nat with (off + 1)%nat by lia.
  reflexivity.
Qed.

Lemma opcode_in_last_byte_raises_witness :
  V04.parse_seq_loop 3 OOT (mkpstate (mkfile [x00; xfe; xff] 2) 1 module_load)
  = (Raised TypeError, mkpstate (mkfile [x00; xfe; xff] 3) 2 module_load).
Proof.
  apply (opcode_in_last_byte_raises OOT 2 [x00; xfe; xff] 2 1 module_load xff
           (V04.mkSeqMessage "end" V04.the_read_msg (Some 1%nat) None None None));
    [reflexivity | reflexivity | reflexivity | left; reflexivity].
Defined.

(** X12. The message 0xC2 of the MM instruction set.  The earlier decoder
    appends a fixed record without reading anything and moves three bytes
    on; the later decoder calls the table's [lambda], gets a tuple where
    it expects a [MessageData], and the pass ends with [AttributeError].
    For OOT both skip the byte as unknown. *)
Theorem unk_msg_C2 (d : list byte) (off c p : nat) (g : globals) (b1 : byte) :
  d !! off = Some xc2 ->
  d !! (off + 1)%nat = Some b1 ->
  V02.PARSE_SEQ_body MM (mkpstate (mkfile d c) off g)
  = Next (mkpstate (mkfile d (off + 1)) (off + 3)
            (output_append "  unk_msg           @???? ?? ?? ??" g))
  /\ V04.parse_seq_body MM [xc2] (mkpstate (mkfile d (off + 1)) p g)
     = Throw AttributeError (mkpstate (mkfile d (off + 2)) off g)
  /\ V02.PARSE_SEQ_body OOT (mkpstate (mkfile d c) off g)
     = Next (mkpstate (mkfile d (off + 1)) (off + 1) g)
  /\ V04.parse_seq_body OOT [xc2] (mkpstate (mkfile d (off + 1)) p g)
     = Next (mkpstate (mkfile d (off + 1)) off g).
Proof.
  intros Hop Harg.
  assert (H2 : forall version,
             V02.PARSE_SEQ_body version (mkpstate (mkfile d c) off g)
             = match V02.PARSE_SEQ_arm version [xc2] with
               | V02.arm_msg b =>
                   V02.PARSE_SEQ_branch b (mkpstate (mkfile d (off + 1)) off g)
               | V02.arm_unk s k =>
                   Next (mkpstate (mkfile d (off + 1)) (off + k) (output_append s g))
               | V02.arm_else => Next (mkpstate (mkfile d (off + 1)) (off + 1) g)
               end).
  { intros version. unfold V02.PARSE_SEQ_body, seek. cbn [st_seq st_pos st_G data].
    rewrite (read_1 d off xc2 Hop). reflexivity. }
  split; [rewrite H2; reflexivity |].
  split; [| split; [rewrite H2; reflexivity |]].
  - unfold V04.parse_seq_body, tell. cbn [st_seq st_pos st_G cursor].
    replace (off + 1 - 1)%nat with off by lia.
    change (byte_val xc2) with 0xC2.
    change (V04.SEQ_MESSAGES 0xC2)
      with (Some (V04.mkSeqMessage "unk_msg" V04.the_lambda_tuple (Some 3%nat)
                    None None (Some MM))).
    cbn [V04.version_check V04.read_func SeqVersion_eqb negb].
    unfold bind at 1. unfold seekM, seek. cbn [data].
    unfold bind at 1. unfold readM at 1.
    rewrite (read_1 d (off + 1) b1 Harg).
    unfold bind at 1. unfold lift, ord. unfold V04.call, ret.
    replace (off + 1 + 1)%nat with (off + 2)%nat by lia.
    reflexivity.
  - unfold V04.parse_seq_body, tell. cbn [st_seq st_pos st_G cursor].
    replace (off + 1 - 1)%nat with off by lia.
    reflexivity.
Qed.

Lemma unk_msg_C2_witness :
  V02.PARSE_SEQ_body MM (mkpstate (mkfile [xc2; x01; x02; xff] 1) 0 module_load)
  = Next (mkpstate (mkfile [xc2; x01; x02; xff] 1) 3
            (output_append "  unk_msg           @???? ?? ?? ??" module_load))
  /\ V04.parse_seq_body MM [xc2]
       (mkpstate (mkfile [xc2; x01; x02; xff] 1) 0 module_load)
     = Throw AttributeError (mkpstate (mkfile [xc2; x01; x02; xff] 2) 0 module_load).
Proof.
  pose proof (unk_msg_C2 [xc2; x01; x02; xff] 0 1 0 module_load x01
                eq_refl eq_refl) as (H1 & H2 & _).
  split; [exact H1 | exact H2].
Defined.

(** X13. The fade message 0xDA, which takes an 8-bit and a 16-bit
    argument.  The earlier decoder reads all four bytes but leaves the
    message byte out of the record (the first argument stands where the
    message belongs) and moves [pos] three bytes on, so its next pass
    decodes the low byte of the 16-bit argument as an opcode.  The later
    decoder shows the message and both arguments and goes on after the
    fourth byte. *)
Theorem fade_is_decoded_one_byte_short (version : SeqVersion) (d : list byte)
  (off c p : nat) (g : globals) (b1 b2 b3 : byte) :
  d !! off = Some xda ->
  d !! (off + 1)%nat = Some b1 ->
  d !! (off + 2)%nat = Some b2 ->
  d !! (off + 3)%nat = Some b3 ->
  V02.PARSE_SEQ_body version (mkpstate (mkfile d c) off g)
  = Next (mkpstate (mkfile d (off + 4)) (off + 3)
            (output_append
               ("  fade            "
                ++ V02.GET_MSG_STRING (Z.of_nat off) (byte_val b1)
                     [byte_val b2 * 256 + byte_val b3]) g))
  /\ V04.parse_seq_body version [xda] (mkpstate (mkfile d (off + 1)) p g)
     = Next (mkpstate (mkfile d (off + 4)) (off + 4)
               (output_append
                  ("  fade            "
                   ++ V04.get_msg_string (Z.of_nat off) (Some 0xDA)
                        [Some (byte_val b1, V04.u8);
                         Some (byte_val b2 * 256 + byte_val b3, V04.u16)]) g)).
Proof.
  intros H0 H1 H2 H3. split.
  - unfold V02.PARSE_SEQ_body, seek. cbn [st_seq st_pos st_G data].
    rewrite (read_1 d off xda H0).
    change (V02.PARSE_SEQ_arm version [xda])
      with (V02.arm_msg (V02.mkbranch V02.BY_READ_U8_U16 false
                           "  fade            " "" None (Some 3%nat) false)).
    unfold V02.PARSE_SEQ_branch, V02.OLD_READER_call, tell.
    cbn [st_seq st_pos st_G cursor V02.br_read V02.br_msg_shown V02.br_open
           V02.br_close V02.br_collect V02.br_step V02.br_break].
    replace (off + 1 - 1)%nat with off by lia.
    unfold V02.READ_U8_U16, V02.SEEK_ADDR.
    unfold bind, seekM, tellM, readM, lift, ret, seek, tell. cbn [data cursor].
    rewrite (read_4 d off xda b1 b2 b3 H0 H1 H2 H3).
    cbn [unpack item nth hd tl].
    rewrite string_app_nil_r. reflexivity.
  - unfold V04.parse_seq_body, tell. cbn [st_seq st_pos st_G cursor].
    replace (off + 1 - 1)%nat with off by lia.
    change (byte_val xda) with 0xDA.
    change (V04.SEQ_MESSAGES 0xDA)
      with (Some (V04.mkSeqMessage "fade" V04.the_read_u8_u16 (Some 4%nat)
                    None None None)).
    cbn [V04.version_check V04.read_func V04.color V04.name V04.byte_size
           V04.extra_output_list].
    unfold V04.call, V04.read_u8_u16, V04.seek_addr.
    unfold bind, seekM, tellM, readM, lift, ret, seek, tell. cbn [data cursor].
    rewrite (read_1 d (off + 1) b1 H1). unfold ord. cbn [data].
    rewrite (read_4 d off xda b1 b2 b3 H0 H1 H2 H3).
    cbn [unpack item nth V04.arg_1 V04.arg_2 V04.arg_addr_1 V04.arg_addr_2 V04.pos].
    change (0xDA =? 0xFF) with false. cbv iota.
    change (ljust 16 "fade") with "fade            ".
    rewrite string_app_nil_r. reflexivity.
Qed.

Lemma fade_is_decoded_one_byte_short_witness :
  V02.PARSE_SEQ_body MM (mkpstate (mkfile [xda; x40; x12; xff] 1) 0 module_load)
  = Next (mkpstate (mkfile [xda; x40; x12; xff] 4) 3
            (output_append "  fade            @0000: 40 12FF" module_load))
  /\ V04.parse_seq_body MM [xda]
       (mkpstate (mkfile [xda; x40; x12; xff] 1) 0 module_load)
     = Next (mkpstate (mkfile [xda; x40; x12; xff] 4) 4
               (output_append "  fade            @0000: DA 40 12FF" module_load)).
Proof.
  apply (fade_is_decoded_one_byte_short MM [xda; x40; x12; xff] 0 1 0
           module_load x40 x12 xff eq_refl eq_refl eq_refl eq_refl).
Defined.

(* ===================================================================== *)
(** ** The chain of the earlier decoder against the table of the later *)
(* ===================================================================== *)










(* ===================================================================== *)
(** ** The text of a record in the two implementations *)
(* ===================================================================== *)

Lemma upper_app (s t : string) : upper (s ++ t) = (upper s ++ upper t)%string.
Proof. induction s as [| c s IH]; simpl; [reflexivity | rewrite IH; reflexivity]. Qed.

Lemma upper_ascii_idem (c : ascii) : upper_ascii (upper_ascii c) = upper_ascii c.
Proof. destruct c as [[] [] [] [] [] [] [] []]; vm_compute; reflexivity. Qed.

Lemma upper_idem (s : string) : upper (upper s) = upper s.
Proof.
  induction s as [| c s IH]; simpl; [reflexivity |].
  rewrite upper_ascii_idem, IH. reflexivity.
Qed.

Lemma string_app_cancel (s t t' : string) :
  (s ++ t)%string = (s ++ t')%string -> t = t'.
Proof.
  induction s as [| c s IH]; simpl; [trivial |]. intros [= H]. apply IH, H.
Qed.

(** The message byte as the earlier implementation prints it, before the
    final [.upper()]. *)
Definition hex_msg_02 (msg : Z) : string :=
  if msg <? 0x10 then "0" ++ hex2 msg else hex2 msg.

Definition msg_formats_agree (msg : Z) : bool :=
  (upper (hex_msg_02 msg) =? upper (fmt_X 2 msg))%string.

Lemma msg_formats_agree_all : holds_from msg_formats_agree 256 0 = true.
Proof. vm_compute. reflexivity. Qed.

(** What follows the message byte in a record with one argument: in the
    earlier implementation a space and [hex(arg)[2:]]; in the later one
    [spacing] and [hex_args]. *)
Definition arg_text_02 (a : Z) : string := upper (" " ++ hex2 a).

Definition arg_text_04 (size : V04.argsize) (a : Z) : string :=
  let hex_args := V04.format_args [Some (a, size)] in
  let spacing := match hex_args with EmptyString => "" | _ => " " end in
  upper (spacing ++ hex_args).

Definition u8_texts_compare (a : Z) : bool :=
  Bool.eqb (arg_text_02 a =? arg_text_04 V04.u8 a)%string (0x10 <=? a).

Definition u16_texts_compare (a : Z) : bool :=
  Bool.eqb (arg_text_02 a =? arg_text_04 V04.u16 a)%string (0x1000 <=? a).

Lemma u8_texts_compare_all : holds_from u8_texts_compare 256 0 = true.
Proof. vm_compute. reflexivity. Qed.

Lemma u16_texts_compare_all :
  holds_from u16_texts_compare (Z.to_nat 0x10000) 0 = true.
Proof. vm_compute. reflexivity. Qed.

Lemma GET_MSG_STRING_one (addr msg a : Z) :
  V02.GET_MSG_STRING addr msg [a]
  = (upper (V02.GET_MSG_STRING_hex_addr addr) ++ ": "
     ++ upper (hex_msg_02 msg)
     ++ arg_text_02 a)%string.
Proof.
  unfold V02.GET_MSG_STRING, arg_text_02. cbn [map].
  rewrite !upper_app. reflexivity.
Qed.

Lemma GET_MSG_STRING_none (addr msg : Z) :
  V02.GET_MSG_STRING addr msg []
  = (upper (V02.GET_MSG_STRING_hex_addr addr) ++ ": "
     ++ upper (hex_msg_02 msg))%string.
Proof.
  unfold V02.GET_MSG_STRING. cbn [map].
  rewrite !upper_app. reflexivity.
Qed.

Lemma get_msg_string_one (addr msg a : Z) (size : V04.argsize) :
  V04.get_msg_string addr (Some msg) [Some (a, size)]
  = (upper (V04.format_addr addr) ++ ": " ++ upper (fmt_X 2 msg)
     ++ arg_text_04 size a)%string.
Proof.
  unfold V04.get_msg_string, arg_text_04. cbv zeta.
  rewrite !upper_app. reflexivity.
Qed.

Lemma get_msg_string_none (addr msg : Z) :
  V04.get_msg_string addr (Some msg) [None]
  = (upper (V04.format_addr addr) ++ ": " ++ upper (fmt_X 2 msg))%string.
Proof.
  unfold V04.get_msg_string. cbn [V04.format_args flat_map app join_sp].
  rewrite !upper_app. cbn [upper]. rewrite !string_app_nil_r. reflexivity.
Qed.

Lemma record_head_agrees (addr msg : Z) :
  0 <= addr <= 0xFFFF -> 0 <= msg <= 0xFF ->
  upper (V02.GET_MSG_STRING_hex_addr addr) = upper (V04.format_addr addr)
  /\ upper (hex_msg_02 msg)
     = upper (fmt_X 2 msg).
Proof.
  intros Haddr Hmsg. split.
  - assert (Hok : addr_formats_agree addr = true).
    { apply (holds_from_spec _ _ 0 addr_formats_agree_all). lia. }
    unfold addr_formats_agree in Hok. apply andb_prop in Hok as [H1 _].
    apply String.eqb_eq in H1. rewrite <- H1, upper_idem. reflexivity.
  - assert (Hok : msg_formats_agree msg = true).
    { apply (holds_from_spec _ _ 0 msg_formats_agree_all). lia. }
    apply String.eqb_eq in Hok. exact Hok.
Qed.

Lemma texts_compare_spec (s t : string) (c : bool) :
  Bool.eqb (s =? t)%string c = true -> (s = t <-> c = true).
Proof.
  intros H. apply Bool.eqb_prop in H. rewrite <- H. symmetry. apply String.eqb_eq.
Qed.

(** X15. The text of a record, for an address up to 0xFFFF and a message
    byte.  With no argument the two implementations print the same text.
    With an argument they print the same text exactly when the argument
    needs no padding: the earlier one prints [hex(arg)[2:]] as it comes,
    the later one pads an 8-bit argument to two digits and a 16-bit one
    to four.  So an 8-bit argument below 0x10, or a 16-bit one below
    0x1000, reads differently in the two. *)
Theorem record_text_differs_by_padding (addr msg : Z) :
  0 <= addr <= 0xFFFF ->
  0 <= msg <= 0xFF ->
  V02.GET_MSG_STRING addr msg [] = V04.get_msg_string addr (Some msg) [None]
  /\ (forall a : Z,
         0 <= a <= 0xFF ->
         V02.GET_MSG_STRING addr msg [a]
         = V04.get_msg_string addr (Some msg) [Some (a, V04.u8)]
         <-> 0x10 <= a)
  /\ (forall a : Z,
         0 <= a <= 0xFFFF ->
         V02.GET_MSG_STRING addr msg [a]
         = V04.get_msg_string addr (Some msg) [Some (a, V04.u16)]
         <-> 0x1000 <= a).
Proof.
  intros Haddr Hmsg.
  destruct (record_head_agrees addr msg Haddr Hmsg) as [Ha Hm].
  split; [| split].
  - rewrite GET_MSG_STRING_none, get_msg_string_none, Ha, Hm. reflexivity.
  - intros a Hrange.
    rewrite GET_MSG_STRING_one, get_msg_string_one, Ha, Hm.
    assert (Hok : u8_texts_compare a = true).
    { apply (holds_from_spec _ _ 0 u8_texts_compare_all). lia. }
    apply texts_compare_spec in Hok. rewrite <- Z.leb_le, <- Hok.
    split; [| intros ->; reflexivity].
    intros H. do 3 apply string_app_cancel in H. exact H.
  - intros a Hrange.
    rewrite GET_MSG_STRING_one, get_msg_string_one, Ha, Hm.
    assert (Hok : u16_texts_compare a = true).
    { apply (holds_from_spec _ _ 0 u16_texts_compare_all). lia. }
    apply texts_compare_spec in Hok. rewrite <- Z.leb_le, <- Hok.
    split; [| intros ->; reflexivity].
    intros H. do 3 apply string_app_cancel in H. exact H.
Qed.

Lemma record_text_differs_by_padding_witness :
  V02.GET_MSG_STRING 0x1AF 0xDB [0x40]
  = V04.get_msg_string 0x1AF (Some 0xDB) [Some (0x40, V04.u8)]
  /\ V02.GET_MSG_STRING 0x1AF 0xDB [0x05]
     <> V04.get_msg_string 0x1AF (Some 0xDB) [Some (0x05, V04.u8)].
Proof.
  pose proof (record_text_differs_by_padding 0x1AF 0xDB ltac:(lia) ltac:(lia))
    as (_ & H8 & _).
  split.
  - apply (H8 0x40); lia.
  - intros H. apply (H8 0x05) in H; lia.
Defined.

(* ===================================================================== *)
(** ** The first byte of the file and the later decoder *)
(* ===================================================================== *)

(** How a pass of the loop body ends, without the state it ends in. *)
Inductive exit_kind : Type :=
| by_Next | by_Break | by_Throw (e : exn).

Definition to_flow (x : exit_kind) (st : pstate) : flow :=
  match x with
  | by_Next => Next st
  | by_Break => Break st
  | by_Throw e => Throw e st
  end.

Section FirstByte.

Variables (b b' : byte) (rest : list byte).

(** A file operation runs alike on two files that differ in their first
    byte only, the cursor being past that byte: same result, same cursor
    afterwards, and that cursor still past the first byte. *)
Definition alike {A : Type} (m : M A) : Prop :=
  forall c : nat, (1 <= c)%nat ->
  exists (r : result A) (c' : nat),
    (1 <= c')%nat
    /\ m (mkfile (b :: rest) c) = (r, mkfile (b :: rest) c')
    /\ m (mkfile (b' :: rest) c) = (r, mkfile (b' :: rest) c').

Lemma alike_ret {A : Type} (a : A) : alike (ret a).
Proof. intros c Hc. exists (Ok a), c. repeat split. exact Hc. Qed.

Lemma alike_lift {A : Type} (r : result A) : alike (lift r).
Proof. intros c Hc. exists r, c. repeat split. exact Hc. Qed.

Lemma alike_tellM : alike tellM.
Proof. intros c Hc. exists (Ok c), c. repeat split. exact Hc. Qed.

Lemma alike_seekM (addr : nat) : (1 <= addr)%nat -> alike (seekM addr).
Proof. intros Ha c Hc. exists (Ok tt), addr. repeat split. exact Ha. Qed.

Lemma alike_readM (n : nat) : alike (readM n).
Proof.
  intros [| k] Hc; [lia |].
  exists (Ok (take n (drop k rest))), (S k + length (take n (drop k rest)))%nat.
  split; [lia |]. split; reflexivity.
Qed.

Lemma alike_bind {A C : Type} (m : M A) (k : A -> M C) :
  alike m -> (forall a, alike (k a)) -> alike (bind m k).
Proof.
  intros Hm Hk c Hc. destruct (Hm c Hc) as (r & c1 & Hc1 & E & E').
  unfold bind. rewrite E, E'. destruct r as [a | e].
  - apply Hk. exact Hc1.
  - exists (Raise e), c1. repeat split. exact Hc1.
Qed.

Ltac alike_steps :=
  repeat first
    [ apply alike_ret | apply alike_lift | apply alike_tellM | apply alike_readM
    | apply alike_seekM; lia
    | apply alike_bind; [| intros ?]
    | match goal with
      | |- alike (if ?t then _ else _) => destruct t
      end ].

Lemma call_alike (f : V04.callable) (pos : nat) (arglen : Z) :
  (1 <= pos)%nat -> alike (V04.call f pos arglen).
Proof.
  intros Hpos.
  destruct f;
    unfold V04.call, V04.read_msg, V04.read_argvar, V04.read_u8, V04.read_u8x2,
      V04.read_u8_u16, V04.read_u16, V04.read_s16_u8, V04.seek_addr;
    alike_steps.
Qed.

Lemma parse_seq_call_alike (f : V04.callable) (pos : nat) :
  (1 <= pos)%nat -> alike (parse_seq_call f pos).
Proof.
  intros Hpos. unfold parse_seq_call. alike_steps. apply call_alike. exact Hpos.
Qed.

Lemma parse_seq_body_alike (version : SeqVersion) (byte : list byte)
  (c p : nat) (g : globals) :
  (2 <= c)%nat ->
  exists (x : exit_kind) (c' p' : nat) (g' : globals),
    (1 <= c')%nat
    /\ V04.parse_seq_body version byte (mkpstate (mkfile (b :: rest) c) p g)
       = to_flow x (mkpstate (mkfile (b :: rest) c') p' g')
    /\ V04.parse_seq_body version byte (mkpstate (mkfile (b' :: rest) c) p g)
       = to_flow x (mkpstate (mkfile (b' :: rest) c') p' g').
Proof.
  intros Hc. unfold V04.parse_seq_body, tell. cbn [st_seq st_pos st_G cursor].
  destruct (V04.SEQ_MESSAGES _) as [msg |];
    [| exists by_Next, c, (c - 1)%nat, g; repeat split; lia].
  destruct (match V04.version_check msg with
            | Some v => negb (SeqVersion_eqb v version)
            | None => false
            end);
    [exists by_Next, c, (c - 1)%nat, g; repeat split; lia |].
  change (seekM (c - 1 + 1) ;;;
          bs <- readM 1 ;;
          arglen <- lift (ord bs) ;;
          V04.call (V04.read_func msg) (c - 1) arglen)
    with (parse_seq_call (V04.read_func msg) (c - 1)).
  destruct (parse_seq_call_alike (V04.read_func msg) (c - 1) ltac:(lia) c ltac:(lia))
    as (r & c1 & Hc1 & E & E').
  rewrite E, E'.
  destruct r as [[md |] | e].
  - destruct (_ =? 0xFF).
    + eexists by_Break, c1, _, _. split; [exact Hc1 |]. split; reflexivity.
    + eexists by_Next, c1, _, _. split; [exact Hc1 |]. split; reflexivity.
  - eexists (by_Throw AttributeError), c1, _, _.
    split; [exact Hc1 |]. split; reflexivity.
  - eexists (by_Throw e), c1, _, _. split; [exact Hc1 |]. split; reflexivity.
Qed.

Lemma parse_seq_loop_alike (version : SeqVersion) (fuel : nat) :
  forall (c p : nat) (g : globals),
    (1 <= c)%nat ->
    exists (o : outcome) (c' p' : nat) (g' : globals),
      V04.parse_seq_loop fuel version (mkpstate (mkfile (b :: rest) c) p g)
      = (o, mkpstate (mkfile (b :: rest) c') p' g')
      /\ V04.parse_seq_loop fuel version (mkpstate (mkfile (b' :: rest) c) p g)
         = (o, mkpstate (mkfile (b' :: rest) c') p' g').
Proof.
  induction fuel as [| fuel IH]; intros c p g Hc.
  - exists OutOfFuel, c, p, g. split; reflexivity.
  - rewrite !parse_seq_loop_S. cbn [st_seq st_pos st_G].
    destruct c as [| k]; [lia |].
    change (read (mkfile (b :: rest) (S k)) 1)
      with (take 1 (drop k rest), mkfile (b :: rest) (S k + length (take 1 (drop k rest)))).
    change (read (mkfile (b' :: rest) (S k)) 1)
      with (take 1 (drop k rest), mkfile (b' :: rest) (S k + length (take 1 (drop k rest)))).
    cbv beta iota.
    destruct (take 1 (drop k rest)) as [| x byte] eqn:Ebyte.
    + exists Exhausted, (S k + 0)%nat, p, g. split; reflexivity.
    + destruct (parse_seq_body_alike version (x :: byte)
                  (S k + length (x :: byte)) p g ltac:(simpl; lia))
        as (ex & c1 & p1 & g1 & Hc1 & E & E').
      rewrite E, E'. destruct ex as [| | e]; cbn [to_flow].
      * apply IH. exact Hc1.
      * exists Ended, c1, p1, g1. split; reflexivity.
      * exists (Raised e), c1, p1, g1. split; reflexivity.
Qed.

End FirstByte.

(** X16. The later decoder never looks at the first byte of the file: its
    opening [seq.read(1)] consumes that byte and every later read is at
    address 1 or beyond.  Two files that differ in their first byte only
    are decoded alike: same outcome, same records and addresses collected,
    same position and cursor at the end. *)
Theorem first_byte_is_never_decoded (version : SeqVersion) (b b' : byte)
  (rest : list byte) (g : globals) :
  fst (V04.parse_seq version (open (b :: rest)) g)
  = fst (V04.parse_seq version (open (b' :: rest)) g)
  /\ st_G (snd (V04.parse_seq version (open (b :: rest)) g))
     = st_G (snd (V04.parse_seq version (open (b' :: rest)) g))
  /\ st_pos (snd (V04.parse_seq version (open (b :: rest)) g))
     = st_pos (snd (V04.parse_seq version (open (b' :: rest)) g))
  /\ cursor (st_seq (snd (V04.parse_seq version (open (b :: rest)) g)))
     = cursor (st_seq (snd (V04.parse_seq version (open (b' :: rest)) g))).
Proof.
  unfold V04.parse_seq, open.
  change (read (mkfile (b :: rest) 0) 1) with ([b], mkfile (b :: rest) 1).
  change (read (mkfile (b' :: rest) 0) 1) with ([b'], mkfile (b' :: rest) 1).
  cbv beta iota. cbn [data length].
  destruct (parse_seq_loop_alike b b' rest version (S (length rest) + 1) 1 0 g
              ltac:(lia)) as (o & c' & p' & g' & E & E').
  rewrite E, E'. repeat split.
Qed.

(* ===================================================================== *)
(** ** What the collected addresses point at *)
(* ===================================================================== *)

(** The opcode whose messages a list collects; nothing is ever collected
    into [JUMP_ADDR] and [RJUMP_ADDR]. *)
Definition opcode_of (l : addr_list) : option byte :=
  match l with
  | MSTR_VOL => Some xdb
  | EQJUMP => Some xfa
  | LTJUMP => Some xf9
  | GTEQJUMP => Some xf5
  | REQJUMP => Some xf3
  | RLTJUMP => Some xf2
  | JUMP | RJUMP => None
  end.

(** The list that [l] refers to. *)
Definition addrs_of (l : addr_list) (g : globals) : list nat :=
  match l with
  | MSTR_VOL => MSTR_VOL_ADDR g
  | JUMP => JUMP_ADDR g
  | EQJUMP => EQJUMP_ADDR g
  | LTJUMP => LTJUMP_ADDR g
  | GTEQJUMP => GTEQJUMP_ADDR g
  | RJUMP => RJUMP_ADDR g
  | REQJUMP => REQJUMP_ADDR g
  | RLTJUMP => RLTJUMP_ADDR g
  end.

(** The file holds the opcode of [l] at [a]. *)
Definition at_opcode (d : list byte) (l : addr_list) (a : nat) : Prop :=
  match opcode_of l with
  | Some op => d !! a = Some op
  | None => False
  end.

(** The byte after the opcode of [l] is at [a]. *)
Definition after_opcode (d : list byte) (l : addr_list) (a : nat) : Prop :=
  exists k : nat, a = S k /\ at_opcode d l k.

(** What the earlier decoder keeps in a list: for the volume list the
    address of the argument, for the jump lists that of the message. *)
Definition kept_02 (d : list byte) (l : addr_list) (a : nat) : Prop :=
  match l with
  | MSTR_VOL => after_opcode d l a
  | _ => at_opcode d l a
  end.

(** Every address in every list satisfies [P]. *)
Definition every_addr (P : addr_list -> nat -> Prop) (g : globals) : Prop :=
  forall l : addr_list, Forall (P l) (addrs_of l g).

Lemma every_addr_module_load (P : addr_list -> nat -> Prop) :
  every_addr P module_load.
Proof. intros []; constructor. Qed.

Lemma every_addr_addr_append (P : addr_list -> nat -> Prop) (l : addr_list)
  (a : nat) (g : globals) :
  every_addr P g -> P l a -> every_addr P (addr_append l a g).
Proof.
  intros Hg Ha l'. specialize (Hg l').
  destruct l, l'; cbn [addr_append addrs_of MSTR_VOL_ADDR JUMP_ADDR EQJUMP_ADDR
                         LTJUMP_ADDR GTEQJUMP_ADDR RJUMP_ADDR REQJUMP_ADDR
                         RLTJUMP_ADDR] in *;
    try exact Hg;
    (apply Forall_app; split; [exact Hg | apply Forall_cons_2; [exact Ha | apply Forall_nil_2]]).
Qed.

(** An arm of the chain that collects does so for the opcode of its list,
    and the message it reads has an argument. *)
Definition collects_for (x : byte) (b : V02.branch) : Prop :=
  match V02.br_collect b with
  | Some (l, k) =>
      opcode_of l = Some x
      /\ k = match l with MSTR_VOL => V02.the_arg_addr | _ => V02.the_addr end
      /\ V02.br_read b <> V02.BY_READ_MSG
  | None => True
  end.

Lemma PARSE_SEQ_arm_collects (version : SeqVersion) (x : byte) :
  match V02.PARSE_SEQ_arm version [x] with
  | V02.arm_msg b => collects_for x b
  | _ => True
  end.
Proof.
  destruct x, version; vm_compute; try exact I;
    (split; [reflexivity | split; [reflexivity | discriminate]]).
Qed.

Lemma OLD_READER_call_arg (r : V02.OLD_READER) (addr : nat) (seq : file)
  (m : list Z) (n : option nat) (arg_addrs : list nat) :
  fst (V02.OLD_READER_call r addr seq) = Ok (m, n, arg_addrs) ->
  r <> V02.BY_READ_MSG ->
  hd O arg_addrs = S addr.
Proof.
  destruct r;
    unfold V02.OLD_READER_call, V02.READ_MSG, V02.READ_ARGVAR, V02.READ_U8,
      V02.READ_U8x2, V02.READ_U8_U16, V02.READ_U16, V02.READ_S16_U8,
      V02.SEEK_ADDR, bind, seekM, tellM, readM, lift, ret, read, seek, tell;
    cbn [data cursor fst snd];
    reader_cases; intros Hok Hr; try discriminate Hok; try congruence.
  all: injection Hok as <- <- <-.
  all: cbn [hd cursor]; lia.
Qed.

Lemma read_1_lookup (d : list byte) (c : nat) (x : byte) (byte : list byte)
  (seq : file) :
  read (mkfile d c) 1 = (x :: byte, seq) ->
  d !! c = Some x /\ byte = [] /\ seq = mkfile d (c + 1).
Proof.
  destruct (d !! c) as [y |] eqn:E.
  - rewrite (read_1 d c y E). intros [= -> <- <-]. repeat split.
  - apply lookup_ge_None_1 in E. rewrite (read_1_end d c E). discriminate.
Qed.

Lemma PARSE_SEQ_branch_kept (b : V02.branch) (d : list byte) (c p : nat)
  (g : globals) (x : byte) :
  d !! c = Some x ->
  collects_for x b ->
  every_addr (kept_02 d) g ->
  every_addr (kept_02 d)
    (st_G (flow_state (V02.PARSE_SEQ_branch b (mkpstate (mkfile d (c + 1)) p g)))).
Proof.
  intros Hx Hb Hg. unfold V02.PARSE_SEQ_branch, tell.
  cbn [st_seq st_pos st_G cursor].
  replace (c + 1 - 1)%nat with c by lia.
  pose proof (OLD_READER_call_arg (V02.br_read b) c (mkfile d (c + 1))) as Harg.
  destruct (V02.OLD_READER_call _ _ _) as [[[[m k] arg_addrs] | e] seq'];
    cbn [fst] in Harg; [| exact Hg].
  specialize (Harg m k arg_addrs eq_refl).
  set (s := (_ ++ _)%string).
  assert (Hg' : every_addr (kept_02 d)
                  (match V02.br_collect b with
                   | Some (l, V02.the_addr) => addr_append l c (output_append s g)
                   | Some (l, V02.the_arg_addr) =>
                       addr_append l (hd O arg_addrs) (output_append s g)
                   | None => output_append s g
                   end)).
  { unfold collects_for in Hb.
    destruct (V02.br_collect b) as [[l kind] |]; [| exact Hg].
    destruct Hb as (Hop & -> & Hr). specialize (Harg Hr).
    destruct l; try discriminate Hop;
      (apply every_addr_addr_append; [exact Hg |]);
      injection Hop as <-; cbn [kept_02]; unfold after_opcode, at_opcode;
      cbn [opcode_of]; try exact Hx.
    exists c. split; [exact Harg | exact Hx]. }
  destruct (V02.br_break b); exact Hg'.
Qed.

Lemma PARSE_SEQ_body_kept (version : SeqVersion) (d : list byte) (c p : nat)
  (g : globals) :
  every_addr (kept_02 d) g ->
  every_addr (kept_02 d)
    (st_G (flow_state (V02.PARSE_SEQ_body version (mkpstate (mkfile d c) p g)))).
Proof.
  intros Hg. unfold V02.PARSE_SEQ_body, seek. cbn [st_seq st_pos st_G data].
  destruct (read (mkfile d p) 1) as [[| x byte] seq] eqn:Hread.
  - rewrite PARSE_SEQ_arm_nil. exact Hg.
  - apply read_1_lookup in Hread as (Hx & -> & ->).
    pose proof (PARSE_SEQ_arm_collects version x) as Harm.
    destruct (V02.PARSE_SEQ_arm version [x]) as [b | s k |]; try exact Hg.
    apply (PARSE_SEQ_branch_kept b d p p g x Hx Harm Hg).
Qed.

Lemma PARSE_SEQ_loop_kept (version : SeqVersion) (d : list byte) (fuel : nat) :
  forall (c p : nat) (g : globals),
    every_addr (kept_02 d) g ->
    every_addr (kept_02 d)
      (st_G (snd (V02.PARSE_SEQ_loop fuel version (mkpstate (mkfile d c) p g)))).
Proof.
  induction fuel as [| fuel IH]; intros c p g Hg; [exact Hg |].
  rewrite PARSE_SEQ_loop_S. cbn [st_seq st_pos st_G].
  destruct (read (mkfile d c) 1) as [[| x byte] seq] eqn:Hread; [exact Hg |].
  apply read_1_lookup in Hread as (Hx & -> & ->). cbv beta iota zeta.
  pose proof (PARSE_SEQ_body_kept version d (c + 1) p g Hg) as Hbody.
  pose proof (PARSE_SEQ_body_spec version (mkpstate (mkfile d (c + 1)) p g))
    as [Hdata _].
  destruct (V02.PARSE_SEQ_body version _) as [st' | st' | e st'];
    cbn [flow_state snd st_seq data] in *; try exact Hbody.
  destruct st' as [[d' c'] p' g']. cbn [st_seq st_G data] in *. subst d'.
  apply IH. exact Hbody.
Qed.

(** X17. What the earlier decoder collects, for any file and either game.
    Every address in the volume list is that of the byte after a 0xDB in
    the file, and every address in a list of conditional jumps is that of
    the opcode of that jump in the file (0xFA, 0xF9, 0xF5, 0xF3 or 0xF2);
    the lists [JUMP_ADDR] and [RJUMP_ADDR] stay empty.  With the theorem
    on what a run changes, the mutation phase overwrites volume arguments
    and conditional jump opcodes only. *)
Theorem collected_addresses_hold_their_opcode (version : SeqVersion)
  (contents : list byte) :
  Forall (fun a => exists k : nat, a = S k /\ contents !! k = Some xdb)
    (MSTR_VOL_ADDR (PARSE_SEQ_lists version contents))
  /\ Forall (fun a => contents !! a = Some xfa)
       (EQJUMP_ADDR (PARSE_SEQ_lists version contents))
  /\ Forall (fun a => contents !! a = Some xf9)
       (LTJUMP_ADDR (PARSE_SEQ_lists version contents))
  /\ Forall (fun a => contents !! a = Some xf5)
       (GTEQJUMP_ADDR (PARSE_SEQ_lists version contents))
  /\ Forall (fun a => contents !! a = Some xf3)
       (REQJUMP_ADDR (PARSE_SEQ_lists version contents))
  /\ Forall (fun a => contents !! a = Some xf2)
       (RLTJUMP_ADDR (PARSE_SEQ_lists version contents))
  /\ JUMP_ADDR (PARSE_SEQ_lists version contents) = []
  /\ RJUMP_ADDR (PARSE_SEQ_lists version contents) = [].
Proof.
  assert (H : every_addr (kept_02 contents) (PARSE_SEQ_lists version contents)).
  { unfold PARSE_SEQ_lists, V02.PARSE_SEQ, open.
    destruct (read (mkfile contents 0) 1) as [byte seq] eqn:Hread.
    assert (Hseq : seq = mkfile contents (cursor seq)).
    { unfold read in Hread. injection Hread as _ <-. reflexivity. }
    rewrite Hseq. cbn [data].
    apply PARSE_SEQ_loop_kept. apply every_addr_module_load. }
  pose proof (H MSTR_VOL) as H1. pose proof (H EQJUMP) as H2.
  pose proof (H LTJUMP) as H3. pose proof (H GTEQJUMP) as H4.
  pose proof (H REQJUMP) as H5. pose proof (H RLTJUMP) as H6.
  pose proof (H JUMP) as H7. pose proof (H RJUMP) as H8.
  cbn [addrs_of kept_02] in *.
  repeat split; try assumption.
  - destruct H7 as [| a rest Ha _]; [reflexivity | destruct Ha].
  - destruct H8 as [| a rest Ha _]; [reflexivity | destruct Ha].
Qed.

(** The later implementation. *)
Definition collects_arg_for (x : byte) (msg : V04.SeqMessage) : Prop :=
  match V04.extra_output_list msg with
  | Some l =>
      opcode_of l = Some x
      /\ (V04.read_func msg = V04.the_read_u8
          \/ V04.read_func msg = V04.the_read_u16)
  | None => True
  end.

Lemma SEQ_MESSAGES_collects (x : byte) :
  match V04.SEQ_MESSAGES (byte_val x) with
  | Some msg => collects_arg_for x msg
  | None => True
  end.
Proof.
  destruct x; vm_compute; try exact I;
    (split; [reflexivity | first [left; reflexivity | right; reflexivity]]).
Qed.

Lemma call_arg_addrs (f : V04.callable) (pos : nat) (arglen : Z) (seq : file)
  (md : V04.MessageData) :
  f = V04.the_read_u8 \/ f = V04.the_read_u16 ->
  fst (V04.call f pos arglen seq) = Ok (V04.a_MessageData md) ->
  V04.arg_addr_1 md = Some (S pos) /\ V04.arg_addr_2 md = None.
Proof.
  intros [-> | ->];
    unfold V04.call, V04.read_u8, V04.read_u16, V04.seek_addr, bind, seekM,
      tellM, readM, lift, ret, read, seek, tell;
    cbn [data cursor fst snd];
    reader_cases; intros Hok; try discriminate Hok.
  all: injection Hok as <-; cbn [V04.arg_addr_1 V04.arg_addr_2].
  all: split; [f_equal; lia | reflexivity].
Qed.

Lemma parse_seq_body_kept (version : SeqVersion) (d : list byte) (c p : nat)
  (g : globals) (x : byte) :
  d !! c = Some x ->
  every_addr (after_opcode d) g ->
  every_addr (after_opcode d)
    (st_G (flow_state
             (V04.parse_seq_body version [x] (mkpstate (mkfile d (c + 1)) p g)))).
Proof.
  intros Hx Hg. unfold V04.parse_seq_body, tell.
  cbn [st_seq st_pos st_G cursor].
  replace (c + 1 - 1)%nat with c by lia.
  pose proof (SEQ_MESSAGES_collects x) as Hmsg.
  destruct (V04.SEQ_MESSAGES (byte_val x)) as [msg |]; [| exact Hg].
  destruct (match V04.version_check msg with
            | Some v => negb (SeqVersion_eqb v version)
            | None => false
            end); [exact Hg |].
  change ((seekM (c + 1) ;;;
           bs <- readM 1 ;;
           arglen <- lift (ord bs) ;;
           V04.call (V04.read_func msg) c arglen) (mkfile d (c + 1)))
    with (parse_seq_call (V04.read_func msg) c (mkfile d (c + 1))).
  assert (Hcall : forall md,
             fst (parse_seq_call (V04.read_func msg) c (mkfile d (c + 1)))
             = Ok (V04.a_MessageData md) ->
             forall l, V04.extra_output_list msg = Some l ->
             V04.arg_addr_1 md = Some (S c) /\ V04.arg_addr_2 md = None
             /\ opcode_of l = Some x).
  { intros md Hok l Hl. unfold collects_arg_for in Hmsg. rewrite Hl in Hmsg.
    destruct Hmsg as [Hop Hf]. rewrite parse_seq_call_eq in Hok.
    destruct (ord _) as [arglen | e]; [| discriminate Hok].
    destruct (call_arg_addrs _ _ _ _ md Hf Hok) as [H1 H2].
    repeat split; assumption. }
  destruct (parse_seq_call _ _ _) as [[[md |] | e] seq'];
    cbn [fst] in Hcall; try exact Hg.
  set (s := (_ ++ _)%string).
  assert (Hg' : every_addr (after_opcode d)
                  (match V04.extra_output_list msg with
                   | Some l =>
                       match V04.arg_addr_2 md with
                       | Some (S a) =>
                           addr_append l (S a)
                             match V04.arg_addr_1 md with
                             | Some a0 => addr_append l a0 (output_append s g)
                             | None => output_append s g
                             end
                       | _ =>
                           match V04.arg_addr_1 md with
                           | Some a0 => addr_append l a0 (output_append s g)
                           | None => output_append s g
                           end
                       end
                   | None => output_append s g
                   end)).
  { destruct (V04.extra_output_list msg) as [l |]; [| exact Hg].
    destruct (Hcall md eq_refl l eq_refl) as (-> & -> & Hop).
    apply every_addr_addr_append; [exact Hg |].
    exists c. split; [reflexivity |]. unfold at_opcode. rewrite Hop. exact Hx. }
  destruct (_ =? 0xFF); exact Hg'.
Qed.

Lemma parse_seq_loop_kept (version : SeqVersion) (d : list byte) (fuel : nat) :
  forall (c p : nat) (g : globals),
    every_addr (after_opcode d) g ->
    every_addr (after_opcode d)
      (st_G (snd (V04.parse_seq_loop fuel version (mkpstate (mkfile d c) p g)))).
Proof.
  induction fuel as [| fuel IH]; intros c p g Hg; [exact Hg |].
  rewrite parse_seq_loop_S. cbn [st_seq st_pos st_G].
  destruct (read (mkfile d c) 1) as [[| x byte] seq] eqn:Hread; [exact Hg |].
  apply read_1_lookup in Hread as (Hx & -> & ->). cbv beta iota zeta.
  pose proof (parse_seq_body_kept version d c p g x Hx Hg) as Hbody.
  pose proof (parse_seq_body_spec version [x] (mkpstate (mkfile d (c + 1)) p g))
    as [Hdata _].
  destruct (V04.parse_seq_body version _ _) as [st' | st' | e st'];
    cbn [flow_state snd st_seq data] in *; try exact Hbody.
  destruct st' as [[d' c'] p' g']. cbn [st_seq st_G data] in *. subst d'.
  apply IH. exact Hbody.
Qed.

(** X18. What the later decoder collects, for any file and either game:
    every address in any list is that of the byte after the opcode of the
    list's message in the file.  For the volume list that byte is the
    volume argument; for the lists of conditional jumps it is the first
    byte of the jump's argument and not the jump opcode, so the jump phase
    overwrites arguments and leaves the opcodes. *)
Theorem later_collects_argument_addresses (version : SeqVersion)
  (contents : list byte) :
  Forall (fun a => exists k : nat, a = S k /\ contents !! k = Some xdb)
    (MSTR_VOL_ADDR (parse_seq_lists version contents))
  /\ Forall (fun a => exists k : nat, a = S k /\ contents !! k = Some xfa)
       (EQJUMP_ADDR (parse_seq_lists version contents))
  /\ Forall (fun a => exists k : nat, a = S k /\ contents !! k = Some xf9)
       (LTJUMP_ADDR (parse_seq_lists version contents))
  /\ Forall (fun a => exists k : nat, a = S k /\ contents !! k = Some xf5)
       (GTEQJUMP_ADDR (parse_seq_lists version contents))
  /\ Forall (fun a => exists k : nat, a = S k /\ contents !! k = Some xf3)
       (REQJUMP_ADDR (parse_seq_lists version contents))
  /\ Forall (fun a => exists k : nat, a = S k /\ contents !! k = Some xf2)
       (RLTJUMP_ADDR (parse_seq_lists version contents))
  /\ JUMP_ADDR (parse_seq_lists version contents) = []
  /\ RJUMP_ADDR (parse_seq_lists version contents) = [].
Proof.
  assert (H : every_addr (after_opcode contents) (parse_seq_lists version contents)).
  { unfold parse_seq_lists, V04.parse_seq, open.
    destruct (read (mkfile contents 0) 1) as [byte seq] eqn:Hread.
    assert (Hseq : seq = mkfile contents (cursor seq)).
    { unfold read in Hread. injection Hread as _ <-. reflexivity. }
    rewrite Hseq. cbn [data].
    apply parse_seq_loop_kept. apply every_addr_module_load. }
  pose proof (H MSTR_VOL) as H1. pose proof (H EQJUMP) as H2.
  pose proof (H LTJUMP) as H3. pose proof (H GTEQJUMP) as H4.
  pose proof (H REQJUMP) as H5. pose proof (H RLTJUMP) as H6.
  pose proof (H JUMP) as H7. pose proof (H RJUMP) as H8.
  unfold after_opcode, at_opcode in *. cbn [addrs_of opcode_of] in *.
  repeat split; try assumption.
  - destruct H7 as [| a rest (k & _ & []) _]. reflexivity.
  - destruct H8 as [| a rest (k & _ & []) _]. reflexivity.
Qed.

(* ===================================================================== *)
(** ** Where decoding ends *)
(* ===================================================================== *)

(** The only arm of the chain that leaves the loop is that of 0xFF. *)
Lemma PARSE_SEQ_arm_breaks (version : SeqVersion) (x : byte) :
  match V02.PARSE_SEQ_arm version [x] with
  | V02.arm_msg b =>
      V02.br_break b = true ->
      x = xff
      /\ b = V02.mkbranch V02.BY_READ_MSG true "  end             " "" None
               (Some 0%nat) true
  | _ => True
  end.
Proof.
  destruct x, version; vm_compute; try exact I; try discriminate.
  all: intros _; split; reflexivity.
Qed.

Lemma PARSE_SEQ_branch_no_break (b : V02.branch) (st st' : pstate) :
  V02.br_break b = false -> V02.PARSE_SEQ_branch b st <> Break st'.
Proof.
  intros Hb. unfold V02.PARSE_SEQ_branch. rewrite Hb.
  destruct (V02.OLD_READER_call _ _ _) as [[[[m k] arg_addrs] | e] seq'];
    discriminate.
Qed.

Lemma PARSE_SEQ_body_Break (version : SeqVersion) (d : list byte) (c p : nat)
  (g : globals) (st' : pstate) :
  V02.PARSE_SEQ_body version (mkpstate (mkfile d c) p g) = Break st' ->
  d !! p = Some xff
  /\ st' = mkpstate (mkfile d (p + 1)) p
             (output_append
                ("  end             " ++ V02.GET_MSG_STRING (Z.of_nat p) 0xFF []) g).
Proof.
  unfold V02.PARSE_SEQ_body, seek. cbn [st_seq st_pos st_G data].
  destruct (read (mkfile d p) 1) as [[| x byte] seq] eqn:Hread.
  - rewrite PARSE_SEQ_arm_nil. discriminate.
  - apply read_1_lookup in Hread as (Hx & -> & ->).
    pose proof (PARSE_SEQ_arm_breaks version x) as Harm.
    destruct (V02.PARSE_SEQ_arm version [x]) as [b | s k |]; try discriminate.
    destruct (V02.br_break b) eqn:Hb.
    + destruct (Harm eq_refl) as [-> ->]. clear Harm Hb.
      unfold V02.PARSE_SEQ_branch, V02.OLD_READER_call, tell.
      cbn [st_seq st_pos st_G cursor V02.br_read V02.br_msg_shown V02.br_open
             V02.br_close V02.br_collect V02.br_step V02.br_break].
      replace (p + 1 - 1)%nat with p by lia.
      unfold V02.READ_MSG, V02.SEEK_ADDR.
      unfold bind, seekM, tellM, readM, lift, ret, seek, tell. cbn [data cursor].
      rewrite (read_1 d p xff Hx).
      cbn [unpack item nth hd tl].
      rewrite string_app_nil_r.
      intros [= <-]. split; [exact Hx | reflexivity].
    + intros H. destruct (PARSE_SEQ_branch_no_break b _ st' Hb H).
Qed.

Lemma PARSE_SEQ_loop_Ended (version : SeqVersion) (d : list byte) (fuel : nat) :
  forall (c p : nat) (g : globals),
    fst (V02.PARSE_SEQ_loop fuel version (mkpstate (mkfile d c) p g)) = Ended ->
    exists (q : nat) (g' : globals),
      d !! q = Some xff
      /\ snd (V02.PARSE_SEQ_loop fuel version (mkpstate (mkfile d c) p g))
         = mkpstate (mkfile d (q + 1)) q
             (output_append
                ("  end             " ++ V02.GET_MSG_STRING (Z.of_nat q) 0xFF []) g').
Proof.
  induction fuel as [| fuel IH]; intros c p g; [discriminate |].
  rewrite PARSE_SEQ_loop_S. cbn [st_seq st_pos st_G].
  destruct (read (mkfile d c) 1) as [[| x byte] seq] eqn:Hread; [discriminate |].
  apply read_1_lookup in Hread as (Hx & -> & ->). cbv beta iota zeta.
  pose proof (PARSE_SEQ_body_spec version (mkpstate (mkfile d (c + 1)) p g))
    as [Hdata _].
  pose proof (PARSE_SEQ_body_Break version d (c + 1) p g) as Hbreak.
  destruct (V02.PARSE_SEQ_body version _) as [st' | st' | e st'];
    cbn [flow_state fst snd st_seq data] in *; try discriminate.
  - destruct st' as [[d' c'] p' g']. cbn [st_seq data] in Hdata. subst d'.
    apply IH.
  - intros _. destruct (Hbreak st' eq_refl) as [Hq ->]. exists p, g.
    split; [exact Hq | reflexivity].
Qed.

(** X19. When the earlier decoder leaves its loop by [break], for any file
    and either game, the file holds 0xFF at the position the decoder
    stands on, the cursor is one past it, and the last record is the end
    record for that address.  Decoding is never reported as ended on a
    byte other than 0xFF. *)
Theorem PARSE_SEQ_ends_at_end_message (version : SeqVersion)
  (contents : list byte) (g : globals) :
  fst (V02.PARSE_SEQ version (open contents) g) = Ended ->
  contents !! st_pos (snd (V02.PARSE_SEQ version (open contents) g)) = Some xff
  /\ cursor (st_seq (snd (V02.PARSE_SEQ version (open contents) g)))
     = (st_pos (snd (V02.PARSE_SEQ version (open contents) g)) + 1)%nat
  /\ last (SEQ_HEADER_OUTPUT (st_G (snd (V02.PARSE_SEQ version (open contents) g))))
     = Some ("  end             "
             ++ V02.GET_MSG_STRING
                  (Z.of_nat (st_pos (snd (V02.PARSE_SEQ version (open contents) g))))
                  0xFF []).
Proof.
  unfold V02.PARSE_SEQ, open.
  destruct (read (mkfile contents 0) 1) as [byte seq] eqn:Hread.
  assert (Hseq : seq = mkfile contents (cursor seq)).
  { unfold read in Hread. injection Hread as _ <-. reflexivity. }
  rewrite Hseq. cbn [data]. intros Hend.
  destruct (PARSE_SEQ_loop_Ended version contents _ _ _ _ Hend)
    as (q & g' & Hq & ->).
  cbn [st_pos st_seq st_G cursor output_append SEQ_HEADER_OUTPUT].
  split; [exact Hq |]. split; [reflexivity |]. apply last_snoc.
Qed.

Lemma PARSE_SEQ_ends_at_end_message_witness :
  [xdb; x40; xff] !! st_pos (snd (V02.PARSE_SEQ MM (open [xdb; x40; xff]) module_load))
  = Some xff
  /\ st_pos (snd (V02.PARSE_SEQ MM (open [xdb; x40; xff]) module_load)) = 2%nat.
Proof.
  split; [| reflexivity].
  apply (PARSE_SEQ_ends_at_end_message MM [xdb; x40; xff] module_load).
  reflexivity.
Defined.

(** The later implementation. *)
Lemma byte_val_xff (x : byte) : byte_val x = 0xFF -> x = xff.
Proof. destruct x; vm_compute; intros H; solve [reflexivity | discriminate H]. Qed.

Lemma parse_seq_body_Break (version : SeqVersion) (d : list byte) (c p : nat)
  (g : globals) (x : byte) (st' : pstate) :
  d !! c = Some x ->
  V04.parse_seq_body version [x] (mkpstate (mkfile d (c + 1)) p g) = Break st' ->
  x = xff
  /\ (c + 1 < length d)%nat
  /\ st' = mkpstate (mkfile d (c + 1)) c
             (output_append
                ("  end             "
                 ++ V04.get_msg_string (Z.of_nat c) (Some 0xFF) [None]) g).
Proof.
  intros Hx.
  destruct (byte_val x =? 0xFF) eqn:Hop.
  - apply Z.eqb_eq, byte_val_xff in Hop. subst x.
    unfold V04.parse_seq_body, tell. cbn [st_seq st_pos st_G cursor].
    replace (c + 1 - 1)%nat with c by lia.
    change (byte_val xff) with 0xFF.
    change (V04.SEQ_MESSAGES 0xFF)
      with (Some (V04.mkSeqMessage "end" V04.the_read_msg (Some 1%nat)
                    None None None)).
    cbn [V04.version_check V04.read_func V04.color V04.name V04.byte_size
           V04.extra_output_list].
    unfold V04.call, V04.read_msg, V04.seek_addr.
    unfold bind, seekM, tellM, readM, lift, ret, seek, tell. cbn [data cursor].
    destruct (d !! (c + 1)%nat) as [b1 |] eqn:H1.
    + rewrite (read_1 d (c + 1) b1 H1). unfold ord. cbn [data].
      rewrite (read_1 d c xff Hx).
      cbn [unpack item nth V04.arg_1 V04.arg_2 V04.arg_addr_1 V04.arg_addr_2 V04.pos].
      change (0xFF =? 0xFF) with true. cbv iota.
      change (ljust 16 "end") with "end             ".
      rewrite string_app_nil_r.
      intros [= <-]. split; [reflexivity |].
      split; [exact (lookup_lt_Some _ _ _ H1) | reflexivity].
    + apply lookup_ge_None_1 in H1. rewrite (read_1_end d (c + 1) H1).
      unfold ord. discriminate.
  - unfold V04.parse_seq_body. cbn [st_seq st_pos st_G]. rewrite Hop.
    destruct (V04.SEQ_MESSAGES _) as [msg |]; [| discriminate].
    destruct (match V04.version_check msg with
              | Some v => negb (SeqVersion_eqb v version)
              | None => false
              end); [discriminate |].
    match goal with
    | |- context [match ?m ?s with _ => _ end] =>
        destruct (m s) as [[[md |] | e] seq']
    end; discriminate.
Qed.

Lemma parse_seq_loop_Ended (version : SeqVersion) (d : list byte) (fuel : nat) :
  forall (c p : nat) (g : globals),
    fst (V04.parse_seq_loop fuel version (mkpstate (mkfile d c) p g)) = Ended ->
    exists (q : nat) (g' : globals),
      (c <= q)%nat
      /\ d !! q = Some xff
      /\ (q + 1 < length d)%nat
      /\ snd (V04.parse_seq_loop fuel version (mkpstate (mkfile d c) p g))
         = mkpstate (mkfile d (q + 1)) q
             (output_append
                ("  end             "
                 ++ V04.get_msg_string (Z.of_nat q) (Some 0xFF) [None]) g').
Proof.
  induction fuel as [| fuel IH]; intros c p g; [discriminate |].
  rewrite parse_seq_loop_S. cbn [st_seq st_pos st_G].
  destruct (read (mkfile d c) 1) as [[| x byte] seq] eqn:Hread; [discriminate |].
  apply read_1_lookup in Hread as (Hx & -> & ->). cbv beta iota zeta.
  pose proof (parse_seq_body_spec version [x] (mkpstate (mkfile d (c + 1)) p g))
    as [Hdata Hnext].
  pose proof (parse_seq_body_Break version d c p g x) as Hbreak.
  destruct (V04.parse_seq_body version _ _) as [st' | st' | e st'];
    cbn [flow_state fst snd st_seq data] in *; try discriminate.
  - destruct st' as [[d' c'] p' g']. cbn [st_seq data] in Hdata. subst d'.
    specialize (Hnext _ eq_refl). cbn [st_seq cursor] in Hnext.
    intros Hend. destruct (IH c' p' g' Hend) as (q & g1 & Hq & Hff & Hlen & E).
    exists q, g1. repeat split; solve [assumption | lia].
  - intros _. destruct (Hbreak st' Hx eq_refl) as (-> & Hlen & ->).
    exists c, g. repeat split; solve [assumption | lia].
Qed.

(** X20. When the later decoder leaves its loop by [break], for any file
    and either game, the file holds 0xFF at the position the decoder
    stands on and the last record is the end record for that address;
    that position is never the first byte of the file nor the last: the
    loop passes over the first byte and wants a byte after each message. *)
Theorem parse_seq_ends_inside_the_file (version : SeqVersion)
  (contents : list byte) (g : globals) :
  fst (V04.parse_seq version (open contents) g) = Ended ->
  contents !! st_pos (snd (V04.parse_seq version (open contents) g)) = Some xff
  /\ (1 <= st_pos (snd (V04.parse_seq version (open contents) g)))%nat
  /\ (st_pos (snd (V04.parse_seq version (open contents) g)) + 1
      < length contents)%nat
  /\ last (SEQ_HEADER_OUTPUT (st_G (snd (V04.parse_seq version (open contents) g))))
     = Some ("  end             "
             ++ V04.get_msg_string
                  (Z.of_nat (st_pos (snd (V04.parse_seq version (open contents) g))))
                  (Some 0xFF) [None]).
Proof.
  unfold V04.parse_seq, open.
  destruct (read (mkfile contents 0) 1) as [[| x byte] seq] eqn:Hread.
  - assert (Hseq : seq = mkfile contents (cursor seq)).
    { unfold read in Hread. injection Hread as _ <-. reflexivity. }
    rewrite Hseq. cbn [data]. intros Hend. exfalso.
    destruct (parse_seq_loop_Ended version contents _ _ _ _ Hend)
      as (q & g' & Hq & Hff & Hlen & _).
    unfold read in Hread. cbn [data cursor] in Hread.
    destruct contents; [cbn in Hlen; lia | discriminate Hread].
  - apply read_1_lookup in Hread as (Hx & -> & ->). cbn [data]. intros Hend.
    destruct (parse_seq_loop_Ended version contents _ _ _ _ Hend)
      as (q & g' & Hq & Hff & Hlen & ->).
    cbn [st_pos st_seq st_G cursor output_append SEQ_HEADER_OUTPUT].
    split; [exact Hff |]. split; [lia |]. split; [exact Hlen |]. apply last_snoc.
Qed.

Lemma parse_seq_ends_inside_the_file_witness :
  [x00; xff; x00] !! st_pos (snd (V04.parse_seq MM (open [x00; xff; x00]) module_load))
  = Some xff
  /\ st_pos (snd (V04.parse_seq MM (open [x00; xff; x00]) module_load)) = 1%nat.
Proof.
  split; [| reflexivity].
  apply (parse_seq_ends_inside_the_file MM [x00; xff; x00] module_load).
  reflexivity.
Defined.

(* ===================================================================== *)
(** ** Percentages in range always convert *)
(* ===================================================================== *)









(** *** Digits *)





(** *** Shifting right and rounding *)





Section Binary64.








End Binary64.

(** *** The three steps of the conversion *)







(** What the validator lets through, NaN apart, is a zero or a positive
    number up to 200. *)

















